(** * restinio-crud-example: task queue, worker pool, storage gateway and
      request processor

    A shallow embedding of the C++ sources

    - [crud-example/multithreading.hpp] ([message_queue_t], [thread_pool_t]),
    - [crud-example/main.cpp] (tasks, [worker_thread_func], [my_shutdowner_t]),
    - [crud-example/db_layer.cpp] ([db_layer_t]),
    - [crud-example/request_processor.cpp] ([request_processor_t] and the two
      wrappers [wrap_request_processing] / [wrap_business_logic_action]),

    followed by the properties proved about them.

    Conventions.  Every member function that runs under a [std::mutex] is one
    atomic transition of the guarded state.  C++ exceptions are values of the
    type [exception]; a computation that may throw returns
    [exception + A] together with the state reached when it stopped, so the
    side effects made before a throw are kept, as in C++. *)

From stdpp Require Import gmap strings list pretty.

Set Warnings "-clear-no-such-hyp".

Open Scope Z_scope.

(* ================================================================== *)
(** * Exceptions and the state-and-exception monad                     *)
(* ================================================================== *)

(** [restinio::http_status_line_t] and the four status lines the program
    uses. *)
Record http_status_line_t := HttpStatusLine {
  status_code : Z;
  reason_phrase : string
}.

Definition status_ok := HttpStatusLine 200 "OK".
Definition status_bad_request := HttpStatusLine 400 "Bad Request".
Definition status_not_found := HttpStatusLine 404 "Not Found".
Definition status_internal_server_error :=
  HttpStatusLine 500 "Internal Server Error".

(** [struct failure_description_t] (request_processor.cpp). *)
Record failure_description_t := FailureDescription {
  m_error_code : Z;
  m_description : string
}.

(** The exception classes the program distinguishes in its [catch]
    clauses.  [std_exception] stands for every other class
    ([std::bad_alloc], [std::system_error], ...), caught only by
    [catch(...)]. *)
Inductive exception :=
  | json_dto_ex_t (what : string)
  | SQLite_Exception (error_code ext_error_code : Z) (error_str : string)
  | request_processing_failure_t
      (m_response_status : http_status_line_t)
      (m_failure_description : failure_description_t)
  | std_exception (what : string).

(** A computation over a state [St] that returns an [A] or throws. *)
Definition Exn (St A : Type) : Type := St → (exception + A) * St.

Global Instance Exn_ret St : MRet (Exn St) := λ A a s, (inr a, s).

Global Instance Exn_bind St : MBind (Exn St) := λ A B k m s,
  match m s with
  | (inr a, s') => k a s'
  | (inl e, s') => (inl e, s')
  end.

Definition throw {St A} (e : exception) : Exn St A := λ s, (inl e, s).

(** [try { body } catch(...) { ... }]: [handler e = None] when no clause
    matches [e], which then keeps propagating. *)
Definition try_catch {St A} (body : Exn St A)
    (handler : exception → option (Exn St A)) : Exn St A := λ s,
  match body s with
  | (inr a, s') => (inr a, s')
  | (inl e, s') =>
      match handler e with
      | Some h => h s'
      | None => (inl e, s')
      end
  end.

Definition get_state {St} : Exn St St := λ s, (inr s, s).
Definition put_state {St} (s : St) : Exn St unit := λ _, (inr tt, s).

(** Run a computation on a component [get] of a larger state. *)
Definition zoom {St Sub A} (get : St → Sub) (set : Sub → St → St)
    (m : Exn Sub A) : Exn St A := λ s,
  let '(r, sub') := m (get s) in (r, set sub' s).

(* ================================================================== *)
(** * multithreading.hpp: the message queue                            *)
(* ================================================================== *)

Module Multithreading.

Inductive pop_result_t :=
  | extracted
  | queue_closed.

(** What a member function did to the condition variable [m_not_empty]. *)
Inductive cv_signal :=
  | notify_one
  | notify_all.

Section MessageQueue.
Context {T : Type}.

(** [std::queue<T> m_queue] with the front at the head of the list, and
    [bool m_closed{false}].  [m_lock] is the atomicity of each transition
    below. *)
Record message_queue_t := MessageQueue {
  m_queue : list T;
  m_closed : bool
}.

Definition empty_queue : message_queue_t :=
  {| m_queue := []; m_closed := false |}.

Definition queue_empty (l : list T) : bool :=
  match l with [] => true | _ => false end.

(** [void push(T what)].  The function has no result and no failure
    outcome: the transition returns the new state and the notifications
    it issued. *)
Definition push (what : T) (q : message_queue_t)
  : message_queue_t * list cv_signal :=
  if negb (m_closed q) then
    let was_empty := queue_empty (m_queue q) in
    ({| m_queue := m_queue q ++ [what]; m_closed := m_closed q |},
     if was_empty then [notify_one] else [])
  else (q, []).

(** [pop_result_t pop(T & receiver)].  [receiver] is threaded through as
    the out-parameter it is.  The body is

      for(;;) { if(m_closed) break;
                if(!m_queue.empty()) { ...; return extracted; }
                m_not_empty.wait(lock, m_closed || !m_queue.empty()); }
      return queue_closed;

    [wait] only returns once its predicate holds, and this thread does
    not change the state while it waits: on an open, empty queue the
    caller is parked ([None]) until another thread pushes or closes. *)
Definition pop (receiver : T) (q : message_queue_t)
  : option (pop_result_t * T * message_queue_t) :=
  if m_closed q then Some (queue_closed, receiver, q)
  else match m_queue q with
       | front :: rest =>
           Some (extracted, front,
                 {| m_queue := rest; m_closed := m_closed q |})
       | [] => None
       end.

(** [void close() noexcept]. *)
Definition close (q : message_queue_t) : message_queue_t * list cv_signal :=
  if negb (m_closed q) then
    ({| m_queue := m_queue q; m_closed := true |}, [notify_all])
  else (q, []).

(** ** Sequential client traces

    A trace of calls made one after the other on one queue, and what each
    [pop] reported.  A [pop] that would stay parked for ever ends the
    trace with [None]. *)
Inductive queue_call :=
  | call_push (what : T)
  | call_pop
  | call_close.

Inductive pop_report :=
  | got (what : T)
  | got_closed.

Fixpoint run_calls (calls : list queue_call) (receiver : T)
    (q : message_queue_t)
  : option (list pop_report * T * message_queue_t) :=
  match calls with
  | [] => Some ([], receiver, q)
  | call_push what :: calls' => run_calls calls' receiver (push what q).1
  | call_close :: calls' => run_calls calls' receiver (close q).1
  | call_pop :: calls' =>
      match pop receiver q with
      | None => None
      | Some (r, receiver', q') =>
          let report :=
            match r with
            | extracted => got receiver'
            | queue_closed => got_closed
            end in
          match run_calls calls' receiver' q' with
          | None => None
          | Some (reports, receiver'', q'') =>
              Some (report :: reports, receiver'', q'')
          end
      end
  end.

Definition pushes (ps : list T) : list queue_call := call_push <$> ps.
Definition pops (n : nat) : list queue_call := replicate n call_pop.

(** What the calls reported, without the final state. *)
Definition reports_of (calls : list queue_call) (receiver : T)
    (q : message_queue_t) : option (list pop_report) :=
  (λ res, res.1.1) <$> run_calls calls receiver q.

Definition state_after (calls : list queue_call) (receiver : T)
    (q : message_queue_t) : option message_queue_t :=
  (λ res, res.2) <$> run_calls calls receiver q.

End MessageQueue.

Arguments message_queue_t : clear implicits.
Arguments queue_call : clear implicits.
Arguments pop_report : clear implicits.

(** ** [thread_pool_t<Shutdowner>] *)

(** A [std::thread] object as the pool sees it: the identity of the thread
    it stands for and whether [joinable()] holds. *)
Record std_thread := StdThread {
  thread_id : nat;
  joinable : bool
}.

Section ThreadPool.
Context {World : Type}.

(** [Shutdowner::operator()()]. *)
Variable shutdowner : World → World.
(** [std::thread{std::forward<Thread_Args>(args)...}]: the new thread
    object, or the exception of a start that failed. *)
Variable start_thread : Exn World std_thread.
(** [t.join()]: the world once thread [t] has returned, [None] when it
    never returns. *)
Variable join : std_thread → World → option World.

Record thread_pool_t := ThreadPool {
  m_threads : list std_thread
}.

(** [for(auto & t : m_threads) if(t.joinable()) t.join();] *)
Fixpoint join_each (ts : list std_thread) (w : World) : option World :=
  match ts with
  | [] => Some w
  | t :: ts' =>
      if joinable t then
        match join t w with
        | Some w' => join_each ts' w'
        | None => None
        end
      else join_each ts' w
  end.

(** [void shutdown_then_join() noexcept]. *)
Definition shutdown_then_join (pool : thread_pool_t) (w : World)
  : option (thread_pool_t * World) :=
  match m_threads pool with
  | [] => Some (pool, w)
  | _ :: _ =>
      match join_each (m_threads pool) (shutdowner w) with
      | Some w' => Some ({| m_threads := [] |}, w')
      | None => None
      end
  end.

(** The loop of the constructor,
    [for(i = 0u; i != thread_count; ++i) m_threads.emplace_back(args...)],
    on the pool under construction. *)
Fixpoint emplace_threads (thread_count : nat)
  : Exn (thread_pool_t * World) unit :=
  match thread_count with
  | O => mret tt
  | S remaining => λ '(pool, w),
      match start_thread w with
      | (inl e, w') => (inl e, (pool, w'))
      | (inr t, w') =>
          emplace_threads remaining
            ({| m_threads := m_threads pool ++ [t] |}, w')
      end
  end.

(** [thread_pool_t(thread_count, shutdowner, args...)]:

      try { m_threads.reserve(thread_count); for ... }
      catch(...) { shutdown_then_join(); throw; }

    The result is the constructed pool, or the rethrown exception; [None]
    when a [join] of the clean-up never returns.  ([reserve] only
    allocates; a failed allocation there is not modelled.) *)
Definition thread_pool_ctor (thread_count : nat) (w : World)
  : option ((exception + thread_pool_t) * World) :=
  match emplace_threads thread_count ({| m_threads := [] |}, w) with
  | (inr _, (pool, w')) => Some (inr pool, w')
  | (inl e, (pool, w')) =>
      match shutdown_then_join pool w' with
      | Some (_, w'') => Some (inl e, w'')
      | None => None
      end
  end.

(** [void stop() noexcept] and [~thread_pool_t() noexcept]. *)
Definition stop := shutdown_then_join.
Definition thread_pool_dtor := shutdown_then_join.

End ThreadPool.

End Multithreading.

(* ================================================================== *)
(** * pet_data_types.hpp                                                *)
(* ================================================================== *)

Definition int32_min : Z := - 2 ^ 31.
Definition int32_max : Z := 2 ^ 31 - 1.
Definition int64_max : Z := 2 ^ 63 - 1.

(** Conversion of a 64-bit integer to [std::int32_t]: the low 32 bits, read
    as two's complement. *)
Definition to_int32 (z : Z) : Z := (z + 2 ^ 31) `mod` 2 ^ 32 - 2 ^ 31.

Definition in_int32 (z : Z) : Prop := int32_min ≤ z ≤ int32_max.

(** [using pet_id_t = std::int32_t]: values of this type are integers in
    the [in_int32] range. *)
Definition pet_id_t := Z.

(** A minimal JSON document, the target of the [json_io] members. *)
Unset Elimination Schemes.
Inductive json :=
  | JInt (z : Z)
  | JStr (s : string)
  | JArr (items : list json)
  | JObj (fields : list (string * json)).
Set Elimination Schemes.

(** [json_dto::to_json] for a type with a [json_io] member (or a
    primitive).  Serialising is taken to succeed. *)
Class JsonIo (A : Type) := to_json : A → json.
Global Hint Mode JsonIo ! : typeclass_instances.

Global Instance int_json : JsonIo Z := JInt.
Global Instance string_json : JsonIo string := JStr.
Global Instance vector_json `{JsonIo A} : JsonIo (list A) :=
  λ l, JArr (to_json <$> l).

Definition json_fields (j : json) : list (string * json) :=
  match j with JObj fields => fields | _ => [] end.

Global Instance failure_description_json : JsonIo failure_description_t :=
  λ x, JObj [("code", to_json (m_error_code x));
             ("description", to_json (m_description x))].

Module model.

Record pet_data_t := PetData {
  m_name : string;
  m_type : string;
  m_owner : string;
  m_picture : string
}.

Global Instance pet_data_json : JsonIo pet_data_t :=
  λ x, JObj [("name", to_json (m_name x));
             ("type", to_json (m_type x));
             ("owner", to_json (m_owner x));
             ("picture", to_json (m_picture x))].

(** [struct pet_without_id_t { pet_data_t m_data; }]: its one member is
    [wo_data] here, [m_data] being taken by [pet_with_id_t]. *)
Record pet_without_id_t := PetWithoutId {
  wo_data : pet_data_t
}.

Global Instance pet_without_id_json : JsonIo pet_without_id_t :=
  λ x, to_json (wo_data x).

Record pet_with_id_t := PetWithId {
  m_id : pet_id_t;
  m_data : pet_data_t
}.

Global Instance pet_with_id_json : JsonIo pet_with_id_t :=
  λ x, JObj (("id", to_json (m_id x)) :: json_fields (to_json (m_data x))).

(** [struct pet_identity_t { pet_id_t m_id; }]: its member is
    [identity_id] here. *)
Record pet_identity_t := PetIdentity {
  identity_id : pet_id_t
}.

Global Instance pet_identity_json : JsonIo pet_identity_t :=
  λ x, JObj [("id", to_json (identity_id x))].

(** [struct all_pets_t { std::vector<pet_with_id_t> m_pets; }]: its
    member is [all_pets] here, [m_pets] being taken by
    [bunch_of_pets_without_id_t]. *)
Record all_pets_t := AllPets {
  all_pets : list pet_with_id_t
}.

Global Instance all_pets_json : JsonIo all_pets_t :=
  λ x, JObj [("pets", to_json (all_pets x))].

(** [struct bunch_of_pets_without_id_t], member [m_pets]. *)
Record bunch_of_pets_without_id_t := BunchOfPets {
  m_pets : list pet_without_id_t
}.

Global Instance bunch_of_pets_json : JsonIo bunch_of_pets_without_id_t :=
  λ x, JObj [("pets", to_json (m_pets x))].

Record bunch_of_pet_ids_t := BunchOfPetIds {
  m_ids : list pet_id_t
}.

Global Instance bunch_of_pet_ids_json : JsonIo bunch_of_pet_ids_t :=
  λ x, JObj [("ids", to_json (m_ids x))].

End model.

(* ================================================================== *)
(** * db_layer.cpp: the storage gateway                                 *)
(* ================================================================== *)

Module DbLayer.
Import model.

Module update_result_t.
Inductive t := updated | not_found.
End update_result_t.

Module delete_result_t.
Inductive t := deleted | not_found.
End delete_result_t.

(** What an SQLite call reports when it fails; [SQLite::Exception] carries
    exactly these three values. *)
Record sqlite_fault := SqliteFault {
  fault_code : Z;
  fault_ext_code : Z;
  fault_str : string
}.

Definition raise_sqlite {St A} (f : sqlite_fault) : Exn St A :=
  throw (SQLite_Exception (fault_code f) (fault_ext_code f) (fault_str f)).

Definition SQLITE_FULL : sqlite_fault :=
  SqliteFault 13 13 "database or disk is full".

(** The state behind one [db_layer_t]: the database file and connection
    opened by [db_with_tables_t], with the table

      create table if not exists pets(
        id integer primary key autoincrement,
        name text, type text, owner text, picture text);

    - [tbl_pets]: the rows, keyed by the 64-bit [id] (the rowid);
    - [seq_pets]: the [sqlite_sequence] entry kept for [autoincrement], the
      largest rowid the table has ever held;
    - [last_insert_rowid]: the connection's value of that name;
    - [pending_faults]: the environment.  Every engine call made below
      consumes one entry: [Some f] makes that call fail with [f] (I/O error,
      busy or corrupt database, ...), [None] or an exhausted list lets it
      run.

    [m_lock] is held for the whole of each member function, so each is one
    transition of this state. *)
Record db_layer_t := DbLayerState {
  tbl_pets : gmap Z pet_data_t;
  seq_pets : Z;
  last_insert_rowid : Z;
  pending_faults : list (option sqlite_fault)
}.

Definition with_faults (fs : list (option sqlite_fault)) (db : db_layer_t)
  : db_layer_t :=
  {| tbl_pets := tbl_pets db; seq_pets := seq_pets db;
     last_insert_rowid := last_insert_rowid db; pending_faults := fs |}.

(** One call into the engine: a prepared statement's
    [reset(); clearBindings(); bind...(); exec()/executeStep()] group, or a
    [BEGIN] / [COMMIT].  Binding and resetting change nothing in the
    database, so a failure anywhere in the group is a failure of the call
    before it took effect. *)
Definition engine_call : Exn db_layer_t unit := λ db,
  match pending_faults db with
  | Some f :: rest => raise_sqlite f (with_faults rest db)
  | None :: rest => (inr tt, with_faults rest db)
  | [] => (inr tt, db)
  end.

(** The largest rowid present in the table (0 for an empty table). *)
Definition max_rowid (tbl : gmap Z pet_data_t) : Z :=
  map_fold (λ id _ acc, Z.max id acc) 0 tbl.

(** [m_create_new_stmt]:
    [insert into pets(name, type, owner, picture) values(...)].
    With [autoincrement] the new rowid is one more than the largest rowid
    the table ever held; when that was the largest 64-bit value the insert
    fails with [SQLITE_FULL]. *)
Definition exec_create_new_stmt (data : pet_data_t) : Exn db_layer_t unit :=
  _ ← engine_call;
  db ← get_state;
  let largest := Z.max (seq_pets db) (max_rowid (tbl_pets db)) in
  if bool_decide (int64_max ≤ largest) then raise_sqlite SQLITE_FULL
  else
    put_state {| tbl_pets := <[largest + 1 := data]> (tbl_pets db);
                 seq_pets := largest + 1;
                 last_insert_rowid := largest + 1;
                 pending_faults := pending_faults db |}.

(** [m_last_insert_rowid_stmt]: [select last_insert_rowid();], the 64-bit
    value of column 0. *)
Definition exec_last_insert_rowid_stmt : Exn db_layer_t Z :=
  _ ← engine_call;
  db ← get_state;
  mret (last_insert_rowid db).

(** [pet_id_t db_layer_t::create_new_pet(const pet_without_id_t & pet)].
    [return m_last_insert_rowid_stmt.getColumn(0);] converts the column to
    the return type [pet_id_t]. *)
Definition create_new_pet (pet : pet_without_id_t) : Exn db_layer_t pet_id_t :=
  _ ← exec_create_new_stmt (wo_data pet);
  rowid ← exec_last_insert_rowid_stmt;
  mret (to_int32 rowid).

(** [SQLite::Transaction]'s destructor when [commit()] was not reached:
    [ROLLBACK] puts the database content back to what it was at [BEGIN];
    connection state and the environment are not part of the database. *)
Definition rollback (at_begin : db_layer_t) (db : db_layer_t) : db_layer_t :=
  {| tbl_pets := tbl_pets at_begin;
     seq_pets := seq_pets at_begin;
     last_insert_rowid := last_insert_rowid db;
     pending_faults := pending_faults db |}.

(** The body of [for(const auto & current : pets.m_pets)] with
    [result.m_ids] as accumulator. *)
Fixpoint create_bunch_loop (pets : list pet_without_id_t)
    (result : list pet_id_t) : Exn db_layer_t (list pet_id_t) :=
  match pets with
  | [] => mret result
  | current :: pets' =>
      _ ← exec_create_new_stmt (wo_data current);
      rowid ← exec_last_insert_rowid_stmt;
      create_bunch_loop pets' (result ++ [to_int32 rowid])
  end.

(** [bunch_of_pet_ids_t db_layer_t::create_bunch_of_pets(pets)]:
    [SQLite::Transaction trx{m_db};] ([BEGIN]), the loop, [trx.commit();].
    An exception leaving the scope of [trx] runs its destructor. *)
Definition create_bunch_of_pets (pets : bunch_of_pets_without_id_t)
  : Exn db_layer_t bunch_of_pet_ids_t :=
  _ ← engine_call;
  at_begin ← get_state;
  try_catch
    (ids ← create_bunch_loop (m_pets pets) [];
     _ ← engine_call;
     mret (BunchOfPetIds ids))
    (λ e, Some (db ← get_state;
                _ ← put_state (rollback at_begin db);
                throw e)).

(** The rows in the order the engine's scan of the table delivers them. *)
Definition scan_pets (db : db_layer_t) : list (Z * pet_data_t) :=
  map_to_list (tbl_pets db).

(** [while(m_get_all_pets_stmt.executeStep()) { ... push_back ... }]:
    one engine call per row and one more that reports the end. *)
Fixpoint get_all_loop (rows : list (Z * pet_data_t))
    (result : list pet_with_id_t) : Exn db_layer_t (list pet_with_id_t) :=
  _ ← engine_call;
  match rows with
  | [] => mret result
  | (id, data) :: rows' =>
      get_all_loop rows' (result ++ [PetWithId (to_int32 id) data])
  end.

(** [all_pets_t db_layer_t::get_all_pets()]. *)
Definition get_all_pets : Exn db_layer_t all_pets_t :=
  db ← get_state;
  pets ← get_all_loop (scan_pets db) [];
  mret (AllPets pets).

(** [nonstd::optional<pet_with_id_t> db_layer_t::get_pet(pet_id_t id)]:
    [select ... from pets where id = :id]. *)
Definition get_pet (id : pet_id_t) : Exn db_layer_t (option pet_with_id_t) :=
  _ ← engine_call;
  db ← get_state;
  match tbl_pets db !! id with
  | Some data => mret (Some (PetWithId (to_int32 id) data))
  | None => mret None
  end.

(** [update_result_t db_layer_t::update_pet(id, pet)]:
    [update pets set ... where id = :id]; [exec()] returns the number of
    rows changed. *)
Definition exec_update_pet_stmt (id : pet_id_t) (data : pet_data_t)
  : Exn db_layer_t Z :=
  _ ← engine_call;
  db ← get_state;
  match tbl_pets db !! id with
  | Some _ =>
      _ ← put_state {| tbl_pets := <[id := data]> (tbl_pets db);
                       seq_pets := seq_pets db;
                       last_insert_rowid := last_insert_rowid db;
                       pending_faults := pending_faults db |};
      mret 1
  | None => mret 0
  end.

Definition update_pet (id : pet_id_t) (pet : pet_without_id_t)
  : Exn db_layer_t update_result_t.t :=
  changed ← exec_update_pet_stmt id (wo_data pet);
  mret (if bool_decide (1 = changed) then update_result_t.updated
        else update_result_t.not_found).

(** [delete_result_t db_layer_t::delete_pet(id)]:
    [delete from pets where id = :id]. *)
Definition exec_delete_pet_stmt (id : pet_id_t) : Exn db_layer_t Z :=
  _ ← engine_call;
  db ← get_state;
  match tbl_pets db !! id with
  | Some _ =>
      _ ← put_state {| tbl_pets := delete id (tbl_pets db);
                       seq_pets := seq_pets db;
                       last_insert_rowid := last_insert_rowid db;
                       pending_faults := pending_faults db |};
      mret 1
  | None => mret 0
  end.

Definition delete_pet (id : pet_id_t) : Exn db_layer_t delete_result_t.t :=
  changed ← exec_delete_pet_stmt id;
  mret (if bool_decide (1 = changed) then delete_result_t.deleted
        else delete_result_t.not_found).

End DbLayer.

(* ================================================================== *)
(** * request_processor.cpp                                             *)
(* ================================================================== *)

Module RequestProcessor.
Import model DbLayer.

Module errors.
Definition unknow_error : Z := -1.
Definition json_dto_error : Z := 1.
Definition sqlite_error : Z := 2.
Definition invalid_pet_id : Z := 3.
Definition invalid_request : Z := 4.
End errors.

(** ** The transport and decoding collaborators (RESTinio, json_dto)

    These libraries are not part of the repository.  What the processor
    reads from a request is kept in [request_t]; what the libraries compute
    from it is a parameter of the development, the class [Collaborators]. *)

(** [restinio::request_t] as the processor uses it. *)
Record request_t := Request {
  request_id : nat;
  (** [header().opt_value_of(http_field::content_type)] *)
  content_type_field : option string;
  (** [body()] *)
  body : string
}.

(** [content_type_value_t::media_type]. *)
Record media_type_t := MediaType {
  type : string;
  subtype : string
}.

(** [restinio::file_upload::part_description_t], the members read here. *)
Record part_description_t := PartDescription {
  part_name : string;
  part_body : string
}.

Inductive handling_result_t :=
  | continue_enumeration
  | stop_enumeration
  | terminate_enumeration.

Inductive enumeration_error_t :=
  | content_type_field_not_found
  | content_type_field_parse_error
  | content_type_field_inappropriate_value
  | illegal_boundary_value
  | content_disposition_field_not_found
  | content_disposition_field_parse_error
  | content_disposition_field_inappropriate_value
  | no_parts_found
  | no_files_found
  | terminated_by_handler
  | unexpected_error.

(** What a call of [json_dto::from_json] can throw: [json_dto::ex_t] for a
    document it rejects, or an exception of a class unrelated to the
    program's own (such as [std::bad_alloc]). *)
Inductive decoding_throw :=
  | throws_ex_t (what : string)
  | throws_other (what : string).

Class Collaborators := {
  (** [json_dto::from_json<pet_without_id_t>] *)
  from_json_pet : string → decoding_throw + pet_without_id_t;
  (** [json_dto::from_json<bunch_of_pets_without_id_t>] *)
  from_json_bunch : string → decoding_throw + bunch_of_pets_without_id_t;
  (** [content_type_value_t::try_parse] *)
  try_parse_content_type : string → option media_type_t;
  (** The multipart body cut into parts, or why it cannot be; each part
      analysed as an uploaded file, or why it is not one
      ([no_files_found] for a part that carries no file). *)
  multipart_parts :
    request_t → enumeration_error_t + list (enumeration_error_t + part_description_t)
}.

(** [restinio::file_upload::enumerate_parts_with_files(req, handler)]:
    the handler is called on the file parts in order until it stops the
    enumeration; the result is the number of files seen or an error.  [H] is
    the state captured by reference in the handler. *)
Fixpoint enumerate_loop {H : Type}
    (handler : part_description_t → H → handling_result_t * H)
    (parts : list (enumeration_error_t + part_description_t))
    (files_found : nat) (h : H) : (enumeration_error_t + nat) * H :=
  match parts with
  | [] =>
      (match files_found with
       | O => inl no_files_found
       | S _ => inr files_found
       end, h)
  | inl no_files_found :: parts' =>
      enumerate_loop handler parts' files_found h
  | inl error :: _ => (inl error, h)
  | inr part :: parts' =>
      match handler part h with
      | (continue_enumeration, h') =>
          enumerate_loop handler parts' (S files_found) h'
      | (stop_enumeration, h') => (inr (S files_found), h')
      | (terminate_enumeration, h') => (inl terminated_by_handler, h')
      end
  end.

Definition enumerate_parts_with_files `{Collaborators} {H : Type}
    (req : request_t)
    (handler : part_description_t → H → handling_result_t * H) (h : H)
  : (enumeration_error_t + nat) * H :=
  match multipart_parts req with
  | inl error => (inl error, h)
  | inr parts => enumerate_loop handler parts 0 h
  end.

(** ** Responses *)

(** What [req->create_response(status)....set_body(body).done()] hands to
    the connection.  The Date header is left out. *)
Record response_t := Response {
  rsp_request : request_t;
  rsp_status : http_status_line_t;
  rsp_content_type : string;
  rsp_body : json
}.

(** The state a request handler runs in: the storage gateway it holds by
    reference ([m_db]) and the responses handed to the transport so far. *)
Record world := World {
  w_db : db_layer_t;
  w_sent : list response_t
}.

Definition set_db (db : db_layer_t) (w : world) : world :=
  {| w_db := db; w_sent := w_sent w |}.

(** A call through [m_db]. *)
Definition m_db {A} (call : Exn db_layer_t A) : Exn world A :=
  zoom w_db set_db call.

Definition send_json_response (req : request_t)
    (status : http_status_line_t) (body : json) : Exn world unit := λ w,
  (inr tt,
   {| w_db := w_db w;
      w_sent := w_sent w ++ [Response req status "application/json" body] |}).

(** [expected_t::operator bool]. *)
Definition has_value {E A} (r : E + A) : bool :=
  match r with inr _ => true | inl _ => false end.

(** A decoder's outcome as a computation. *)
Definition decoded {St A} (r : decoding_throw + A) : Exn St A :=
  match r with
  | inl (throws_ex_t what) => throw (json_dto_ex_t what)
  | inl (throws_other what) => throw (std_exception what)
  | inr a => mret a
  end.

(** ** The two wrappers *)

(** [template<typename F> void wrap_request_processing(req, functor)]. *)
Definition wrap_request_processing `{JsonIo A} (req : request_t)
    (functor : Exn world A) : Exn world unit :=
  '(response_status, response_body) ←
    try_catch
      (result ← functor;
       mret (status_ok, to_json result))
      (λ x, match x with
            | request_processing_failure_t status description =>
                Some (mret (status, to_json description))
            | _ =>
                Some (mret (status_internal_server_error,
                            to_json (FailureDescription errors.unknow_error
                                       "unexpected application failure")))
            end);
  send_json_response req response_status response_body.

(** [template<typename F> auto wrap_business_logic_action(functor)]. *)
Definition wrap_business_logic_action {A} (functor : Exn world A)
  : Exn world A :=
  try_catch functor
    (λ x, match x with
          | json_dto_ex_t what =>
              Some (throw (request_processing_failure_t
                             status_bad_request
                             (FailureDescription errors.json_dto_error
                                ("json-related-error: " +:+ what))))
          | SQLite_Exception error_code ext_error_code error_str =>
              Some (throw (request_processing_failure_t
                             status_internal_server_error
                             (FailureDescription errors.sqlite_error
                                ("sqlite-related-error: error_code=" +:+
                                 pretty error_code +:+
                                 ", ext_error_code=" +:+
                                 pretty ext_error_code +:+
                                 ", desc='" +:+ error_str +:+ "'"))))
          | _ => None
          end).

Inductive create_new_mode_t :=
  | single
  | batch.

(** [expected_t<create_new_mode_t, request_processing_failure_t>
     detect_create_new_mode(req)]: the error alternative is the pair of
    members of the [request_processing_failure_t] object. *)
Definition detect_create_new_mode `{Collaborators} (req : request_t)
  : (http_status_line_t * failure_description_t) + create_new_mode_t :=
  let unexpected (msg : string) :=
    inl (status_bad_request,
         FailureDescription errors.invalid_request msg) in
  match content_type_field req with
  | None => unexpected "Content-Type HTTP-field is absent"
  | Some content_type_raw =>
      match try_parse_content_type content_type_raw with
      | None => unexpected "unable to parse Content-Type HTTP-field"
      | Some content_type =>
          if bool_decide ("application" = type content_type) &&
             bool_decide ("json" = subtype content_type)
          then inr single
          else if bool_decide ("multipart" = type content_type) &&
                  bool_decide ("form-data" = subtype content_type)
          then inr batch
          else unexpected "unsupported value of Content-Type"
      end
  end.

(** ** The private member functions of [request_processor_t] *)

Section Processor.
Context `{Collaborators}.

Definition pet_not_found {A} (pet_id : pet_id_t) : Exn world A :=
  throw (request_processing_failure_t
           status_not_found
           (FailureDescription errors.invalid_pet_id
              ("pet with this ID not found, ID=" +:+ pretty pet_id))).

(** Each private member function is [wrap_business_logic_action] applied
    to a lambda; the lambda is the definition named [..._action]. *)
Definition create_new_pet_action (req : request_t)
  : Exn world pet_identity_t :=
  pet ← decoded (from_json_pet (body req));
  id ← m_db (DbLayer.create_new_pet pet);
  mret (PetIdentity id).

Definition create_new_pet (req : request_t) : Exn world pet_identity_t :=
  wrap_business_logic_action (create_new_pet_action req).

(** The handler passed to [enumerate_parts_with_files]; its state is the
    captured [uploaded_content]. *)
Definition take_file_part (part : part_description_t)
    (uploaded_content : string) : handling_result_t * string :=
  if bool_decide ("file" = part_name part)
  then (stop_enumeration, part_body part)
  else (continue_enumeration, uploaded_content).

Definition string_empty (s : string) : bool :=
  match s with EmptyString => true | _ => false end.

Definition batch_create_new_pets_action (req : request_t)
  : Exn world bunch_of_pet_ids_t :=
  let '(result, uploaded_content) :=
    enumerate_parts_with_files req take_file_part "" in
  if negb (has_value result) || string_empty uploaded_content
  then
    throw (request_processing_failure_t
             status_bad_request
             (FailureDescription errors.invalid_request
                "no file with new pets found"))
  else
    pets ← decoded (from_json_bunch uploaded_content);
    m_db (DbLayer.create_bunch_of_pets pets).

Definition batch_create_new_pets (req : request_t)
  : Exn world bunch_of_pet_ids_t :=
  wrap_business_logic_action (batch_create_new_pets_action req).

Definition get_all_pets_action : Exn world all_pets_t :=
  m_db DbLayer.get_all_pets.

Definition get_all_pets : Exn world all_pets_t :=
  wrap_business_logic_action get_all_pets_action.

Definition get_specific_pet_action (pet_id : pet_id_t)
  : Exn world pet_with_id_t :=
  pet ← m_db (DbLayer.get_pet pet_id);
  match pet with
  | None => pet_not_found pet_id
  | Some found => mret found
  end.

Definition get_specific_pet (pet_id : pet_id_t) : Exn world pet_with_id_t :=
  wrap_business_logic_action (get_specific_pet_action pet_id).

(** The argument of [update_pet] is decoded before the call. *)
Definition patch_specific_pet_action (req : request_t) (pet_id : pet_id_t)
  : Exn world pet_identity_t :=
  pet ← decoded (from_json_pet (body req));
  update_result ← m_db (DbLayer.update_pet pet_id pet);
  match update_result with
  | update_result_t.updated => mret (PetIdentity pet_id)
  | update_result_t.not_found => pet_not_found pet_id
  end.

Definition patch_specific_pet (req : request_t) (pet_id : pet_id_t)
  : Exn world pet_identity_t :=
  wrap_business_logic_action (patch_specific_pet_action req pet_id).

Definition delete_specific_pet_action (pet_id : pet_id_t)
  : Exn world pet_identity_t :=
  delete_result ← m_db (DbLayer.delete_pet pet_id);
  match delete_result with
  | delete_result_t.deleted => mret (PetIdentity pet_id)
  | delete_result_t.not_found => pet_not_found pet_id
  end.

Definition delete_specific_pet (pet_id : pet_id_t)
  : Exn world pet_identity_t :=
  wrap_business_logic_action (delete_specific_pet_action pet_id).

(** ** The entry points *)

Definition on_create_new_pet (req : request_t) : Exn world unit :=
  match detect_create_new_mode req with
  | inr single => wrap_request_processing req (create_new_pet req)
  | inr batch => wrap_request_processing req (batch_create_new_pets req)
  | inl (response_status, failure_description) =>
      send_json_response req response_status (to_json failure_description)
  end.

Definition on_get_all_pets (req : request_t) : Exn world unit :=
  wrap_request_processing req get_all_pets.

Definition on_get_specific_pet (req : request_t) (pet_id : pet_id_t)
  : Exn world unit :=
  wrap_request_processing req (get_specific_pet pet_id).

Definition on_patch_specific_pet (req : request_t) (pet_id : pet_id_t)
  : Exn world unit :=
  wrap_request_processing req (patch_specific_pet req pet_id).

Definition on_delete_specific_pet (req : request_t) (pet_id : pet_id_t)
  : Exn world unit :=
  wrap_request_processing req (delete_specific_pet pet_id).

End Processor.

End RequestProcessor.

(* ================================================================== *)
(** * main.cpp: tasks, the worker loop and the pool of the application  *)
(* ================================================================== *)

Module Main.
Import Multithreading model RequestProcessor.

(** The closures [make_router] wraps into tasks, one per route. *)
Inductive closure :=
  | do_get_all_pets (req : request_t)
  | do_create_new_pet (req : request_t)
  | do_get_specific_pet (req : request_t) (id : pet_id_t)
  | do_patch_specific_pet (req : request_t) (id : pet_id_t)
  | do_delete_specific_pet (req : request_t) (id : pet_id_t).

(** [struct task_t { std::function<void()> m_task; }]; [task_t()] holds
    no target. *)
Record task_t := Task {
  m_task : option closure
}.

Definition default_task : task_t := {| m_task := None |}.

Definition task_queue_t := message_queue_t task_t.

(** What every route handler of [make_router] does with the closure it
    built: [queue.push(task_t{...}); return request_accepted();]. *)
Definition enqueue (c : closure) (queue : task_queue_t) : task_queue_t :=
  (push (Task (Some c)) queue).1.

Section Application.
Context `{Collaborators}.

Definition call_closure (c : closure) : Exn world unit :=
  match c with
  | do_get_all_pets req => on_get_all_pets req
  | do_create_new_pet req => on_create_new_pet req
  | do_get_specific_pet req id => on_get_specific_pet req id
  | do_patch_specific_pet req id => on_patch_specific_pet req id
  | do_delete_specific_pet req id => on_delete_specific_pet req id
  end.

(** [msg.m_task()]. *)
Definition invoke (msg : task_t) : Exn world unit :=
  match m_task msg with
  | Some c => call_closure c
  | None => throw (std_exception "bad_function_call")
  end.

(** How a run of [worker_thread_func] ends: it returns, it stays parked
    in [pop], or an exception leaves the thread function (which ends the
    process).  [worker_unfinished] is the model running out of [fuel]. *)
Inductive worker_exit :=
  | worker_returned
  | worker_parked
  | worker_terminated (e : exception)
  | worker_unfinished.

(** [void worker_thread_func(task_queue_t & queue)], run without being
    interleaved with other threads. *)
Fixpoint worker_thread_func (fuel : nat) (queue : task_queue_t)
    (w : world) : worker_exit * task_queue_t * world :=
  match fuel with
  | O => (worker_unfinished, queue, w)
  | S fuel' =>
      match pop default_task queue with
      | None => (worker_parked, queue, w)
      | Some (queue_closed, _, queue') => (worker_returned, queue', w)
      | Some (extracted, msg, queue') =>
          match invoke msg w with
          | (inl e, w') => (worker_terminated e, queue', w')
          | (inr _, w') => worker_thread_func fuel' queue' w'
          end
      end
  end.

(** ** The threads of the process *)

Inductive thread_event :=
  | thread_started (id : nat)
  | shutdown_signalled
  | thread_joined (id : nat).

(** - [sys_queue], [sys_world]: what the workers share;
    - [sys_running]: the started threads that have not returned;
    - [sys_started]: how many threads were started so far (the next id);
    - [sys_thread_budget]: how many more threads the system lets this
      process start; the construction of a [std::thread] throws
      [std::system_error] once it is used up;
    - [sys_log]: the pool's actions, in order. *)
Record system := System {
  sys_queue : task_queue_t;
  sys_world : world;
  sys_running : gset nat;
  sys_started : nat;
  sys_thread_budget : nat;
  sys_log : list thread_event
}.

(** [my_shutdowner_t::operator()() noexcept { m_queue.close(); }]. *)
Definition my_shutdowner_t (s : system) : system :=
  {| sys_queue := (close (sys_queue s)).1;
     sys_world := sys_world s;
     sys_running := sys_running s;
     sys_started := sys_started s;
     sys_thread_budget := sys_thread_budget s;
     sys_log := sys_log s ++ [shutdown_signalled] |}.

(** [std::thread{worker_thread_func, std::ref(queue)}]. *)
Definition start_worker : Exn system std_thread := λ s,
  match sys_thread_budget s with
  | O => (inl (std_exception "Resource temporarily unavailable"), s)
  | S budget =>
      (inr {| thread_id := sys_started s; joinable := true |},
       {| sys_queue := sys_queue s;
          sys_world := sys_world s;
          sys_running := {[sys_started s]} ∪ sys_running s;
          sys_started := S (sys_started s);
          sys_thread_budget := budget;
          sys_log := sys_log s ++ [thread_started (sys_started s)] |})
  end.

(** [t.join()] for a worker: the caller resumes once the worker has left
    [worker_thread_func].  The worker needs at most one iteration per
    queued task and one more to see the queue closed. *)
Definition join_worker (t : std_thread) (s : system) : option system :=
  match worker_thread_func (S (length (m_queue (sys_queue s))))
          (sys_queue s) (sys_world s) with
  | (worker_returned, queue', w') =>
      Some {| sys_queue := queue';
              sys_world := w';
              sys_running := sys_running s ∖ {[thread_id t]};
              sys_started := sys_started s;
              sys_thread_budget := sys_thread_budget s;
              sys_log := sys_log s ++ [thread_joined (thread_id t)] |}
  | _ => None
  end.

(** [my_thread_pool_t worker_threads_pool{n, my_shutdowner_t{queue},
     worker_thread_func, std::ref(queue)}]. *)
Definition my_thread_pool_ctor (thread_count : nat) (s : system)
  : option ((exception + thread_pool_t) * system) :=
  thread_pool_ctor my_shutdowner_t start_worker join_worker thread_count s.

End Application.

End Main.

(* ================================================================== *)
(** * Vocabulary of the statements                                      *)
(* ================================================================== *)

Module Vocabulary.
Import model DbLayer RequestProcessor Main.

(** The largest rowid the table has ever held, as the engine knows it. *)
Definition largest_rowid (db : db_layer_t) : Z :=
  Z.max (seq_pets db) (max_rowid (tbl_pets db)).

(** No failure is scheduled for the next [n] engine calls. *)
Definition fault_free (n : nat) (db : db_layer_t) : bool :=
  forallb (λ o, match o with None => true | Some _ => false end)
          (take n (pending_faults db)).

Definition is_sqlite_exception (e : exception) : Prop :=
  match e with SQLite_Exception _ _ _ => True | _ => False end.

(** The table after rows for [pets] were inserted at consecutive rowids
    starting with [first]. *)
Fixpoint insert_rows (first : Z) (pets : list pet_without_id_t)
    (tbl : gmap Z pet_data_t) : gmap Z pet_data_t :=
  match pets with
  | [] => tbl
  | p :: pets' => insert_rows (first + 1) pets' (<[first := wo_data p]> tbl)
  end.

(** ** Concrete data for the examples *)

Definition bunny : pet_without_id_t :=
  PetWithoutId (PetData "Bunny" "dog" "John Smith" "bunny.jpg").

Definition kitty : pet_without_id_t :=
  PetWithoutId (PetData "Kitty" "cat" "Jane Doe" "kitty.jpg").

(** A new database file, right after [db_with_tables_t] created the
    table. *)
Definition fresh_db : db_layer_t :=
  {| tbl_pets := ∅; seq_pets := 0; last_insert_rowid := 0;
     pending_faults := [] |}.

(** A database whose table is empty again after it held rowid
    [int32_max]. *)
Definition db_past_int32 : db_layer_t :=
  {| tbl_pets := ∅; seq_pets := int32_max; last_insert_rowid := int32_max;
     pending_faults := [] |}.

(** A database with two pets. *)
Definition two_pets_db : db_layer_t :=
  {| tbl_pets := <[1 := wo_data bunny]> (<[2 := wo_data kitty]> ∅);
     seq_pets := 2; last_insert_rowid := 2; pending_faults := [] |}.

(** Stand-ins for the decoding libraries, used where a statement is
    evaluated on concrete data: the empty document is rejected, the
    document [[]] is an envelope with no pets, any other document names one
    pet; a multipart body is a single part named [file]. *)
Definition demo_from_json_pet (doc : string)
  : decoding_throw + pet_without_id_t :=
  if string_empty doc then inl (throws_ex_t "the document is empty")
  else inr (PetWithoutId (PetData doc "dog" "John Smith" "bunny.jpg")).

Definition demo_from_json_bunch (doc : string)
  : decoding_throw + bunch_of_pets_without_id_t :=
  if string_empty doc then inl (throws_ex_t "the document is empty")
  else if bool_decide (doc = "[]") then inr (BunchOfPets [])
  else inr (BunchOfPets
              [PetWithoutId (PetData doc "dog" "John Smith" "bunny.jpg")]).

Definition demo_try_parse_content_type (raw : string) : option media_type_t :=
  if bool_decide (raw = "application/json")
  then Some (MediaType "application" "json")
  else if bool_decide (raw = "multipart/form-data")
  then Some (MediaType "multipart" "form-data")
  else if bool_decide (raw = "text/plain")
  then Some (MediaType "text" "plain")
  else None.

Definition demo_collaborators : Collaborators :=
  {| from_json_pet := demo_from_json_pet;
     from_json_bunch := demo_from_json_bunch;
     try_parse_content_type := demo_try_parse_content_type;
     multipart_parts req := inr [inr (PartDescription "file" (body req))] |}.

(** A batch upload whose [file] part is empty, one whose file is an
    envelope without pets, and a request for a pet. *)
Definition empty_upload : request_t :=
  Request 1 (Some "multipart/form-data") "".

Definition upload_of_no_pets : request_t :=
  Request 2 (Some "multipart/form-data") "[]".

Definition plain_get : request_t := Request 3 None "".

Definition fresh_world : world := {| w_db := fresh_db; w_sent := [] |}.

(** ** Responses and the business step of a task *)

(** The world after [rsp] was handed to the transport. *)
Definition deliver (rsp : response_t) (w : world) : world :=
  {| w_db := w_db w; w_sent := w_sent w ++ [rsp] |}.

Definition failure_response (req : request_t) (status : http_status_line_t)
    (code : Z) (description : string) : response_t :=
  Response req status "application/json"
    (to_json (FailureDescription code description)).

(** The failure contract of the specification: the response owed for the
    outcome of a business step, a success body or the fault that stopped
    it. *)
Definition expected_response (req : request_t) (outcome : exception + json)
  : response_t :=
  match outcome with
  | inr success_body => Response req status_ok "application/json" success_body
  | inl (json_dto_ex_t what) =>
      failure_response req status_bad_request 1
        ("json-related-error: " +:+ what)
  | inl (SQLite_Exception error_code ext_error_code error_str) =>
      failure_response req status_internal_server_error 2
        ("sqlite-related-error: error_code=" +:+ pretty error_code +:+
         ", ext_error_code=" +:+ pretty ext_error_code +:+
         ", desc='" +:+ error_str +:+ "'")
  | inl (request_processing_failure_t status description) =>
      Response req status "application/json" (to_json description)
  | inl (std_exception _) =>
      failure_response req status_internal_server_error (-1)
        "unexpected application failure"
  end.

Definition request_of (c : closure) : request_t :=
  match c with
  | do_get_all_pets req | do_create_new_pet req
  | do_get_specific_pet req _ | do_patch_specific_pet req _
  | do_delete_specific_pet req _ => req
  end.

Definition as_json `{JsonIo A} (m : Exn world A) : Exn world json :=
  a ← m; mret (to_json a).

(** The business step of a task: the lambda its entry point runs inside the
    two wrappers, its result serialised; for a create request that fails
    content negotiation, the failure [detect_create_new_mode] reports. *)
Definition business_step `{Collaborators} (c : closure) : Exn world json :=
  match c with
  | do_get_all_pets _ => as_json get_all_pets_action
  | do_create_new_pet req =>
      match detect_create_new_mode req with
      | inr single => as_json (create_new_pet_action req)
      | inr batch => as_json (batch_create_new_pets_action req)
      | inl (status, description) =>
          throw (request_processing_failure_t status description)
      end
  | do_get_specific_pet _ id => as_json (get_specific_pet_action id)
  | do_patch_specific_pet req id => as_json (patch_specific_pet_action req id)
  | do_delete_specific_pet _ id => as_json (delete_specific_pet_action id)
  end.

(** The multipart body of [req] yields no usable part named [file]: the
    enumeration fails, meets no such part, or the part is empty. *)
Definition no_uploaded_file `{Collaborators} (req : request_t) : bool :=
  let '(result, uploaded_content) :=
    enumerate_parts_with_files req take_file_part "" in
  negb (has_value result) || string_empty uploaded_content.

(** The body of the part the handler of [batch_create_new_pets] would
    take: the first file part named [file]. *)
Fixpoint file_part_body
    (parts : list (enumeration_error_t + part_description_t))
  : option string :=
  match parts with
  | [] => None
  | inr part :: parts' =>
      if bool_decide ("file" = part_name part) then Some (part_body part)
      else file_part_body parts'
  | inl _ :: parts' => file_part_body parts'
  end.

(** What [uploaded_content] holds after the enumeration. *)
Definition uploaded_file `{Collaborators} (req : request_t) : string :=
  (enumerate_parts_with_files req take_file_part "").2.

(** A create request whose envelope is malformed: content negotiation
    fails, or it is a batch without a usable file part. *)
Definition malformed_envelope `{Collaborators} (req : request_t) : Prop :=
  (∃ failure, detect_create_new_mode req = inl failure) ∨
  (detect_create_new_mode req = inr batch ∧ no_uploaded_file req = true).

(** The payload a task has to decode is rejected by the decoder with
    [json_dto::ex_t] and the message [what]. *)
Definition decoding_fault `{Collaborators} (c : closure) (what : string)
  : Prop :=
  match c with
  | do_patch_specific_pet req _ =>
      from_json_pet (body req) = inl (throws_ex_t what)
  | do_create_new_pet req =>
      match detect_create_new_mode req with
      | inr single => from_json_pet (body req) = inl (throws_ex_t what)
      | inr batch =>
          no_uploaded_file req = false ∧
          from_json_bunch (uploaded_file req) = inl (throws_ex_t what)
      | inl _ => False
      end
  | _ => False
  end.

(** The decoder throws an exception of another class. *)
Definition unclassified_fault `{Collaborators} (c : closure) (what : string)
  : Prop :=
  match c with
  | do_patch_specific_pet req _ =>
      from_json_pet (body req) = inl (throws_other what)
  | do_create_new_pet req =>
      match detect_create_new_mode req with
      | inr single => from_json_pet (body req) = inl (throws_other what)
      | inr batch =>
          no_uploaded_file req = false ∧
          from_json_bunch (uploaded_file req) = inl (throws_other what)
      | inl _ => False
      end
  | _ => False
  end.

(** The task gets as far as the storage gateway: its envelope is
    accepted and its payload, if it has one, decodes. *)
Definition reaches_storage `{Collaborators} (c : closure) : Prop :=
  match c with
  | do_patch_specific_pet req _ =>
      has_value (from_json_pet (body req)) = true
  | do_create_new_pet req =>
      match detect_create_new_mode req with
      | inr single => has_value (from_json_pet (body req)) = true
      | inr batch =>
          no_uploaded_file req = false ∧
          has_value (from_json_bunch (uploaded_file req)) = true
      | inl _ => False
      end
  | _ => True
  end.

(** The description sent for a storage fault. *)
Definition sqlite_description (f : sqlite_fault) : string :=
  "sqlite-related-error: error_code=" +:+ pretty (fault_code f) +:+
  ", ext_error_code=" +:+ pretty (fault_ext_code f) +:+
  ", desc='" +:+ fault_str f +:+ "'".

(** The identity [id] is unknown to the store. *)
Definition unknown_identity (id : pet_id_t) (w : world) : Prop :=
  tbl_pets (w_db w) !! id = None.

Definition not_found_description (id : pet_id_t) : failure_description_t :=
  FailureDescription 3 ("pet with this ID not found, ID=" +:+ pretty id).

(** ** The end-to-end scenario of the specification *)

Definition post_bunny : request_t :=
  Request 10 (Some "application/json") "Bunny".

Definition scenario : list closure :=
  [do_create_new_pet post_bunny;
   do_get_specific_pet plain_get 1;
   do_get_specific_pet plain_get 999;
   do_delete_specific_pet plain_get 1;
   do_get_specific_pet plain_get 1].

Definition run_scenario (cs : list closure) (w : world) : world :=
  foldl (λ w c, (call_closure (H := demo_collaborators) c w).2) w cs.

(** ** The pool *)

(** The thread objects of [k] workers started one after the other, the
    first with identity [first]. *)
Definition started_threads (first k : nat) : list Multithreading.std_thread :=
  (λ id, Multithreading.StdThread id true) <$> seq first k.

(** The system after [k] workers were started. *)
Definition after_starts (k : nat) (s : system) : system :=
  {| sys_queue := sys_queue s;
     sys_world := sys_world s;
     sys_running := list_to_set (seq (sys_started s) k) ∪ sys_running s;
     sys_started := sys_started s + k;
     sys_thread_budget := sys_thread_budget s - k;
     sys_log := sys_log s ++ (thread_started <$> seq (sys_started s) k) |}.

(** A system in which nothing was started yet, with room for [budget]
    threads. *)
Definition idle_system (budget : nat) : system :=
  {| sys_queue := Multithreading.empty_queue;
     sys_world := {| w_db := fresh_db; w_sent := [] |};
     sys_running := ∅;
     sys_started := 0;
     sys_thread_budget := budget;
     sys_log := [] |}.

End Vocabulary.

(* ================================================================== *)
(** * Create envelopes, described by what the request carries           *)
(* ================================================================== *)

(** The descriptions below speak of the request only: its Content-Type
    field as parsed, and the parts of its multipart body.  They make no
    use of [detect_create_new_mode], of the handler [take_file_part] or of
    [enumerate_parts_with_files]. *)
Module Envelope.
Import model DbLayer RequestProcessor Main.

Section Envelopes.
Context `{Collaborators}.

(** The request has a Content-Type field, and the field parses to the
    media type [t]/[s]. *)
Definition declares_media (req : request_t) (t s : string) : Prop :=
  ∃ raw ct,
    content_type_field req = Some raw ∧
    try_parse_content_type raw = Some ct ∧
    type ct = t ∧ subtype ct = s.

(** A create of one pet is announced by [application/json], a create of a
    bunch of pets by [multipart/form-data]. *)
Definition single_create_envelope (req : request_t) : Prop :=
  declares_media req "application" "json".

Definition batch_create_envelope (req : request_t) : Prop :=
  declares_media req "multipart" "form-data".

(** The body of the first uploaded file whose part is named [file],
    provided every part before it can be analysed; parts that carry no
    file do not count. *)
Fixpoint offered_file
    (parts : list (enumeration_error_t + part_description_t))
  : option string :=
  match parts with
  | [] => None
  | inl no_files_found :: parts' => offered_file parts'
  | inl _ :: _ => None
  | inr part :: parts' =>
      if bool_decide (part_name part = "file") then Some (part_body part)
      else offered_file parts'
  end.

(** The document a batch create uploads: the non-empty body of the
    offered file of a multipart body that can be cut into parts. *)
Definition uploaded_document (req : request_t) : option string :=
  match multipart_parts req with
  | inl _ => None
  | inr parts =>
      match offered_file parts with
      | Some doc => if bool_decide (doc = "") then None else Some doc
      | None => None
      end
  end.

(** What can be wrong with the envelope of a create request. *)
Inductive envelope_defect :=
  | content_type_absent
  | content_type_unparsable
  | media_type_unsupported
  | file_missing.

Definition has_defect (req : request_t) (d : envelope_defect) : Prop :=
  match d with
  | content_type_absent => content_type_field req = None
  | content_type_unparsable =>
      ∃ raw, content_type_field req = Some raw ∧
             try_parse_content_type raw = None
  | media_type_unsupported =>
      ∃ raw ct,
        content_type_field req = Some raw ∧
        try_parse_content_type raw = Some ct ∧
        ¬ (type ct = "application" ∧ subtype ct = "json") ∧
        ¬ (type ct = "multipart" ∧ subtype ct = "form-data")
  | file_missing =>
      batch_create_envelope req ∧ uploaded_document req = None
  end.

(** The description the answer to a defective envelope carries. *)
Definition defect_message (d : envelope_defect) : string :=
  match d with
  | content_type_absent => "Content-Type HTTP-field is absent"
  | content_type_unparsable => "unable to parse Content-Type HTTP-field"
  | media_type_unsupported => "unsupported value of Content-Type"
  | file_missing => "no file with new pets found"
  end.

(** The payload of the task is rejected by the decoder with
    [json_dto::ex_t] and the message [what]: the body of a patch or of a
    single create, the uploaded document of a batch create. *)
Definition payload_rejected (c : closure) (what : string) : Prop :=
  match c with
  | do_patch_specific_pet req _ =>
      from_json_pet (body req) = inl (throws_ex_t what)
  | do_create_new_pet req =>
      (single_create_envelope req ∧
       from_json_pet (body req) = inl (throws_ex_t what)) ∨
      (batch_create_envelope req ∧
       ∃ doc, uploaded_document req = Some doc ∧
              from_json_bunch doc = inl (throws_ex_t what))
  | _ => False
  end.

(** The decoder throws an exception of another class on the payload. *)
Definition payload_crashes (c : closure) (what : string) : Prop :=
  match c with
  | do_patch_specific_pet req _ =>
      from_json_pet (body req) = inl (throws_other what)
  | do_create_new_pet req =>
      (single_create_envelope req ∧
       from_json_pet (body req) = inl (throws_other what)) ∨
      (batch_create_envelope req ∧
       ∃ doc, uploaded_document req = Some doc ∧
              from_json_bunch doc = inl (throws_other what))
  | _ => False
  end.

(** The envelope is in order and the payload, if the task has one,
    decodes. *)
Definition payload_accepted (c : closure) : Prop :=
  match c with
  | do_patch_specific_pet req _ =>
      ∃ pet, from_json_pet (body req) = inr pet
  | do_create_new_pet req =>
      (single_create_envelope req ∧
       ∃ pet, from_json_pet (body req) = inr pet) ∨
      (batch_create_envelope req ∧
       ∃ doc pets, uploaded_document req = Some doc ∧
                   from_json_bunch doc = inr pets)
  | _ => True
  end.

End Envelopes.

(** A decoder that runs out of memory, whatever the document. *)
Definition crashing_collaborators : Collaborators :=
  {| from_json_pet _ := inl (throws_other "std::bad_alloc");
     from_json_bunch _ := inl (throws_other "std::bad_alloc");
     try_parse_content_type := Vocabulary.demo_try_parse_content_type;
     multipart_parts req := inr [inr (PartDescription "file" (body req))] |}.

(** Requests for the examples: a create without Content-Type, one with a
    Content-Type that does not parse, a single create with an empty
    body. *)
Definition post_without_type : request_t := Request 20 None "Rex".

Definition post_garbled_type : request_t := Request 21 (Some "???") "Rex".

Definition post_empty_json : request_t :=
  Request 22 (Some "application/json") "".

(** A world whose store fails at the next engine call. *)
Definition failing_world : world :=
  {| w_db := with_faults [Some (SqliteFault 10 266 "disk I/O error")]
               Vocabulary.two_pets_db;
     w_sent := [] |}.

(** Running [c] in [w] returns normally and hands exactly [rsp] to the
    transport. *)
Definition answered_with `{Collaborators} (c : closure) (w : world)
    (rsp : response_t) : Prop :=
  ∃ w', call_closure c w = (inr tt, w') ∧ w_sent w' = w_sent w ++ [rsp].

End Envelope.

(* ================================================================== *)
(** * The rest of the application and of the vocabulary                 *)
(* ================================================================== *)

Module Lifecycle.
Import Multithreading model DbLayer RequestProcessor Main Vocabulary.

(** ** Traces on the queue *)

Section QueueTraces.
Context {T : Type}.

Definition is_pop (c : queue_call T) : bool :=
  match c with call_pop => true | _ => false end.

Definition is_close (c : queue_call T) : bool :=
  match c with call_close => true | _ => false end.

(** How many [pop]s a trace makes. *)
Fixpoint pop_count (calls : list (queue_call T)) : nat :=
  match calls with
  | [] => 0
  | c :: calls' => (if is_pop c then 1 else 0) + pop_count calls'
  end.

(** The items a trace pushes, in order. *)
Definition pushed_items (calls : list (queue_call T)) : list T :=
  omap (λ c, match c with call_push what => Some what | _ => None end) calls.

(** The items the pops of a trace handed out, in order. *)
Definition popped_items (reports : list (pop_report T)) : list T :=
  omap (λ r, match r with got what => Some what | got_closed => None end)
       reports.

End QueueTraces.

(** ** The pool of the application, once constructed *)

Section ApplicationLifecycle.
Context `{Collaborators}.

(** [worker_threads_pool.stop()] on the pool of [run_application], also
    what its destructor does. *)
Definition my_thread_pool_stop (pool : thread_pool_t) (s : system)
  : option (thread_pool_t * system) :=
  stop my_shutdowner_t join_worker pool s.

(** The tasks [cs] run one after the other, as one worker does. *)
Definition run_tasks (cs : list closure) (w : world) : world :=
  foldl (λ w c, (call_closure c w).2) w cs.

(** The tasks the router built for [cs]. *)
Definition tasks_of (cs : list closure) : list task_t :=
  (λ c, Task (Some c)) <$> cs.

End ApplicationLifecycle.

(** ** Storage content *)

(** What the database holds: the rows and the rowid sequence, leaving out
    connection state and the environment. *)
Definition same_content (db db' : db_layer_t) : Prop :=
  tbl_pets db' = tbl_pets db ∧ seq_pets db' = seq_pets db.

(** A database with one scheduled failure after [n] calls that succeed. *)
Definition failing_after (n : nat) (f : sqlite_fault) (db : db_layer_t)
  : db_layer_t :=
  with_faults (replicate n None ++ [Some f]) db.

Definition io_error : sqlite_fault := SqliteFault 10 266 "disk I/O error".

(** Concrete data for the examples below. *)
Definition two_pets_world : world := {| w_db := two_pets_db; w_sent := [] |}.

Definition post_as_text : request_t := Request 4 (Some "text/plain") "Rex".

Definition patch_rex : request_t := Request 5 (Some "application/json") "Rex".

Definition rex : pet_without_id_t :=
  PetWithoutId (PetData "Rex" "dog" "John Smith" "bunny.jpg").

Definition closed_task_queue : task_queue_t :=
  {| m_queue := [Task (Some (do_get_all_pets plain_get))]; m_closed := true |}.

(** The rowid sequence is in step with the table: no row has a rowid
    beyond the largest the sequence recorded.  This holds for a database
    that only this program has written to. *)
Definition sequence_covers_rows (db : db_layer_t) : Prop :=
  max_rowid (tbl_pets db) ≤ seq_pets db.

(** One call of a member function of [db_layer_t]. *)
Inductive gateway_call :=
  | gw_create_new_pet (pet : pet_without_id_t)
  | gw_create_bunch_of_pets (pets : bunch_of_pets_without_id_t)
  | gw_get_all_pets
  | gw_get_pet (id : pet_id_t)
  | gw_update_pet (id : pet_id_t) (pet : pet_without_id_t)
  | gw_delete_pet (id : pet_id_t).

(** The database after the call, whether it returned or threw. *)
Definition after_call (c : gateway_call) (db : db_layer_t) : db_layer_t :=
  match c with
  | gw_create_new_pet pet => (DbLayer.create_new_pet pet db).2
  | gw_create_bunch_of_pets pets => (create_bunch_of_pets pets db).2
  | gw_get_all_pets => (DbLayer.get_all_pets db).2
  | gw_get_pet id => (get_pet id db).2
  | gw_update_pet id pet => (update_pet id pet db).2
  | gw_delete_pet id => (delete_pet id db).2
  end.

Definition after_calls (cs : list gateway_call) (db : db_layer_t)
  : db_layer_t :=
  foldl (λ db c, after_call c db) db cs.

(** The call [c], made on [db], returns, and [id] is the identity it
    returns or one of the identities it returns. *)
Definition identity_returned (id : pet_id_t) (c : gateway_call)
    (db : db_layer_t) : Prop :=
  match c with
  | gw_create_new_pet pet => (DbLayer.create_new_pet pet db).1 = inr id
  | gw_create_bunch_of_pets pets =>
      ∃ ids, (create_bunch_of_pets pets db).1 = inr (BunchOfPetIds ids) ∧
             id ∈ ids
  | _ => False
  end.

(** The identity [id] is known once the calls [cs] were made on [db]: it
    is the rowid of a row of the table then, or the last of the calls
    returned it. *)
Definition identity_known (id : pet_id_t) (cs : list gateway_call)
    (db : db_layer_t) : Prop :=
  is_Some (tbl_pets (after_calls cs db) !! id) ∨
  ∃ cs' c, cs = cs' ++ [c] ∧ identity_returned id c (after_calls cs' db).

(** A database whose next rowid is beyond the 32 bits of [pet_id_t], with
    the row of identity 1 still in the table. *)
Definition db_past_uint32 : db_layer_t :=
  {| tbl_pets := {[ 1 := wo_data bunny ]}; seq_pets := 2 ^ 32;
     last_insert_rowid := 2 ^ 32; pending_faults := [] |}.

End Lifecycle.

(* ================================================================== *)
(** * Properties                                                        *)
(* ================================================================== *)

Import Multithreading.

(** ** The message queue *)

Section QueueFacts.
Context {T : Type}.
Implicit Types (q : message_queue_t T) (ps : list T) (receiver : T).

Lemma run_calls_app (calls1 calls2 : list (queue_call T)) receiver q :
  run_calls (calls1 ++ calls2) receiver q =
  match run_calls calls1 receiver q with
  | None => None
  | Some (reports1, receiver1, q1) =>
      match run_calls calls2 receiver1 q1 with
      | None => None
      | Some (reports2, receiver2, q2) =>
          Some (reports1 ++ reports2, receiver2, q2)
      end
  end.
Proof.
  revert receiver q. induction calls1 as [|c calls1 IH]; intros receiver q.
  - simpl. by destruct (run_calls calls2 receiver q) as [[[??]?]|].
  - destruct c as [what| |]; simpl.
    + apply IH.
    + destruct (pop receiver q) as [[[r rcv] q']|]; [|done].
      rewrite IH.
      destruct (run_calls calls1 rcv q') as [[[reports1 rcv1] q1]|]; [|done].
      by destruct (run_calls calls2 rcv1 q1) as [[[??]?]|].
    + apply IH.
Qed.

Lemma run_pushes_open ps receiver q :
  m_closed q = false →
  run_calls (pushes ps) receiver q =
    Some ([], receiver, {| m_queue := m_queue q ++ ps; m_closed := false |}).
Proof.
  revert q. induction ps as [|p ps IH]; intros q Hopen; simpl.
  - rewrite app_nil_r. by destruct q; simplify_eq/=.
  - unfold push at 1. rewrite Hopen. simpl. rewrite IH by done.
    simpl. by rewrite <- app_assoc.
Qed.

Lemma run_pushes_closed ps receiver q :
  m_closed q = true →
  run_calls (pushes ps) receiver q = Some ([], receiver, q).
Proof.
  intros Hclosed. induction ps as [|p ps IH]; simpl; [done|].
  unfold push at 1. by rewrite Hclosed.
Qed.

Lemma run_pops_open k receiver q :
  m_closed q = false →
  (k ≤ length (m_queue q))%nat →
  run_calls (pops k) receiver q =
    Some (got <$> take k (m_queue q),
          default receiver (last (take k (m_queue q))),
          {| m_queue := drop k (m_queue q); m_closed := false |}).
Proof.
  revert receiver q. induction k as [|k IH]; intros receiver q Hopen Hk.
  - simpl. rewrite drop_0. by destruct q; simplify_eq/=.
  - destruct q as [items closed]. simpl in *. subst closed.
    destruct items as [|front rest]; simpl in *; [lia|].
    unfold pop. simpl. rewrite IH; simpl; [|done|lia].
    do 3 f_equal. rewrite last_cons. by destruct (last (take k rest)).
Qed.

Lemma run_pops_closed k receiver q :
  m_closed q = true →
  run_calls (pops k) receiver q = Some (replicate k got_closed, receiver, q).
Proof.
  intros Hclosed. revert receiver.
  induction k as [|k IH]; intros receiver; simpl; [done|].
  unfold pop. rewrite Hclosed. by rewrite IH.
Qed.

Lemma close_sets_closed q : m_closed (close q).1 = true.
Proof. unfold close. by destruct (m_closed q) eqn:E. Qed.

Lemma close_keeps_items q : m_queue (close q).1 = m_queue q.
Proof. unfold close. by destruct (m_closed q). Qed.

(** C1, as amended.  Whatever the queue state, once tasks [ps] were
    pushed and [close()] was called, every later [pop()] reports
    [queue_closed] at once and leaves its receiver untouched; the tasks
    that were pending at the time of the close stay in [m_queue] and are
    never handed out. *)
Theorem closed_queue_pops_report_closed ps k receiver q :
  run_calls (pushes ps ++ [call_close] ++ pops k) receiver q =
    Some (replicate k got_closed, receiver,
          {| m_queue := if m_closed q then m_queue q else m_queue q ++ ps;
             m_closed := true |}).
Proof.
  rewrite run_calls_app.
  destruct (m_closed q) eqn:Hc.
  - rewrite run_pushes_closed by done. cbn [app run_calls].
    rewrite run_pops_closed by apply close_sets_closed.
    simpl. do 2 f_equal. unfold close. rewrite Hc. simpl.
    destruct q; by simplify_eq/=.
  - rewrite run_pushes_open by done. cbn [app run_calls].
    rewrite run_pops_closed by apply close_sets_closed.
    simpl. done.
Qed.

(** C7.  After the pushes [ps] onto an open queue, [length ps] pops on a
    queue that held nothing before yield exactly [ps], in the order pushed.
    In general, with [m_queue q] pending before the pushes, [k] pops (no
    more than there are items) yield the first [k] items of
    [m_queue q ++ ps]: first in, first out. *)
Theorem queue_fifo ps receiver q :
  m_closed q = false →
  (m_queue q = [] →
   reports_of (pushes ps ++ pops (length ps)) receiver q
     = Some (got <$> ps)) ∧
  (∀ k, (k ≤ length (m_queue q ++ ps))%nat →
   reports_of (pushes ps ++ pops k) receiver q
     = Some (got <$> take k (m_queue q ++ ps))).
Proof.
  intros Hopen.
  assert (∀ k, (k ≤ length (m_queue q ++ ps))%nat →
            reports_of (pushes ps ++ pops k) receiver q
              = Some (got <$> take k (m_queue q ++ ps))) as Hfifo.
  { intros k Hk. unfold reports_of.
    rewrite run_calls_app, run_pushes_open by done.
    by rewrite run_pops_open. }
  split; [|exact Hfifo].
  intros Hempty. rewrite Hfifo; rewrite Hempty; simpl; [|done].
  by rewrite firstn_all.
Qed.

(** C8.  [push] on a closed queue returns the queue as it was (same
    pending sequence, same flag) and issues no notification; [push] has
    no other outcome, so nothing is reported to the caller. *)
Theorem push_on_closed_queue_is_dropped (t : T) q :
  m_closed q = true →
  push t q = (q, []).
Proof. intros Hclosed. unfold push. by rewrite Hclosed. Qed.

End QueueFacts.

(** The trace of the specification on the empty queue: two pushes, a close
    and three pops report [queue_closed] three times, not the two tasks
    followed by [queue_closed]. *)
Lemma close_does_not_drain :
  reports_of (T := Z) (pushes [1; 2] ++ [call_close] ++ pops 3) 0 empty_queue
    = Some [got_closed; got_closed; got_closed] ∧
  reports_of (T := Z) (pushes [1; 2] ++ [call_close] ++ pops 3) 0 empty_queue
    ≠ Some [got 1; got 2; got_closed].
Proof. split; [reflexivity | discriminate]. Qed.

Lemma queue_fifo_witness :
  m_closed (empty_queue (T := Z)) = false ∧
  reports_of (T := Z) (pushes [7; 8; 9] ++ pops 3) 0 empty_queue
    = Some [got 7; got 8; got 9].
Proof.
  split; [reflexivity|].
  apply (queue_fifo [7; 8; 9] 0 empty_queue); reflexivity.
Defined.

Lemma push_on_closed_queue_witness :
  m_closed {| m_queue := [1; 2]; m_closed := true |} = true ∧
  push (T := Z) 5 {| m_queue := [1; 2]; m_closed := true |}
    = ({| m_queue := [1; 2]; m_closed := true |}, []).
Proof.
  split; [reflexivity|].
  apply (push_on_closed_queue_is_dropped (T := Z) 5). reflexivity.
Defined.

(** ** The storage gateway *)

Import model DbLayer Vocabulary.

Ltac exn_unfold :=
  unfold RequestProcessor.m_db, mbind, mret, Exn_bind, Exn_ret, get_state,
    put_state, raise_sqlite, throw, try_catch, zoom in *.

Lemma max_rowid_nonneg (tbl : gmap Z pet_data_t) : 0 ≤ max_rowid tbl.
Proof.
  unfold max_rowid.
  apply (map_fold_weak_ind (λ acc _, 0 ≤ acc)); [done|].
  intros id data m acc _ IH. lia.
Qed.

Lemma max_rowid_bound (tbl : gmap Z pet_data_t) id data :
  tbl !! id = Some data → id ≤ max_rowid tbl.
Proof.
  unfold max_rowid. revert id data.
  apply (map_fold_weak_ind
           (λ acc m, ∀ id data, m !! id = Some data → id ≤ acc)).
  - intros id data. by rewrite lookup_empty.
  - intros k v m acc Hfresh IH id data Hlook.
    destruct (decide (k = id)) as [->|Hne]; [lia|].
    rewrite lookup_insert_ne in Hlook by done.
    specialize (IH _ _ Hlook). lia.
Qed.

Lemma above_max_rowid_fresh (tbl : gmap Z pet_data_t) id :
  max_rowid tbl < id → tbl !! id = None.
Proof.
  intros Hlt. destruct (tbl !! id) as [data|] eqn:Hlook; [|done].
  apply max_rowid_bound in Hlook. lia.
Qed.

Lemma max_rowid_insert_fresh (tbl : gmap Z pet_data_t) id data :
  tbl !! id = None →
  max_rowid (<[id := data]> tbl) = Z.max id (max_rowid tbl).
Proof.
  intros Hfresh. unfold max_rowid.
  rewrite map_fold_insert_L; [done| |done].
  intros. lia.
Qed.

Lemma engine_call_cases db :
  (∃ fs, engine_call db = (inr tt, with_faults fs db)) ∨
  (∃ f fs, engine_call db =
             (inl (SQLite_Exception (fault_code f) (fault_ext_code f)
                     (fault_str f)), with_faults fs db)).
Proof.
  unfold engine_call. destruct (pending_faults db) as [|[f|] rest] eqn:E.
  - left. exists []. destruct db; simpl in *. by subst.
  - right. by exists f, rest.
  - left. by exists rest.
Qed.

Lemma engine_call_fault_free n db :
  fault_free (S n) db = true →
  ∃ fs, engine_call db = (inr tt, with_faults fs db) ∧
        fault_free n (with_faults fs db) = true.
Proof.
  unfold fault_free, engine_call.
  destruct (pending_faults db) as [|[f|] rest] eqn:E; simpl; intros Hff.
  - exists []. split; [destruct db; simpl in *; by subst|].
    by rewrite take_nil.
  - done.
  - by exists rest.
Qed.

Lemma exec_create_new_stmt_cases data db :
  let largest := largest_rowid db in
  (∃ fs, largest < int64_max ∧
         exec_create_new_stmt data db =
           (inr tt, {| tbl_pets := <[largest + 1 := data]> (tbl_pets db);
                       seq_pets := largest + 1;
                       last_insert_rowid := largest + 1;
                       pending_faults := fs |})) ∨
  (∃ e fs, exec_create_new_stmt data db = (inl e, with_faults fs db) ∧
           is_sqlite_exception e).
Proof.
  intros largest. unfold exec_create_new_stmt. exn_unfold.
  destruct (engine_call_cases db) as [[fs ->]|(f & fs & ->)].
  - simpl. fold (largest_rowid db). fold largest. case_bool_decide.
    + right. by eexists _, fs.
    + left. exists fs. split; [lia|done].
  - right. by eexists _, fs.
Qed.

Lemma exec_last_insert_rowid_stmt_cases db :
  (∃ fs, exec_last_insert_rowid_stmt db =
           (inr (last_insert_rowid db), with_faults fs db)) ∨
  (∃ e fs, exec_last_insert_rowid_stmt db = (inl e, with_faults fs db) ∧
           is_sqlite_exception e).
Proof.
  unfold exec_last_insert_rowid_stmt. exn_unfold.
  destruct (engine_call_cases db) as [[fs ->]|(f & fs & ->)].
  - left. by exists fs.
  - right. by eexists _, fs.
Qed.

Lemma largest_rowid_after_insert db data fs :
  largest_rowid {| tbl_pets := <[largest_rowid db + 1 := data]> (tbl_pets db);
                   seq_pets := largest_rowid db + 1;
                   last_insert_rowid := largest_rowid db + 1;
                   pending_faults := fs |} = largest_rowid db + 1.
Proof.
  unfold largest_rowid at 1. simpl.
  rewrite max_rowid_insert_fresh.
  - unfold largest_rowid. lia.
  - apply above_max_rowid_fresh. unfold largest_rowid. lia.
Qed.

Lemma to_int32_id z : in_int32 z → to_int32 z = z.
Proof.
  unfold in_int32, int32_min, int32_max, to_int32. intros Hz.
  rewrite Z.mod_small; lia.
Qed.

Lemma insert_rows_lookup_other pets first tbl k :
  ¬ (first ≤ k < first + Z.of_nat (length pets)) →
  insert_rows first pets tbl !! k = tbl !! k.
Proof.
  revert first tbl. induction pets as [|p pets IH]; intros first tbl Hk.
  - done.
  - simpl in *. rewrite IH by lia. apply lookup_insert_ne. lia.
Qed.

Lemma insert_rows_lookup_new pets first tbl (i : nat) p :
  pets !! i = Some p →
  insert_rows first pets tbl !! (first + Z.of_nat i) = Some (wo_data p).
Proof.
  revert first tbl i. induction pets as [|p' pets IH]; intros first tbl i Hi.
  - done.
  - destruct i as [|i]; simpl in *.
    + injection Hi as ->. rewrite insert_rows_lookup_other by lia.
      rewrite Z.add_0_r. apply lookup_insert_eq.
    + replace (first + Z.of_nat (S i)) with (first + 1 + Z.of_nat i) by lia.
      by apply IH.
Qed.

(** The loop of [create_bunch_of_pets]: it returns the converted rowids of
    the rows it inserted, or it stops with an [SQLite::Exception]. *)
Lemma create_bunch_loop_spec pets result db :
  match create_bunch_loop pets result db with
  | (inr ids, db') =>
      ids = result ++
            (to_int32 <$> seqZ (largest_rowid db + 1)
                               (Z.of_nat (length pets))) ∧
      tbl_pets db' = insert_rows (largest_rowid db + 1) pets (tbl_pets db)
  | (inl e, db') => is_sqlite_exception e
  end.
Proof.
  revert result db. induction pets as [|p pets IH]; intros result db.
  - simpl. exn_unfold. by rewrite app_nil_r.
  - cbn [create_bunch_loop]. unfold mbind at 1, Exn_bind at 1.
    destruct (exec_create_new_stmt_cases (wo_data p) db)
      as [(fs & Hlt & ->)|(e & fs & -> & He)]; [|done].
    unfold mbind at 1, Exn_bind at 1.
    match goal with |- context [exec_last_insert_rowid_stmt ?d] =>
      destruct (exec_last_insert_rowid_stmt_cases d)
        as [(fs' & ->)|(e & fs' & -> & He)]; [|done]
    end.
    cbn [last_insert_rowid with_faults tbl_pets seq_pets].
    match goal with |- context [create_bunch_loop pets ?r ?d] =>
      specialize (IH r d); destruct (create_bunch_loop pets r d) as [[e|ids] db']
    end; [done|].
    destruct IH as [-> ->].
    unfold with_faults.
    cbn [tbl_pets seq_pets last_insert_rowid pending_faults].
    rewrite largest_rowid_after_insert. split.
    + rewrite <- app_assoc. f_equal.
      replace (Z.of_nat (length (p :: pets)))
        with (Z.succ (Z.of_nat (length pets))) by (simpl; lia).
      rewrite (seqZ_cons (largest_rowid db + 1)) by lia.
      rewrite Z.pred_succ. simpl. do 3 f_equal.
    + done.
Qed.

Lemma create_bunch_of_pets_spec
    (pets : bunch_of_pets_without_id_t) (db : db_layer_t) :
  let largest := largest_rowid db in
  let n := Z.of_nat (length (m_pets pets)) in
  match create_bunch_of_pets pets db with
  | (inr result, db') =>
      m_ids result = to_int32 <$> seqZ (largest + 1) n ∧
      (∀ (i : nat) p, m_pets pets !! i = Some p →
         tbl_pets db !! (largest + 1 + Z.of_nat i) = None ∧
         tbl_pets db' !! (largest + 1 + Z.of_nat i) = Some (wo_data p)) ∧
      (∀ k, ¬ (largest < k ≤ largest + n) →
         tbl_pets db' !! k = tbl_pets db !! k) ∧
      (largest + n ≤ int32_max → m_ids result = seqZ (largest + 1) n)
  | (inl e, db') =>
      is_sqlite_exception e ∧
      tbl_pets db' = tbl_pets db ∧ seq_pets db' = seq_pets db
  end.
Proof.
  intros largest n. unfold create_bunch_of_pets.
  unfold mbind at 1, Exn_bind at 1.
  destruct (engine_call_cases db) as [[fs ->]|(f & fs & ->)]; [|done].
  unfold mbind at 1, Exn_bind at 1, get_state at 1, try_catch.
  unfold mbind at 1, Exn_bind at 1.
  pose proof (create_bunch_loop_spec (m_pets pets) [] (with_faults fs db))
    as Hloop.
  destruct (create_bunch_loop (m_pets pets) [] (with_faults fs db))
    as [[e|ids] db1].
  { (* the loop threw: the destructor of [trx] rolls back *)
    exn_unfold. simpl. done. }
  destruct Hloop as [-> Htbl].
  change (largest_rowid (with_faults fs db)) with largest in *.
  change (tbl_pets (with_faults fs db)) with (tbl_pets db) in Htbl.
  unfold mbind at 1, Exn_bind at 1.
  destruct (engine_call_cases db1) as [[fs1 ->]|(f & fs1 & ->)].
  2:{ (* [commit()] threw *) exn_unfold. simpl. done. }
  exn_unfold. cbn [m_ids tbl_pets with_faults app]. rewrite Htbl.
  split; [done|]. split; [|split].
  - intros i p Hi. split.
    + apply above_max_rowid_fresh. unfold largest, largest_rowid. lia.
    + rewrite <- Z.add_assoc, (Z.add_comm 1), Z.add_assoc.
      replace (largest + Z.of_nat i + 1) with (largest + 1 + Z.of_nat i)
        by lia.
      by apply insert_rows_lookup_new.
  - intros k Hk. apply insert_rows_lookup_other. fold n. lia.
  - intros Hfit. fold n. rewrite <- (list_fmap_id (seqZ (largest + 1) n)) at 2.
    apply Forall_fmap_ext_1, Forall_forall.
    intros z Hz%elem_of_seqZ. apply to_int32_id.
    pose proof (max_rowid_nonneg (tbl_pets db)).
    unfold in_int32, int32_min, int32_max, id in *.
    subst largest n. unfold largest_rowid in *. lia.
Qed.

(** C4, as amended.  [create_bunch_of_pets] has two outcomes only.
    Either it returns: then one row per payload was inserted, at the
    consecutive fresh rowids that follow the largest rowid the table ever
    held, payload [i] at the [i]-th of them; every other rowid is as before;
    and the result lists, in input order, these rowids converted to
    [pet_id_t] (32 bits), which are the rowids themselves whenever they fit
    that type.  Or it throws an [SQLite::Exception]: then nothing is
    returned and the table and its rowid sequence are what they were before
    the call. *)
Theorem create_bunch_all_or_nothing
    (pets : bunch_of_pets_without_id_t) (db : db_layer_t) :
  let largest := largest_rowid db in
  let n := Z.of_nat (length (m_pets pets)) in
  match create_bunch_of_pets pets db with
  | (inr result, db') =>
      m_ids result = to_int32 <$> seqZ (largest + 1) n ∧
      (∀ (i : nat) p, m_pets pets !! i = Some p →
         tbl_pets db !! (largest + 1 + Z.of_nat i) = None ∧
         tbl_pets db' !! (largest + 1 + Z.of_nat i) = Some (wo_data p)) ∧
      (∀ k, ¬ (largest < k ≤ largest + n) →
         tbl_pets db' !! k = tbl_pets db !! k) ∧
      (largest + n ≤ int32_max → m_ids result = seqZ (largest + 1) n)
  | (inl e, db') =>
      is_sqlite_exception e ∧
      tbl_pets db' = tbl_pets db ∧ seq_pets db' = seq_pets db
  end.
Proof. apply create_bunch_of_pets_spec. Qed.

(** The store-assigned rowid 2147483648 does not fit [pet_id_t]: the row
    is stored under it and the identity returned is -2147483648. *)
Lemma create_bunch_identity_not_store_assigned :
  ∃ db',
    create_bunch_of_pets (BunchOfPets [bunny]) db_past_int32
      = (inr (BunchOfPetIds [-2147483648]), db') ∧
    tbl_pets db' !! 2147483648 = Some (wo_data bunny) ∧
    tbl_pets db' !! (-2147483648) = None.
Proof. eexists. split; [vm_compute; reflexivity|]. split; reflexivity. Qed.

Lemma create_bunch_all_or_nothing_witness :
  ∃ db',
    create_bunch_of_pets (BunchOfPets [bunny; kitty]) fresh_db
      = (inr (BunchOfPetIds [1; 2]), db') ∧
    tbl_pets db' !! 1 = Some (wo_data bunny) ∧
    tbl_pets db' !! 2 = Some (wo_data kitty).
Proof.
  pose proof (create_bunch_all_or_nothing
                (BunchOfPets [bunny; kitty]) fresh_db) as Hspec.
  destruct (create_bunch_of_pets (BunchOfPets [bunny; kitty]) fresh_db)
    as [[e|[ids]] db'] eqn:Hrun; [discriminate Hrun|].
  destruct Hspec as (Hids & Hrows & _ & _). simpl in Hids. subst ids.
  exists db'. split; [reflexivity|]. split.
  - exact (proj2 (Hrows 0%nat bunny eq_refl)).
  - exact (proj2 (Hrows 1%nat kitty eq_refl)).
Defined.

Lemma largest_rowid_nonneg db : 0 ≤ largest_rowid db.
Proof.
  unfold largest_rowid. pose proof (max_rowid_nonneg (tbl_pets db)). lia.
Qed.

(** C6, as amended.  When no storage fault occurs and the rowid the store
    assigns still fits [pet_id_t] (32 bits), [create_new_pet] returns that
    rowid, which is one more than the largest rowid the table ever held and
    was not in the table before, and [get_pet] of it then returns a present
    record with this identity and the four fields of the payload. *)
Theorem create_then_get_round_trip (P : pet_without_id_t) (db : db_layer_t) :
  fault_free 3 db = true →
  largest_rowid db + 1 ≤ int32_max →
  ∃ db1 db2,
    create_new_pet P db = (inr (largest_rowid db + 1), db1) ∧
    tbl_pets db !! (largest_rowid db + 1) = None ∧
    get_pet (largest_rowid db + 1) db1 =
      (inr (Some (PetWithId (largest_rowid db + 1) (wo_data P))), db2).
Proof.
  intros Hff Hfit. pose proof (largest_rowid_nonneg db) as Hnonneg.
  assert (to_int32 (largest_rowid db + 1) = largest_rowid db + 1) as Hid.
  { apply to_int32_id. unfold in_int32, int32_min, int32_max in *. lia. }
  destruct (engine_call_fault_free _ _ Hff) as (fs1 & Hcall1 & Hff1).
  unfold create_new_pet, exec_create_new_stmt, exec_last_insert_rowid_stmt,
    get_pet.
  exn_unfold. rewrite Hcall1. simpl.
  fold (largest_rowid db). rewrite bool_decide_eq_false_2
    by (unfold int64_max, int32_max in *; lia).
  match goal with |- context [engine_call ?d] =>
    destruct (engine_call_fault_free 1 d) as (fs2 & Hcall2 & Hff2);
      [exact Hff1|]; rewrite Hcall2
  end.
  simpl. rewrite Hid.
  match goal with |- ∃ _ _, (_, ?d) = _ ∧ _ =>
    destruct (engine_call_fault_free 0 d) as (fs3 & Hcall3 & _);
      [exact Hff2|]
  end.
  eexists _, _. split; [reflexivity|]. split.
  - apply above_max_rowid_fresh. unfold largest_rowid. lia.
  - rewrite Hcall3. simpl. by rewrite lookup_insert_eq.
Qed.

(** Once the store assigns rowid 2147483648, [create_new_pet] returns
    -2147483648 and [get_pet] of that identity finds no record. *)
Lemma round_trip_fails_past_int32 :
  ∃ db1,
    create_new_pet bunny db_past_int32 = (inr (-2147483648), db1) ∧
    get_pet (-2147483648) db1 = (inr None, db1).
Proof. eexists. split; vm_compute; reflexivity. Qed.

Lemma create_then_get_round_trip_witness :
  fault_free 3 fresh_db = true ∧
  largest_rowid fresh_db + 1 ≤ int32_max ∧
  ∃ db1 db2,
    create_new_pet bunny fresh_db = (inr 1, db1) ∧
    get_pet 1 db1 = (inr (Some (PetWithId 1 (wo_data bunny))), db2).
Proof.
  split; [reflexivity|]. split; [vm_compute; discriminate|].
  destruct (create_then_get_round_trip bunny fresh_db)
    as (db1 & db2 & Hcreate & _ & Hget);
    [reflexivity | vm_compute; discriminate |].
  exists db1, db2. split; [exact Hcreate | exact Hget].
Defined.

(** *** The storage gateway only ever throws [SQLite::Exception] *)

Lemma get_pet_cases id db :
  (∃ fs, get_pet id db =
           (inr (PetWithId (to_int32 id) <$> tbl_pets db !! id),
            with_faults fs db)) ∨
  (∃ e fs, get_pet id db = (inl e, with_faults fs db) ∧
           is_sqlite_exception e).
Proof.
  unfold get_pet. exn_unfold.
  destruct (engine_call_cases db) as [[fs ->]|(f & fs & ->)].
  - left. exists fs. simpl. by destruct (tbl_pets db !! id).
  - right. by eexists _, fs.
Qed.

Lemma update_pet_cases id pet db :
  (∃ fs, tbl_pets db !! id = None ∧
         update_pet id pet db =
           (inr update_result_t.not_found, with_faults fs db)) ∨
  (∃ db', is_Some (tbl_pets db !! id) ∧
          update_pet id pet db = (inr update_result_t.updated, db')) ∨
  (∃ e fs, update_pet id pet db = (inl e, with_faults fs db) ∧
           is_sqlite_exception e).
Proof.
  unfold update_pet, exec_update_pet_stmt. exn_unfold.
  destruct (engine_call_cases db) as [[fs ->]|(f & fs & ->)].
  - simpl. destruct (tbl_pets db !! id) eqn:Hrow.
    + right. left. by eexists.
    + left. by exists fs.
  - right. right. by eexists _, fs.
Qed.

Lemma delete_pet_cases id db :
  (∃ fs, tbl_pets db !! id = None ∧
         delete_pet id db =
           (inr delete_result_t.not_found, with_faults fs db)) ∨
  (∃ db', is_Some (tbl_pets db !! id) ∧
          delete_pet id db = (inr delete_result_t.deleted, db')) ∨
  (∃ e fs, delete_pet id db = (inl e, with_faults fs db) ∧
           is_sqlite_exception e).
Proof.
  unfold delete_pet, exec_delete_pet_stmt. exn_unfold.
  destruct (engine_call_cases db) as [[fs ->]|(f & fs & ->)].
  - simpl. destruct (tbl_pets db !! id) eqn:Hrow.
    + right. left. by eexists.
    + left. by exists fs.
  - right. right. by eexists _, fs.
Qed.

Lemma create_new_pet_throws pet db e db' :
  DbLayer.create_new_pet pet db = (inl e, db') → is_sqlite_exception e.
Proof.
  unfold DbLayer.create_new_pet. unfold mbind at 1, Exn_bind at 1.
  destruct (exec_create_new_stmt_cases (wo_data pet) db)
    as [(fs & Hlt & ->)|(e' & fs & -> & He)]; [|by intros [= <- _]].
  unfold mbind at 1, Exn_bind at 1.
  match goal with |- context [exec_last_insert_rowid_stmt ?d] =>
    destruct (exec_last_insert_rowid_stmt_cases d)
      as [(fs' & ->)|(e' & fs' & -> & He)]; [|by intros [= <- _]]
  end.
  exn_unfold. done.
Qed.

Lemma create_bunch_of_pets_throws pets db e db' :
  create_bunch_of_pets pets db = (inl e, db') → is_sqlite_exception e.
Proof.
  intros Hrun. pose proof (create_bunch_of_pets_spec pets db) as Hspec.
  rewrite Hrun in Hspec. apply Hspec.
Qed.

Lemma get_all_loop_throws rows result db e db' :
  get_all_loop rows result db = (inl e, db') → is_sqlite_exception e.
Proof.
  revert result db. induction rows as [|[id data] rows IH]; intros result db;
    cbn [get_all_loop]; unfold mbind at 1, Exn_bind at 1;
    destruct (engine_call_cases db) as [[fs ->]|(f & fs & ->)];
    try (by intros [= <- _]).
  apply IH.
Qed.

Lemma get_all_pets_throws db e db' :
  DbLayer.get_all_pets db = (inl e, db') → is_sqlite_exception e.
Proof.
  unfold DbLayer.get_all_pets. exn_unfold.
  destruct (get_all_loop (scan_pets db) [] db) as [[e'|pets] db1] eqn:Hloop.
  - intros [= <- _]. by eapply get_all_loop_throws.
  - done.
Qed.

(** ** The request processor *)

Import RequestProcessor Main Envelope.

Section ProcessorFacts.
Context `{Collaborators}.

(** The two wrappers, composed: whatever the wrapped lambda does, one
    response is delivered and nothing is thrown. *)
Lemma wrapped_processing `{JsonIo A} req (functor : Exn world A) w :
  wrap_request_processing req (wrap_business_logic_action functor) w =
    let '(outcome, w') := as_json functor w in
    (inr tt, deliver (expected_response req outcome) w').
Proof.
  unfold wrap_request_processing, wrap_business_logic_action, as_json,
    send_json_response, deliver, failure_response.
  exn_unfold.
  destruct (functor w) as [[e|a] w']; [|done].
  by destruct e.
Qed.

Lemma entry_point_runs_business_step (c : closure) w :
  call_closure c w =
    let '(outcome, w') := business_step c w in
    (inr tt, deliver (expected_response (request_of c) outcome) w').
Proof.
  destruct c as [req|req|req id|req id|req id]; simpl;
    try apply wrapped_processing.
  unfold on_create_new_pet.
  destruct (detect_create_new_mode req) as [[status description]|[|]].
  - done.
  - apply wrapped_processing.
  - apply wrapped_processing.
Qed.

Lemma m_db_keeps_sent {A} (call : Exn db_layer_t A) w :
  w_sent (m_db call w).2 = w_sent w.
Proof. unfold m_db, zoom. by destruct (call (w_db w)). Qed.

Lemma m_db_run {A} (call : Exn db_layer_t A) w :
  m_db call w = ((call (w_db w)).1, set_db (call (w_db w)).2 w).
Proof. unfold m_db, zoom. by destruct (call (w_db w)). Qed.

(** A business step talks to the storage gateway only; it hands nothing to
    the transport. *)
Lemma business_step_keeps_sent (c : closure) w :
  w_sent (business_step c w).2 = w_sent w.
Proof.
  destruct c as [req|req|req id|req id|req id]; simpl.
  - unfold as_json, get_all_pets_action. exn_unfold.
    destruct (DbLayer.get_all_pets (w_db w)) as [[?|?] ?]; done.
  - destruct (detect_create_new_mode req) as [[status description]|[|]].
    + done.
    + unfold as_json, create_new_pet_action, decoded. exn_unfold.
      destruct (from_json_pet (body req)) as [[?|?]|pet]; try done.
      destruct (DbLayer.create_new_pet pet (w_db w)) as [[?|?] ?]; done.
    + unfold as_json, batch_create_new_pets_action, decoded.
      destruct (enumerate_parts_with_files req take_file_part "")
        as [result content].
      destruct (negb (has_value result) || string_empty content); [done|].
      exn_unfold.
      destruct (from_json_bunch content) as [[?|?]|pets]; try done.
      destruct (DbLayer.create_bunch_of_pets pets (w_db w)) as [[?|?] ?];
        done.
  - unfold as_json, get_specific_pet_action, pet_not_found. exn_unfold.
    destruct (DbLayer.get_pet id (w_db w)) as [[?|[?|]] ?]; done.
  - unfold as_json, patch_specific_pet_action, pet_not_found, decoded.
    exn_unfold.
    destruct (from_json_pet (body req)) as [[?|?]|pet]; try done.
    destruct (DbLayer.update_pet id pet (w_db w)) as [[?|[|]] ?]; done.
  - unfold as_json, delete_specific_pet_action, pet_not_found. exn_unfold.
    destruct (DbLayer.delete_pet id (w_db w)) as [[?|[|]] ?]; done.
Qed.

(** C2.  Whatever task the router built (one of the five entry points with
    its request), running it returns normally, with no exception left
    to propagate into the worker loop, and hands the transport exactly one
    response, which is for the request of the task. *)
Theorem every_task_sends_one_response (c : closure) (w : world) :
  ∃ rsp w',
    invoke (Task (Some c)) w = (inr tt, w') ∧
    w_sent w' = w_sent w ++ [rsp] ∧
    rsp_request rsp = request_of c.
Proof.
  unfold invoke. simpl. rewrite entry_point_runs_business_step.
  pose proof (business_step_keeps_sent c w) as Hsent.
  destruct (business_step c w) as [outcome w']. simpl in Hsent.
  eexists _, _. split; [reflexivity|]. simpl. rewrite Hsent.
  split; [reflexivity|].
  destruct outcome as [[]|]; reflexivity.
Qed.

Lemma detect_create_new_mode_failure req status description :
  detect_create_new_mode req = inl (status, description) →
  status = status_bad_request ∧ m_error_code description = 4.
Proof.
  unfold detect_create_new_mode.
  destruct (content_type_field req) as [raw|]; [|by intros [= <- <-]].
  destruct (try_parse_content_type raw) as [ct|]; [|by intros [= <- <-]].
  repeat case_match; try done; by intros [= <- <-].
Qed.

(** What the business step of each task can end with. *)
Lemma get_specific_pet_step id w :
  let outcome := (as_json (get_specific_pet_action id) w).1 in
  (unknown_identity id w ∧
   outcome = inl (request_processing_failure_t status_not_found
                    (not_found_description id))) ∨
  (is_Some (tbl_pets (w_db w) !! id) ∧ ∃ success_body, outcome = inr success_body) ∨
  (∃ e, outcome = inl e ∧ is_sqlite_exception e ∧
        fault_free 1 (w_db w) = false).
Proof.
  unfold as_json, get_specific_pet_action, pet_not_found, unknown_identity,
    not_found_description, fault_free, get_pet, engine_call.
  exn_unfold.
  destruct (pending_faults (w_db w)) as [|[f|] rest]; simpl;
    try (right; right; by eexists);
    destruct (tbl_pets (w_db w) !! id) eqn:Hrow; simpl;
    try (by left); right; left; eauto.
Qed.

Lemma delete_specific_pet_step id w :
  let outcome := (as_json (delete_specific_pet_action id) w).1 in
  (unknown_identity id w ∧
   outcome = inl (request_processing_failure_t status_not_found
                    (not_found_description id))) ∨
  (is_Some (tbl_pets (w_db w) !! id) ∧ ∃ success_body, outcome = inr success_body) ∨
  (∃ e, outcome = inl e ∧ is_sqlite_exception e ∧
        fault_free 1 (w_db w) = false).
Proof.
  unfold as_json, delete_specific_pet_action, pet_not_found,
    unknown_identity, not_found_description, fault_free, delete_pet,
    exec_delete_pet_stmt, engine_call.
  exn_unfold.
  destruct (pending_faults (w_db w)) as [|[f|] rest]; simpl;
    try (right; right; by eexists);
    destruct (tbl_pets (w_db w) !! id) eqn:Hrow; simpl;
    try (by left); right; left; eauto.
Qed.

Lemma patch_specific_pet_step req id w :
  let outcome := (as_json (patch_specific_pet_action req id) w).1 in
  (unknown_identity id w ∧
   outcome = inl (request_processing_failure_t status_not_found
                    (not_found_description id))) ∨
  (is_Some (tbl_pets (w_db w) !! id) ∧ ∃ success_body, outcome = inr success_body) ∨
  (∃ e, outcome = inl e ∧ is_sqlite_exception e ∧
        fault_free 1 (w_db w) = false) ∨
  (∃ what, from_json_pet (body req) = inl (throws_ex_t what) ∧
           outcome = inl (json_dto_ex_t what)) ∨
  (∃ what, from_json_pet (body req) = inl (throws_other what) ∧
           outcome = inl (std_exception what)).
Proof.
  unfold as_json, patch_specific_pet_action, pet_not_found, decoded,
    unknown_identity, not_found_description, fault_free, update_pet,
    exec_update_pet_stmt, engine_call.
  exn_unfold.
  destruct (from_json_pet (body req)) as [[what|what]|pet]; simpl.
  { do 3 right. left. by exists what. }
  { do 4 right. by exists what. }
  destruct (pending_faults (w_db w)) as [|[f|] rest]; simpl;
    try (right; right; left; by eexists);
    destruct (tbl_pets (w_db w) !! id) eqn:Hrow; simpl;
    try (by left); right; left; eauto.
Qed.

Lemma create_new_pet_step req w e :
  (as_json (create_new_pet_action req) w).1 = inl e →
  match e with
  | request_processing_failure_t _ _ => False
  | _ => True
  end.
Proof.
  unfold as_json, create_new_pet_action, decoded. exn_unfold.
  destruct (from_json_pet (body req)) as [[what|what]|pet]; simpl;
    try (by intros [= <-]).
  destruct (DbLayer.create_new_pet pet (w_db w)) as [[e'|id] db'] eqn:Hrun;
    simpl; [|done].
  intros [= <-]. apply create_new_pet_throws in Hrun. by destruct e'.
Qed.

Lemma batch_create_new_pets_step req w :
  let outcome := (as_json (batch_create_new_pets_action req) w).1 in
  (no_uploaded_file req = true ∧
   outcome = inl (request_processing_failure_t status_bad_request
                    (FailureDescription 4 "no file with new pets found"))) ∨
  (no_uploaded_file req = false ∧
   match outcome with
   | inl (request_processing_failure_t _ _) => False
   | _ => True
   end).
Proof.
  unfold as_json, batch_create_new_pets_action, no_uploaded_file, decoded.
  destruct (enumerate_parts_with_files req take_file_part "")
    as [result content].
  destruct (negb (has_value result) || string_empty content); [by left|].
  right. split; [done|]. exn_unfold.
  destruct (from_json_bunch content) as [[what|what]|pets]; simpl; try done.
  destruct (create_bunch_of_pets pets (w_db w)) as [[e'|ids] db'] eqn:Hrun;
    simpl; [|done].
  apply create_bunch_of_pets_throws in Hrun. by destruct e'.
Qed.

Lemma get_all_pets_step w e :
  (as_json get_all_pets_action w).1 = inl e → is_sqlite_exception e.
Proof.
  unfold as_json, get_all_pets_action. exn_unfold.
  destruct (DbLayer.get_all_pets (w_db w)) as [[e'|pets] db'] eqn:Hrun;
    simpl; [|done].
  intros [= <-]. by eapply get_all_pets_throws.
Qed.

Lemma engine_call_scheduled_fault db f rest :
  pending_faults db = Some f :: rest →
  engine_call db =
    (inl (SQLite_Exception (fault_code f) (fault_ext_code f) (fault_str f)),
     with_faults rest db).
Proof. intros Hfaults. unfold engine_call. by rewrite Hfaults. Qed.

(** The first engine call of every gateway operation. *)
Lemma storage_fault_outcome (c : closure) w f rest :
  reaches_storage c →
  pending_faults (w_db w) = Some f :: rest →
  (business_step c w).1 =
    inl (SQLite_Exception (fault_code f) (fault_ext_code f) (fault_str f)).
Proof.
  intros Hreach Hfaults.
  pose proof (engine_call_scheduled_fault _ _ _ Hfaults) as Hcall.
  destruct c as [r|r|r id|r id|r id]; simpl in *.
  - unfold as_json, get_all_pets_action, DbLayer.get_all_pets. exn_unfold.
    destruct (scan_pets (w_db w)) as [|[id data] rows];
      cbn [get_all_loop]; exn_unfold; by rewrite Hcall.
  - destruct (detect_create_new_mode r) as [?|[|]]; [done| |].
    + unfold as_json, create_new_pet_action, decoded,
        DbLayer.create_new_pet, exec_create_new_stmt.
      destruct (from_json_pet (body r)) as [?|pet]; [done|].
      exn_unfold. by rewrite Hcall.
    + unfold as_json, batch_create_new_pets_action, decoded,
        create_bunch_of_pets.
      unfold no_uploaded_file, uploaded_file in Hreach.
      destruct (enumerate_parts_with_files r take_file_part "")
        as [result content].
      destruct Hreach as [-> Hdecode]. simpl in Hdecode.
      destruct (from_json_bunch content) as [?|pets]; [done|].
      exn_unfold. by rewrite Hcall.
  - unfold as_json, get_specific_pet_action, get_pet. exn_unfold.
    by rewrite Hcall.
  - unfold as_json, patch_specific_pet_action, decoded, update_pet,
      exec_update_pet_stmt.
    destruct (from_json_pet (body r)) as [?|pet]; [done|].
    exn_unfold. by rewrite Hcall.
  - unfold as_json, delete_specific_pet_action, delete_pet,
      exec_delete_pet_stmt.
    exn_unfold. by rewrite Hcall.
Qed.

Lemma decoding_fault_outcome (c : closure) w what :
  decoding_fault c what →
  (business_step c w).1 = inl (json_dto_ex_t what).
Proof.
  destruct c as [r|r|r id|r id|r id]; simpl; try done.
  - destruct (detect_create_new_mode r) as [?|[|]]; [done| |].
    + intros Hdecode. unfold as_json, create_new_pet_action, decoded.
      rewrite Hdecode. by exn_unfold.
    + unfold as_json, batch_create_new_pets_action, decoded,
        no_uploaded_file, uploaded_file.
      destruct (enumerate_parts_with_files r take_file_part "")
        as [result content].
      intros [-> Hdecode]. simpl in Hdecode. rewrite Hdecode. by exn_unfold.
  - intros Hdecode. unfold as_json, patch_specific_pet_action, decoded.
    rewrite Hdecode. by exn_unfold.
Qed.

Lemma unclassified_fault_outcome (c : closure) w what :
  unclassified_fault c what →
  (business_step c w).1 = inl (std_exception what).
Proof.
  destruct c as [r|r|r id|r id|r id]; simpl; try done.
  - destruct (detect_create_new_mode r) as [?|[|]]; [done| |].
    + intros Hdecode. unfold as_json, create_new_pet_action, decoded.
      rewrite Hdecode. by exn_unfold.
    + unfold as_json, batch_create_new_pets_action, decoded,
        no_uploaded_file, uploaded_file.
      destruct (enumerate_parts_with_files r take_file_part "")
        as [result content].
      intros [-> Hdecode]. simpl in Hdecode. rewrite Hdecode. by exn_unfold.
  - intros Hdecode. unfold as_json, patch_specific_pet_action, decoded.
    rewrite Hdecode. by exn_unfold.
Qed.

(** The failures a business step classifies itself. *)
Lemma classified_failure_origin (c : closure) w status description :
  (business_step c w).1 =
    inl (request_processing_failure_t status description) →
  match c with
  | do_get_specific_pet _ id | do_patch_specific_pet _ id
  | do_delete_specific_pet _ id =>
      unknown_identity id w ∧
      status = status_not_found ∧
      description = not_found_description id
  | do_create_new_pet req =>
      malformed_envelope req ∧
      status = status_bad_request ∧ m_error_code description = 4
  | do_get_all_pets _ => False
  end.
Proof.
  destruct c as [r|r|r id|r id|r id]; simpl.
  - intros Houtcome. by apply get_all_pets_step in Houtcome.
  - unfold malformed_envelope.
    destruct (detect_create_new_mode r) as [[status' description']|[|]]
      eqn:Hmode.
    + intros [= <- <-].
      destruct (detect_create_new_mode_failure _ _ _ Hmode) as [-> Hcode].
      eauto 6.
    + intros Houtcome. by apply create_new_pet_step in Houtcome.
    + destruct (batch_create_new_pets_step r w) as [[Hno ->]|[Hfile Hout]].
      * intros [= <- <-]. auto.
      * intros Houtcome. by rewrite Houtcome in Hout.
  - destruct (get_specific_pet_step id w)
      as [[Hun ->]|[[Hrow [v ->]]|(e & -> & He & Hff)]].
    + by intros [= <- <-].
    + done.
    + intros [= ->]. done.
  - destruct (patch_specific_pet_step r id w)
      as [[Hun ->]|[[Hrow [v ->]]|[(e & -> & He & Hff)|
          [(what & Hdec & ->)|(what & Hdec & ->)]]]]; try done.
    + by intros [= <- <-].
    + intros [= ->]. done.
  - destruct (delete_specific_pet_step id w)
      as [[Hun ->]|[[Hrow [v ->]]|(e & -> & He & Hff)]].
    + by intros [= <- <-].
    + done.
    + intros [= ->]. done.
Qed.

Lemma unknown_identity_outcome (c : closure) w :
  reaches_storage c →
  fault_free 1 (w_db w) = true →
  match c with
  | do_get_specific_pet _ id | do_patch_specific_pet _ id
  | do_delete_specific_pet _ id =>
      unknown_identity id w →
      (business_step c w).1 =
        inl (request_processing_failure_t status_not_found
               (not_found_description id))
  | _ => True
  end.
Proof.
  intros Hreach Hff.
  destruct c as [r|r|r id|r id|r id]; simpl in *; try done; intros Hun.
  - destruct (get_specific_pet_step id w)
      as [[_ ->]|[[Hrow _]|(e & _ & _ & Hff')]]; [done| |congruence].
    unfold unknown_identity in Hun. rewrite Hun in Hrow. by destruct Hrow.
  - destruct (patch_specific_pet_step r id w)
      as [[_ ->]|[[Hrow _]|[(e & _ & _ & Hff')|
          [(what & Hdec & _)|(what & Hdec & _)]]]]; [done| |congruence| |].
    + unfold unknown_identity in Hun. rewrite Hun in Hrow. by destruct Hrow.
    + by rewrite Hdec in Hreach.
    + by rewrite Hdec in Hreach.
  - destruct (delete_specific_pet_step id w)
      as [[_ ->]|[[Hrow _]|(e & _ & _ & Hff')]]; [done| |congruence].
    unfold unknown_identity in Hun. rewrite Hun in Hrow. by destruct Hrow.
Qed.

Lemma malformed_envelope_outcome req w :
  malformed_envelope req →
  ∃ message,
    (business_step (do_create_new_pet req) w).1 =
      inl (request_processing_failure_t status_bad_request
             (FailureDescription 4 message)).
Proof.
  unfold malformed_envelope. simpl.
  destruct (detect_create_new_mode req) as [[status description]|[|]]
    eqn:Hmode.
  - intros _.
    destruct (detect_create_new_mode_failure _ _ _ Hmode) as [-> Hcode].
    destruct description as [code message]. simpl in Hcode. subst code.
    by exists message.
  - intros [[failure ?]|[? _]]; done.
  - intros [[failure ?]|[_ Hno]]; [done|].
    destruct (batch_create_new_pets_step req w) as [[_ ->]|[Hfile _]];
      [by eexists|congruence].
Qed.

(** *** The envelope as the request describes it, and as the code sees it *)

Lemma single_envelope_detected r :
  single_create_envelope r → detect_create_new_mode r = inr single.
Proof.
  intros (raw & ct & Hfield & Hparse & Htype & Hsub).
  unfold detect_create_new_mode. by rewrite Hfield, Hparse, Htype, Hsub.
Qed.

Lemma batch_envelope_detected r :
  batch_create_envelope r → detect_create_new_mode r = inr batch.
Proof.
  intros (raw & ct & Hfield & Hparse & Htype & Hsub).
  unfold detect_create_new_mode. by rewrite Hfield, Hparse, Htype, Hsub.
Qed.

Lemma detected_batch_envelope r :
  detect_create_new_mode r = inr batch → batch_create_envelope r.
Proof.
  unfold detect_create_new_mode, batch_create_envelope, declares_media.
  destruct (content_type_field r) as [raw|]; [|done].
  destruct (try_parse_content_type raw) as [ct|] eqn:Hparse; [|done].
  destruct (bool_decide ("application" = type ct) &&
            bool_decide ("json" = subtype ct)); [done|].
  destruct (bool_decide ("multipart" = type ct) &&
            bool_decide ("form-data" = subtype ct)) eqn:Hmedia; [|done].
  intros _. apply andb_true_iff in Hmedia as [Ht%bool_decide_eq_true
                                               Hs%bool_decide_eq_true].
  by exists raw, ct.
Qed.

Lemma negotiation_defect_detected r d :
  d ≠ file_missing →
  has_defect r d →
  detect_create_new_mode r =
    inl (status_bad_request, FailureDescription 4 (defect_message d)).
Proof.
  intros Hd Hdefect. unfold detect_create_new_mode.
  destruct d; simpl in Hdefect; [| | |done].
  - by rewrite Hdefect.
  - destruct Hdefect as (raw & -> & ->). done.
  - destruct Hdefect as (raw & ct & -> & -> & Hjson & Hform).
    rewrite (proj2 (andb_false_iff _ _)).
    + by rewrite (proj2 (andb_false_iff _ _))
        by (rewrite !bool_decide_eq_false;
            destruct (decide ("multipart" = type ct));
            destruct (decide ("form-data" = subtype ct)); naive_solver).
    + rewrite !bool_decide_eq_false.
      destruct (decide ("application" = type ct));
        destruct (decide ("json" = subtype ct)); naive_solver.
Qed.

Lemma detected_failure_defect r status description :
  detect_create_new_mode r = inl (status, description) →
  ∃ d, has_defect r d ∧ status = status_bad_request ∧
       description = FailureDescription 4 (defect_message d).
Proof.
  unfold detect_create_new_mode.
  destruct (content_type_field r) as [raw|] eqn:Hfield.
  2:{ intros [= <- <-]. by exists content_type_absent. }
  destruct (try_parse_content_type raw) as [ct|] eqn:Hparse.
  2:{ intros [= <- <-]. exists content_type_unparsable. simpl. eauto. }
  destruct (bool_decide ("application" = type ct) &&
            bool_decide ("json" = subtype ct)) eqn:Hjson; [done|].
  destruct (bool_decide ("multipart" = type ct) &&
            bool_decide ("form-data" = subtype ct)) eqn:Hform; [done|].
  intros [= <- <-]. exists media_type_unsupported. split; [|done].
  exists raw, ct. split; [done|]. split; [done|].
  apply andb_false_iff in Hjson. apply andb_false_iff in Hform.
  rewrite !bool_decide_eq_false in Hjson, Hform. naive_solver.
Qed.

Lemma string_empty_true (doc : string) : string_empty doc = true ↔ doc = "".
Proof. by destruct doc. Qed.

(** The handler of the batch create, run over the parts, ends with the
    offered file in [uploaded_content], or with nothing. *)
Lemma enumeration_finds_offered_file parts files_found :
  let '(result, content) :=
    enumerate_loop take_file_part parts files_found "" in
  match offered_file parts with
  | Some doc => has_value result = true ∧ content = doc
  | None => content = ""
  end.
Proof.
  revert files_found.
  induction parts as [|[error|part] parts IH]; intros files_found.
  - simpl. by destruct files_found.
  - simpl. destruct error; try done; apply IH.
  - simpl. unfold take_file_part at 1.
    rewrite (bool_decide_ext ("file" = part_name part)
                             (part_name part = "file")) by done.
    destruct (bool_decide (part_name part = "file")); [done|]. apply IH.
Qed.

Lemma uploaded_document_found r :
  match uploaded_document r with
  | Some doc => no_uploaded_file r = false ∧ uploaded_file r = doc
  | None => no_uploaded_file r = true
  end.
Proof.
  unfold uploaded_document, no_uploaded_file, uploaded_file,
    enumerate_parts_with_files.
  destruct (multipart_parts r) as [error|parts]; [done|].
  pose proof (enumeration_finds_offered_file parts 0) as Hfound.
  destruct (enumerate_loop take_file_part parts 0 "") as [result content].
  destruct (offered_file parts) as [doc|].
  - destruct Hfound as [-> ->]. simpl. case_bool_decide as Hdoc.
    + by apply string_empty_true.
    + split; [|done]. destruct (string_empty doc) eqn:Hempty; [|done].
      by apply string_empty_true in Hempty.
  - subst content. by rewrite orb_true_r.
Qed.

Lemma payload_rejected_is_decoding_fault (c : closure) what :
  payload_rejected c what → decoding_fault c what.
Proof.
  destruct c as [r|r|r id|r id|r id]; simpl; try done.
  intros [[Hsingle Hdecode]|(Hbatch & doc & Hdoc & Hdecode)].
  - by rewrite (single_envelope_detected _ Hsingle).
  - rewrite (batch_envelope_detected _ Hbatch).
    pose proof (uploaded_document_found r) as Hfound.
    rewrite Hdoc in Hfound. destruct Hfound as [-> ->]. done.
Qed.

Lemma payload_crashes_is_unclassified_fault (c : closure) what :
  payload_crashes c what → unclassified_fault c what.
Proof.
  destruct c as [r|r|r id|r id|r id]; simpl; try done.
  intros [[Hsingle Hdecode]|(Hbatch & doc & Hdoc & Hdecode)].
  - by rewrite (single_envelope_detected _ Hsingle).
  - rewrite (batch_envelope_detected _ Hbatch).
    pose proof (uploaded_document_found r) as Hfound.
    rewrite Hdoc in Hfound. destruct Hfound as [-> ->]. done.
Qed.

Lemma payload_accepted_reaches_storage (c : closure) :
  payload_accepted c → reaches_storage c.
Proof.
  destruct c as [r|r|r id|r id|r id]; simpl; try done.
  - intros [[Hsingle [pet Hdecode]]|(Hbatch & doc & pets & Hdoc & Hdecode)].
    + rewrite (single_envelope_detected _ Hsingle). by rewrite Hdecode.
    + rewrite (batch_envelope_detected _ Hbatch).
      pose proof (uploaded_document_found r) as Hfound.
      rewrite Hdoc in Hfound. destruct Hfound as [-> ->].
      by rewrite Hdecode.
  - intros [pet ->]. done.
Qed.

Lemma defect_outcome r d w :
  has_defect r d →
  (business_step (do_create_new_pet r) w).1 =
    inl (request_processing_failure_t status_bad_request
           (FailureDescription 4 (defect_message d))).
Proof.
  intros Hdefect.
  assert (d = file_missing ∨ d ≠ file_missing) as [->|Hd]
    by (destruct d; auto).
  - destruct Hdefect as [Hbatch Hdoc]. simpl.
    rewrite (batch_envelope_detected _ Hbatch).
    pose proof (uploaded_document_found r) as Hfound.
    rewrite Hdoc in Hfound.
    destruct (batch_create_new_pets_step r w) as [[_ ->]|[Hfile _]];
      [done|congruence].
  - simpl. by rewrite (negotiation_defect_detected _ _ Hd Hdefect).
Qed.

Lemma classified_create_origin r w status description :
  (business_step (do_create_new_pet r) w).1 =
    inl (request_processing_failure_t status description) →
  ∃ d, has_defect r d ∧ status = status_bad_request ∧
       description = FailureDescription 4 (defect_message d).
Proof.
  simpl.
  destruct (detect_create_new_mode r) as [[status' description']|[|]]
    eqn:Hmode.
  - intros [= <- <-]. by apply detected_failure_defect.
  - intros Houtcome. by apply create_new_pet_step in Houtcome.
  - destruct (batch_create_new_pets_step r w) as [[Hno ->]|[Hfile Hout]].
    + intros [= <- <-]. exists file_missing. split; [|done].
      split; [by apply detected_batch_envelope|].
      pose proof (uploaded_document_found r) as Hfound.
      destruct (uploaded_document r); [|done].
      destruct Hfound as [Hfound _]. congruence.
    + intros Houtcome. by rewrite Houtcome in Hout.
Qed.

(** C3.  Running a task delivers exactly one response [rsp], the one the
    failure contract ([expected_response]) owes to the outcome of the
    task's business step: 200 with the serialised result, or the failure
    description that goes with the exception that stopped the step.  The
    conditions below describe the request, the decoders' verdict on its
    payload and the store; none of them is computed by the processor.  In
    the order of the claim:

    - a payload the decoder rejects ([json_dto::ex_t]) is answered 400
      with code 1: the body of a patch or of an [application/json] create,
      the uploaded document of a [multipart/form-data] create;
    - a storage fault ([SQLite::Exception]) is answered 500 with code 2:
      for every task with an accepted payload that finds a fault scheduled
      for its first engine call, and in general whenever the outcome of
      the step is an [SQLite::Exception];
    - an unknown identity on get, patch and delete is answered 404 with
      code 3;
    - a create whose envelope has a defect is answered 400 with code 4
      and the message of the defect: no Content-Type field, a field that
      does not parse, a media type other than [application/json] and
      [multipart/form-data], or a multipart body that offers no non-empty
      part named [file];
    - an exception of any other class is answered 500 with code -1 and
      the generic message.

    The last conjunct is the exactness of codes 3 and 4: a step classifies
    a failure itself only for an identity with no row in the table (get,
    patch, delete) and for a create envelope with one of the four
    defects. *)
Theorem failure_classification (c : closure) (w : world) :
  let req := request_of c in
  let outcome := (business_step c w).1 in
  ∃ rsp w',
    call_closure c w = (inr tt, w') ∧
    w_sent w' = w_sent w ++ [rsp] ∧
    rsp = expected_response req outcome ∧
    (∀ what, payload_rejected c what →
       rsp = failure_response req status_bad_request 1
               ("json-related-error: " +:+ what)) ∧
    (∀ f rest, payload_accepted c →
       pending_faults (w_db w) = Some f :: rest →
       rsp = failure_response req status_internal_server_error 2
               (sqlite_description f)) ∧
    (∀ r id, c = do_get_specific_pet r id ∨ c = do_patch_specific_pet r id ∨
             c = do_delete_specific_pet r id →
       payload_accepted c → fault_free 1 (w_db w) = true →
       unknown_identity id w →
       rsp = failure_response req status_not_found 3
               ("pet with this ID not found, ID=" +:+ pretty id)) ∧
    (∀ r d, c = do_create_new_pet r → has_defect r d →
       rsp = failure_response req status_bad_request 4 (defect_message d)) ∧
    (∀ what, payload_crashes c what →
       rsp = failure_response req status_internal_server_error (-1)
               "unexpected application failure") ∧
    match outcome with
    | inl (request_processing_failure_t status description) =>
        match c with
        | do_get_specific_pet _ id | do_patch_specific_pet _ id
        | do_delete_specific_pet _ id =>
            unknown_identity id w ∧
            status = status_not_found ∧
            description = not_found_description id
        | do_create_new_pet _ =>
            ∃ d, has_defect req d ∧
                 status = status_bad_request ∧
                 description = FailureDescription 4 (defect_message d)
        | do_get_all_pets _ => False
        end
    | _ => True
    end.
Proof.
  intros req outcome.
  pose proof (entry_point_runs_business_step c w) as Hrun.
  pose proof (business_step_keeps_sent c w) as Hsent.
  subst outcome. destruct (business_step c w) as [outcome w'] eqn:Hstep.
  simpl in Hrun, Hsent.
  exists (expected_response req outcome),
         (deliver (expected_response req outcome) w').
  split; [exact Hrun|]. split; [simpl; by rewrite Hsent|].
  split; [done|].
  assert ((business_step c w).1 = outcome) as Houtcome by by rewrite Hstep.
  clear Hstep Hrun Hsent. cbn [fst].
  repeat apply conj.
  - intros what Hfault%payload_rejected_is_decoding_fault.
    rewrite (decoding_fault_outcome c w what Hfault) in Houtcome.
    by subst outcome.
  - intros f rest Hreach%payload_accepted_reaches_storage Hfaults.
    rewrite (storage_fault_outcome c w f rest Hreach Hfaults) in Houtcome.
    by subst outcome.
  - intros r id Hc Hreach%payload_accepted_reaches_storage Hff Hun.
    pose proof (unknown_identity_outcome c w Hreach Hff) as Hout.
    subst req. destruct Hc as [-> | [-> | ->]];
      rewrite (Hout Hun) in Houtcome; by subst outcome.
  - intros r d Hc Hdefect. subst req c.
    rewrite (defect_outcome r d w Hdefect) in Houtcome. by subst outcome.
  - intros what Hfault%payload_crashes_is_unclassified_fault.
    rewrite (unclassified_fault_outcome c w what Hfault) in Houtcome.
    by subst outcome.
  - destruct outcome as [[| |status description|]|]; try done.
    destruct c as [r|r|r id|r id|r id]; subst req.
    + by pose proof (classified_failure_origin _ w _ _ Houtcome).
    + by apply (classified_create_origin r w).
    + exact (classified_failure_origin _ w _ _ Houtcome).
    + exact (classified_failure_origin _ w _ _ Houtcome).
    + exact (classified_failure_origin _ w _ _ Houtcome).
Qed.

Lemma enumerate_loop_empty_content parts files_found :
  file_part_body parts = None ∨ file_part_body parts = Some "" →
  (enumerate_loop take_file_part parts files_found "").2 = "".
Proof.
  revert files_found.
  induction parts as [|[error|part] parts IH]; intros files_found Hfile.
  - done.
  - simpl in *. destruct error; try done; by apply IH.
  - simpl in *. unfold take_file_part at 1.
    destruct (bool_decide ("file" = part_name part)).
    + destruct Hfile as [?|[= ->]]; done.
    + by apply IH.
Qed.

(** C9.  A batch create (content type multipart/form-data) whose first
    part named [file] has an empty body is answered 400 with code 4 and
    the message for a missing file; the storage gateway is left exactly as
    it was, no engine call having been made. *)
Theorem empty_file_part_is_rejected (req : request_t) (w : world) parts :
  detect_create_new_mode req = inr batch →
  multipart_parts req = inr parts →
  file_part_body parts = Some "" →
  on_create_new_pet req w =
    (inr tt,
     deliver (failure_response req status_bad_request 4
                "no file with new pets found") w).
Proof.
  intros Hmode Hparts Hfile.
  pose proof (entry_point_runs_business_step (do_create_new_pet req) w)
    as Hrun.
  simpl in Hrun. rewrite Hrun, Hmode. clear Hrun.
  unfold as_json, batch_create_new_pets_action, enumerate_parts_with_files.
  rewrite Hparts.
  pose proof (enumerate_loop_empty_content parts 0 (or_intror Hfile))
    as Hcontent.
  destruct (enumerate_loop take_file_part parts 0 "") as [result content].
  simpl in Hcontent. subst content.
  rewrite orb_true_r. exn_unfold. by destruct w.
Qed.

(** The same answer is given when no part is named [file]. *)
Lemma missing_file_part_is_rejected (req : request_t) (w : world) parts :
  detect_create_new_mode req = inr batch →
  multipart_parts req = inr parts →
  file_part_body parts = None →
  on_create_new_pet req w =
    (inr tt,
     deliver (failure_response req status_bad_request 4
                "no file with new pets found") w).
Proof.
  intros Hmode Hparts Hfile.
  pose proof (entry_point_runs_business_step (do_create_new_pet req) w)
    as Hrun.
  simpl in Hrun. rewrite Hrun, Hmode. clear Hrun.
  unfold as_json, batch_create_new_pets_action, enumerate_parts_with_files.
  rewrite Hparts.
  pose proof (enumerate_loop_empty_content parts 0 (or_introl Hfile))
    as Hcontent.
  destruct (enumerate_loop take_file_part parts 0 "") as [result content].
  simpl in Hcontent. subst content.
  rewrite orb_true_r. exn_unfold. by destruct w.
Qed.

Lemma create_bunch_of_no_pets db :
  fault_free 2 db = true →
  create_bunch_of_pets (BunchOfPets []) db =
    (inr (BunchOfPetIds []), with_faults (drop 2 (pending_faults db)) db).
Proof.
  unfold fault_free, create_bunch_of_pets, engine_call. simpl. exn_unfold.
  destruct db as [tbl seq last [|[f|] [|[f'|] rest]]]; simpl; done.
Qed.

(** C10.  A batch create whose uploaded file decodes to an envelope with
    an empty list of pets succeeds when no storage fault occurs: the
    transaction is begun and committed (two engine calls), the answer is
    200 with an empty list of identities, and the table and its rowid
    sequence are unchanged. *)
Theorem empty_batch_succeeds (req : request_t) (w : world) :
  detect_create_new_mode req = inr batch →
  no_uploaded_file req = false →
  from_json_bunch (uploaded_file req) = inr (BunchOfPets []) →
  fault_free 2 (w_db w) = true →
  ∃ db',
    create_bunch_of_pets (BunchOfPets []) (w_db w)
      = (inr (BunchOfPetIds []), db') ∧
    on_create_new_pet req w =
      (inr tt,
       deliver (Response req status_ok "application/json"
                  (JObj [("ids", JArr [])]))
               (set_db db' w)) ∧
    tbl_pets db' = tbl_pets (w_db w) ∧
    seq_pets db' = seq_pets (w_db w) ∧
    pending_faults db' = drop 2 (pending_faults (w_db w)).
Proof.
  intros Hmode Hfile Hdecode Hff.
  pose proof (create_bunch_of_no_pets _ Hff) as Hdb.
  eexists. split; [exact Hdb|]. split; [|done].
  pose proof (entry_point_runs_business_step (do_create_new_pet req) w)
    as Hrun.
  simpl in Hrun. rewrite Hrun, Hmode. clear Hrun.
  unfold as_json, batch_create_new_pets_action.
  unfold no_uploaded_file, uploaded_file in *.
  destruct (enumerate_parts_with_files req take_file_part "")
    as [result content].
  simpl in Hdecode. rewrite Hfile, Hdecode. unfold decoded.
  exn_unfold. by rewrite Hdb.
Qed.

Lemma closure_returns (c : closure) w :
  ∃ w', call_closure c w = (inr tt, w').
Proof.
  rewrite entry_point_runs_business_step.
  destruct (business_step c w) as [outcome w']. by eexists.
Qed.

(** A worker that only finds tasks built by the router never has an
    exception leave [worker_thread_func]. *)
Lemma worker_is_never_terminated fuel (queue : task_queue_t) w e :
  Forall (λ msg, is_Some (m_task msg)) (m_queue queue) →
  (worker_thread_func fuel queue w).1.1 ≠ worker_terminated e.
Proof.
  revert queue w. induction fuel as [|fuel IH]; intros queue w Htasks.
  - done.
  - simpl. unfold pop. destruct (m_closed queue); [done|].
    destruct (m_queue queue) as [|msg rest] eqn:Hitems; [done|].
    apply Forall_cons in Htasks as [[c Hc] Hrest].
    unfold invoke. rewrite Hc.
    destruct (closure_returns c w) as [w' ->]. by apply IH.
Qed.

End ProcessorFacts.

(** ** The worker pool *)

Section PoolFacts.
Context {libraries : Collaborators}.

Lemma worker_returns_on_closed_queue fuel (queue : task_queue_t) w :
  m_closed queue = true →
  worker_thread_func (S fuel) queue w = (worker_returned, queue, w).
Proof. intros Hclosed. simpl. unfold pop. by rewrite Hclosed. Qed.

Lemma join_worker_after_close t s :
  m_closed (sys_queue s) = true →
  join_worker t s =
    Some {| sys_queue := sys_queue s;
            sys_world := sys_world s;
            sys_running := sys_running s ∖ {[thread_id t]};
            sys_started := sys_started s;
            sys_thread_budget := sys_thread_budget s;
            sys_log := sys_log s ++ [thread_joined (thread_id t)] |}.
Proof.
  intros Hclosed. unfold join_worker.
  by rewrite worker_returns_on_closed_queue.
Qed.

Lemma join_each_after_close ids s :
  m_closed (sys_queue s) = true →
  join_each join_worker ((λ id, StdThread id true) <$> ids) s =
    Some {| sys_queue := sys_queue s;
            sys_world := sys_world s;
            sys_running := sys_running s ∖ list_to_set ids;
            sys_started := sys_started s;
            sys_thread_budget := sys_thread_budget s;
            sys_log := sys_log s ++ (thread_joined <$> ids) |}.
Proof.
  revert s. induction ids as [|id ids IH]; intros s Hclosed.
  - simpl. rewrite app_nil_r, difference_empty_L. by destruct s.
  - cbn [fmap list_fmap join_each joinable].
    rewrite join_worker_after_close by done.
    rewrite IH by done. simpl. f_equal. f_equal.
    + set_solver.
    + by rewrite <- app_assoc.
Qed.

Lemma after_starts_step k s budget :
  sys_thread_budget s = S budget →
  after_starts k
    {| sys_queue := sys_queue s;
       sys_world := sys_world s;
       sys_running := {[sys_started s]} ∪ sys_running s;
       sys_started := S (sys_started s);
       sys_thread_budget := budget;
       sys_log := sys_log s ++ [thread_started (sys_started s)] |}
  = after_starts (S k) s.
Proof.
  intros Hbudget. unfold after_starts. simpl. rewrite Hbudget. f_equal.
  - set_solver.
  - lia.
  - by rewrite <- app_assoc.
Qed.

Lemma after_starts_zero s : after_starts 0 s = s.
Proof.
  unfold after_starts. destruct s. simpl. f_equal.
  - set_solver.
  - lia.
  - lia.
  - by rewrite app_nil_r.
Qed.

(** The loop of the constructor: it starts workers until the count is
    reached or the system refuses a start. *)
Lemma emplace_threads_run thread_count pool s :
  emplace_threads start_worker thread_count (pool, s) =
    let k := Nat.min thread_count (sys_thread_budget s) in
    (if decide (thread_count ≤ sys_thread_budget s)%nat then inr tt
     else inl (std_exception "Resource temporarily unavailable"),
     ({| m_threads := m_threads pool ++ started_threads (sys_started s) k |},
      after_starts k s)).
Proof.
  revert pool s. induction thread_count as [|n IH]; intros pool s.
  - simpl. unfold started_threads. simpl.
    rewrite app_nil_r, after_starts_zero. by destruct pool.
  - cbn [emplace_threads]. unfold start_worker at 1.
    destruct (sys_thread_budget s) as [|budget] eqn:Hbudget.
    + rewrite Nat.min_0_r. unfold started_threads. simpl.
      rewrite app_nil_r, after_starts_zero. by destruct pool.
    + rewrite IH. cbn [sys_started sys_thread_budget m_threads].
      rewrite after_starts_step by done.
      replace (Nat.min (S n) (S budget)) with (S (Nat.min n budget)) by lia.
      f_equal; [by repeat case_decide; try lia|].
      f_equal. f_equal. rewrite <- app_assoc. done.
Qed.

Lemma shutdowner_closes_queue s : m_closed (sys_queue (my_shutdowner_t s)) = true.
Proof. simpl. apply close_sets_closed. Qed.

(** C5.  Let the start of the [K]-th of [N] workers fail (the system lets
    the process start [K - 1] more threads).  Then the constructor

    - starts workers [1 .. K-1] and, when there are any, signals the
      shutdown and then joins each of them, in this order and before it
      rethrows;
    - reports the failure (the exception of the failed start);
    - leaves none of the workers it started running, and no task run. *)
Theorem failed_pool_start_leaves_no_worker (N K : nat) (s : system) :
  (1 ≤ K ≤ N)%nat →
  sys_thread_budget s = (K - 1)%nat →
  let ids := seq (sys_started s) (K - 1) in
  ∃ e s',
    my_thread_pool_ctor N s = Some (inl e, s') ∧
    sys_log s' =
      sys_log s ++ (thread_started <$> ids) ++
      match ids with
      | [] => []
      | _ :: _ => shutdown_signalled :: (thread_joined <$> ids)
      end ∧
    sys_running s' = sys_running s ∖ list_to_set ids ∧
    (∀ id, id ∈ ids → id ∉ sys_running s') ∧
    sys_world s' = sys_world s.
Proof.
  intros HK Hbudget ids.
  unfold my_thread_pool_ctor, thread_pool_ctor.
  rewrite emplace_threads_run. rewrite Hbudget.
  replace (Nat.min N (K - 1)) with (K - 1)%nat by lia.
  rewrite decide_False by lia. cbn [m_threads app].
  unfold shutdown_then_join, started_threads. cbn [m_threads].
  subst ids. destruct (K - 1)%nat as [|k].
  - (* K = 1: no worker was started, there is nothing to shut down *)
    simpl. eexists _, _. split; [reflexivity|].
    unfold after_starts. simpl.
    rewrite app_nil_r. repeat split; set_solver.
  - set (ids := seq (sys_started s) (S k)).
    change ((λ id, StdThread id true) <$> ids) with
      (StdThread (sys_started s) true ::
         ((λ id, StdThread id true) <$> seq (S (sys_started s)) k)) at 1.
    cbv iota.
    rewrite join_each_after_close by apply shutdowner_closes_queue.
    eexists _, _. split; [reflexivity|].
    unfold after_starts. fold ids. simpl.
    repeat split.
    + by rewrite <- !app_assoc.
    + set_solver.
    + set_solver.
Qed.

End PoolFacts.

Lemma failed_pool_start_witness :
  (1 ≤ 3 ≤ 3)%nat ∧
  sys_thread_budget (idle_system 2) = (3 - 1)%nat ∧
  ∃ e s',
    my_thread_pool_ctor (H := demo_collaborators) 3 (idle_system 2)
      = Some (inl e, s') ∧
    sys_log s' = [thread_started 0%nat; thread_started 1%nat;
                  shutdown_signalled;
                  thread_joined 0%nat; thread_joined 1%nat] ∧
    sys_running s' = ∅.
Proof.
  split; [lia|]. split; [reflexivity|].
  destruct (failed_pool_start_leaves_no_worker
              (libraries := demo_collaborators) 3 3 (idle_system 2))
    as (e & s' & Hctor & Hlog & Hrunning & _); [lia | reflexivity |].
  exists e, s'. split; [exact Hctor|]. split; [exact Hlog|].
  rewrite Hrunning. apply difference_disjoint_L. set_solver.
Defined.

(** *** The statements on concrete requests *)

Lemma failure_classification_witness :
  (* code 1: a payload the decoder rejects *)
  (payload_rejected (H := demo_collaborators)
     (do_create_new_pet post_empty_json) "the document is empty" ∧
   answered_with (H := demo_collaborators)
     (do_create_new_pet post_empty_json) fresh_world
     (failure_response post_empty_json status_bad_request 1
        "json-related-error: the document is empty")) ∧
  (* code 2: a storage fault *)
  (payload_accepted (H := demo_collaborators) (do_create_new_pet post_bunny) ∧
   answered_with (H := demo_collaborators)
     (do_create_new_pet post_bunny) failing_world
     (failure_response post_bunny status_internal_server_error 2
        "sqlite-related-error: error_code=10, ext_error_code=266, desc='disk I/O error'")) ∧
  (* code 3: an unknown identity *)
  (unknown_identity 999 fresh_world ∧
   fault_free 1 (w_db fresh_world) = true ∧
   answered_with (H := demo_collaborators)
     (do_get_specific_pet plain_get 999) fresh_world
     (failure_response plain_get status_not_found 3
        "pet with this ID not found, ID=999")) ∧
  (* code 4: the four defects of a create envelope *)
  (has_defect (H := demo_collaborators) post_without_type content_type_absent ∧
   answered_with (H := demo_collaborators)
     (do_create_new_pet post_without_type) fresh_world
     (failure_response post_without_type status_bad_request 4
        "Content-Type HTTP-field is absent")) ∧
  (has_defect (H := demo_collaborators)
     post_garbled_type content_type_unparsable ∧
   answered_with (H := demo_collaborators)
     (do_create_new_pet post_garbled_type) fresh_world
     (failure_response post_garbled_type status_bad_request 4
        "unable to parse Content-Type HTTP-field")) ∧
  (has_defect (H := demo_collaborators)
     Lifecycle.post_as_text media_type_unsupported ∧
   answered_with (H := demo_collaborators)
     (do_create_new_pet Lifecycle.post_as_text) fresh_world
     (failure_response Lifecycle.post_as_text status_bad_request 4
        "unsupported value of Content-Type")) ∧
  (has_defect (H := demo_collaborators) empty_upload file_missing ∧
   answered_with (H := demo_collaborators)
     (do_create_new_pet empty_upload) fresh_world
     (failure_response empty_upload status_bad_request 4
        "no file with new pets found")) ∧
  (* code -1: an exception of another class *)
  (payload_crashes (H := crashing_collaborators)
     (do_create_new_pet post_bunny) "std::bad_alloc" ∧
   answered_with (H := crashing_collaborators)
     (do_create_new_pet post_bunny) fresh_world
     (failure_response post_bunny status_internal_server_error (-1)
        "unexpected application failure")).
Proof.
  assert (∀ raw t s,
            demo_try_parse_content_type raw = Some (MediaType t s) →
            ∀ id content,
              declares_media (H := demo_collaborators)
                (Request id (Some raw) content) t s) as Hmedia.
  { intros raw t s Hparse id content.
    exists raw, (MediaType t s). repeat split. exact Hparse. }
  repeat apply conj.
  - left. split; [by apply Hmedia|reflexivity].
  - destruct (failure_classification (H := demo_collaborators)
                (do_create_new_pet post_empty_json) fresh_world)
      as (rsp & w' & Hrun & Hsent & _ & Hrejected & _).
    exists w'. split; [exact Hrun|]. rewrite Hsent.
    rewrite (Hrejected "the document is empty").
    + reflexivity.
    + left. split; [by apply Hmedia|reflexivity].
  - left. split; [by apply Hmedia|]. eexists. reflexivity.
  - destruct (failure_classification (H := demo_collaborators)
                (do_create_new_pet post_bunny) failing_world)
      as (rsp & w' & Hrun & Hsent & _ & _ & Hstorage & _).
    exists w'. split; [exact Hrun|]. rewrite Hsent.
    rewrite (Hstorage (SqliteFault 10 266 "disk I/O error") []).
    + reflexivity.
    + left. split; [by apply Hmedia|]. eexists. reflexivity.
    + reflexivity.
  - reflexivity.
  - reflexivity.
  - destruct (failure_classification (H := demo_collaborators)
                (do_get_specific_pet plain_get 999) fresh_world)
      as (rsp & w' & Hrun & Hsent & _ & _ & _ & Hunknown & _).
    exists w'. split; [exact Hrun|]. rewrite Hsent.
    rewrite (Hunknown plain_get 999 (or_introl eq_refl) I eq_refl eq_refl).
    reflexivity.
  - reflexivity.
  - destruct (failure_classification (H := demo_collaborators)
                (do_create_new_pet post_without_type) fresh_world)
      as (rsp & w' & Hrun & Hsent & _ & _ & _ & _ & Hdefect & _).
    exists w'. split; [exact Hrun|]. rewrite Hsent.
    rewrite (Hdefect post_without_type content_type_absent eq_refl eq_refl).
    reflexivity.
  - eexists. split; reflexivity.
  - destruct (failure_classification (H := demo_collaborators)
                (do_create_new_pet post_garbled_type) fresh_world)
      as (rsp & w' & Hrun & Hsent & _ & _ & _ & _ & Hdefect & _).
    exists w'. split; [exact Hrun|]. rewrite Hsent.
    rewrite (Hdefect post_garbled_type content_type_unparsable eq_refl).
    + reflexivity.
    + eexists. split; reflexivity.
  - exists "text/plain", (MediaType "text" "plain").
    repeat split; intros [Htype _]; discriminate Htype.
  - destruct (failure_classification (H := demo_collaborators)
                (do_create_new_pet Lifecycle.post_as_text) fresh_world)
      as (rsp & w' & Hrun & Hsent & _ & _ & _ & _ & Hdefect & _).
    exists w'. split; [exact Hrun|]. rewrite Hsent.
    rewrite (Hdefect Lifecycle.post_as_text media_type_unsupported eq_refl).
    + reflexivity.
    + exists "text/plain", (MediaType "text" "plain").
      repeat split; intros [Htype _]; discriminate Htype.
  - by apply Hmedia.
  - reflexivity.
  - destruct (failure_classification (H := demo_collaborators)
                (do_create_new_pet empty_upload) fresh_world)
      as (rsp & w' & Hrun & Hsent & _ & _ & _ & _ & Hdefect & _).
    exists w'. split; [exact Hrun|]. rewrite Hsent.
    rewrite (Hdefect empty_upload file_missing eq_refl).
    + reflexivity.
    + split; [by apply Hmedia|reflexivity].
  - left. split; [|reflexivity].
    exists "application/json", (MediaType "application" "json").
    repeat split.
  - destruct (failure_classification (H := crashing_collaborators)
                (do_create_new_pet post_bunny) fresh_world)
      as (rsp & w' & Hrun & Hsent & _ & _ & _ & _ & _ & Hcrash & _).
    exists w'. split; [exact Hrun|]. rewrite Hsent.
    rewrite (Hcrash "std::bad_alloc").
    + reflexivity.
    + left. split; [|reflexivity].
      exists "application/json", (MediaType "application" "json").
      repeat split.
Defined.

Lemma empty_file_part_witness :
  detect_create_new_mode (H := demo_collaborators) empty_upload = inr batch ∧
  file_part_body [inr (PartDescription "file" "")] = Some "" ∧
  on_create_new_pet (H := demo_collaborators) empty_upload fresh_world =
    (inr tt,
     deliver (failure_response empty_upload status_bad_request 4
                "no file with new pets found") fresh_world).
Proof.
  split; [reflexivity|]. split; [reflexivity|].
  apply (empty_file_part_is_rejected (H := demo_collaborators)
           empty_upload fresh_world [inr (PartDescription "file" "")]);
    reflexivity.
Defined.

Lemma empty_batch_witness :
  detect_create_new_mode (H := demo_collaborators) upload_of_no_pets
    = inr batch ∧
  no_uploaded_file (H := demo_collaborators) upload_of_no_pets = false ∧
  from_json_bunch (Collaborators := demo_collaborators)
    (uploaded_file (H := demo_collaborators) upload_of_no_pets)
    = inr (BunchOfPets []) ∧
  fault_free 2 (w_db fresh_world) = true ∧
  on_create_new_pet (H := demo_collaborators) upload_of_no_pets fresh_world =
    (inr tt,
     deliver (Response upload_of_no_pets status_ok "application/json"
                (JObj [("ids", JArr [])])) fresh_world).
Proof.
  split; [reflexivity|]. split; [reflexivity|]. split; [reflexivity|].
  split; [reflexivity|].
  destruct (empty_batch_succeeds (H := demo_collaborators)
              upload_of_no_pets fresh_world)
    as (db' & Hdb & Hrun & _);
    [reflexivity | reflexivity | reflexivity | reflexivity |].
  rewrite Hrun. injection Hdb as <-. reflexivity.
Defined.

(** *** The end-to-end scenario of the specification

    With the stand-in decoders: a pet is created, read back, deleted, and
    then no longer found; a scheduled I/O error is answered with code 2. *)

Example scenario_statuses :
  (λ rsp, status_code (rsp_status rsp)) <$> w_sent (run_scenario scenario fresh_world)
    = [200; 200; 404; 200; 404].
Proof. vm_compute. reflexivity. Qed.

Example scenario_bodies :
  rsp_body <$> take 3 (w_sent (run_scenario scenario fresh_world)) =
    [JObj [("id", JInt 1)];
     JObj [("id", JInt 1); ("name", JStr "Bunny"); ("type", JStr "dog");
           ("owner", JStr "John Smith"); ("picture", JStr "bunny.jpg")];
     JObj [("code", JInt 3);
           ("description", JStr "pet with this ID not found, ID=999")]].
Proof. vm_compute. reflexivity. Qed.

Example storage_fault_is_code_2 :
  rsp_body <$> w_sent
    (run_scenario [do_get_all_pets plain_get]
       {| w_db := with_faults [Some (SqliteFault 10 266 "disk I/O error")]
                    two_pets_db;
          w_sent := [] |}) =
    [JObj [("code", JInt 2);
           ("description",
            JStr "sqlite-related-error: error_code=10, ext_error_code=266, desc='disk I/O error'")]].
Proof. vm_compute. reflexivity. Qed.

(** A fault in the middle of a batch leaves the table as it was. *)
Example batch_fault_rolls_back :
  let db := with_faults [None; None; None; Some (SqliteFault 10 266 "disk I/O error")]
              two_pets_db in
  let '(outcome, db') := create_bunch_of_pets (BunchOfPets [bunny; kitty]) db in
  outcome = inl (SQLite_Exception 10 266 "disk I/O error") ∧
  tbl_pets db' = tbl_pets two_pets_db ∧
  seq_pets db' = seq_pets two_pets_db.
Proof. vm_compute. done. Qed.

(* ================================================================== *)
(** * Further properties of the code                                    *)
(* ================================================================== *)

Import Lifecycle.

(** ** The message queue under arbitrary traces *)

Section QueueTraceFacts.
Context {T : Type}.
Implicit Types (q : message_queue_t T) (receiver : T).

(** X1.  A closed queue is frozen: whatever calls follow ([push], [pop],
    [close], in any order and number), the pending sequence and the flag
    stay as they are, every [pop] reports [queue_closed], and the receiver
    is never written. *)
Theorem closed_queue_is_frozen (calls : list (queue_call T)) receiver q :
  m_closed q = true →
  run_calls calls receiver q =
    Some (replicate (pop_count calls) got_closed, receiver, q).
Proof.
  intros Hclosed. induction calls as [|c calls IH]; [done|].
  destruct c as [what| |]; simpl.
  - unfold push. rewrite Hclosed. simpl. exact IH.
  - unfold pop. rewrite Hclosed. by rewrite IH.
  - unfold close. rewrite Hclosed. simpl. exact IH.
Qed.

(** X2.  On an open queue no item is lost, duplicated or reordered as long
    as nobody closes it: after any trace of pushes and pops that does not
    park, the items handed out followed by the items still pending are the
    items that were pending before followed by the items pushed; the queue
    is still open and no pop reported [queue_closed]. *)
Theorem open_queue_conserves_items (calls : list (queue_call T))
    receiver q reports receiver' q' :
  m_closed q = false →
  Forall (λ c, is_close c = false) calls →
  run_calls calls receiver q = Some (reports, receiver', q') →
  m_closed q' = false ∧
  popped_items reports ++ m_queue q' = m_queue q ++ pushed_items calls ∧
  got_closed ∉ reports.
Proof.
  revert receiver q reports.
  induction calls as [|c calls IH]; intros receiver q reports Hopen Hcalls.
  - intros [= <- <- <-]. simpl. rewrite app_nil_r. split; [done|].
    split; [done|]. apply not_elem_of_nil.
  - apply Forall_cons in Hcalls as [Hc Hcalls].
    destruct c as [what| |]; [| |done]; simpl.
    + unfold push at 1. rewrite Hopen. simpl. intros Hrun.
      apply IH in Hrun; [|done|done]. simpl in Hrun.
      destruct Hrun as (Hopen' & Hitems & Hnone).
      split; [done|]. split; [|done].
      rewrite Hitems.
      change (pushed_items (call_push what :: calls))
        with ([what] ++ pushed_items calls).
      by rewrite <- app_assoc.
    + unfold pop. rewrite Hopen.
      destruct (m_queue q) as [|front rest] eqn:Hq; [done|].
      destruct (run_calls calls front {| m_queue := rest; m_closed := false |})
        as [[[reports0 receiver0] q0]|] eqn:Hrun; [|done].
      intros [= <- <- <-].
      apply IH in Hrun; [|done|done]. simpl in Hrun.
      destruct Hrun as (Hopen' & Hitems & Hnone).
      split; [done|]. split.
      * change (front :: (popped_items reports0 ++ m_queue q0) =
                front :: (rest ++ pushed_items calls)).
        by rewrite Hitems.
      * intros [?|?]%elem_of_cons; [done|]. by apply Hnone.
Qed.

(** X3.  [close()] is idempotent: after a first close the flag is set and
    the pending items are kept; a second close changes nothing and wakes
    nobody.  The first close wakes all waiters exactly when the queue was
    open. *)
Theorem close_is_idempotent q :
  m_closed (close q).1 = true ∧
  m_queue (close q).1 = m_queue q ∧
  close (close q).1 = ((close q).1, []) ∧
  ((close q).2 = [notify_all] ↔ m_closed q = false).
Proof.
  unfold close. destruct (m_closed q) eqn:Hclosed; simpl.
  - rewrite Hclosed. simpl. repeat split; done.
  - repeat split; done.
Qed.

(** X4.  A consumer that finds an open queue empty stays in [pop]; a
    [push] then notifies one waiter, whose [pop] returns exactly the pushed
    item and leaves the queue empty again; a [close] instead notifies all
    waiters, whose [pop]s return [queue_closed]. *)
Theorem parked_pop_is_released (what : T) receiver q :
  m_closed q = false →
  m_queue q = [] →
  pop receiver q = None ∧
  (push what q).2 = [notify_one] ∧
  pop receiver (push what q).1 = Some (extracted, what, q) ∧
  (close q).2 = [notify_all] ∧
  pop receiver (close q).1 = Some (queue_closed, receiver, (close q).1).
Proof.
  destruct q as [items closed]. simpl. intros -> ->.
  unfold pop, push, close. simpl. repeat split; done.
Qed.

End QueueTraceFacts.

Lemma closed_queue_is_frozen_witness :
  m_closed {| m_queue := [4; 5]; m_closed := true |} = true ∧
  run_calls (T := Z) [call_push 6; call_pop; call_close; call_pop] 0
    {| m_queue := [4; 5]; m_closed := true |} =
    Some ([got_closed; got_closed], 0,
          {| m_queue := [4; 5]; m_closed := true |}).
Proof.
  split; [reflexivity|].
  apply (closed_queue_is_frozen (T := Z)
           [call_push 6; call_pop; call_close; call_pop] 0).
  reflexivity.
Defined.

Lemma open_queue_conserves_items_witness :
  popped_items (T := Z) [got 1; got 2] ++ [3] = [1] ++ pushed_items [call_push 2; call_pop; call_push 3; call_pop].
Proof.
  pose proof (open_queue_conserves_items (T := Z)
                [call_push 2; call_pop; call_push 3; call_pop] 0
                {| m_queue := [1]; m_closed := false |}
                [got 1; got 2] 2 {| m_queue := [3]; m_closed := false |})
    as Hspec.
  apply Hspec; [reflexivity | | reflexivity].
  repeat constructor.
Defined.

Lemma parked_pop_is_released_witness :
  pop (T := Z) 0 (push 7 empty_queue).1 = Some (extracted, 7, empty_queue).
Proof.
  apply (parked_pop_is_released (T := Z) 7 0 empty_queue); reflexivity.
Defined.

(** ** The worker loop and the life of the pool *)

Section WorkerFacts.
Context {libraries : Collaborators}.

Lemma call_closure_appends (c : closure) w :
  ∃ rsp,
    (call_closure c w).1 = inr tt ∧
    w_sent (call_closure c w).2 = w_sent w ++ [rsp] ∧
    rsp_request rsp = request_of c ∧
    rsp_content_type rsp = "application/json".
Proof.
  rewrite entry_point_runs_business_step.
  pose proof (business_step_keeps_sent c w) as Hsent.
  destruct (business_step c w) as [outcome w']. simpl in *.
  eexists. split; [reflexivity|]. rewrite Hsent. split; [reflexivity|].
  by destruct outcome as [[]|].
Qed.

Lemma run_tasks_responses (cs : list closure) w :
  ∃ rsps,
    w_sent (run_tasks cs w) = w_sent w ++ rsps ∧
    rsp_request <$> rsps = request_of <$> cs.
Proof.
  revert w. induction cs as [|c cs IH]; intros w.
  - exists []. by rewrite app_nil_r.
  - destruct (call_closure_appends c w) as (rsp & _ & Hsent & Hreq & _).
    destruct (IH (call_closure c w).2) as (rsps & Hrest & Hreqs).
    exists (rsp :: rsps). simpl. fold (run_tasks cs (call_closure c w).2).
    rewrite Hrest, Hsent, <- app_assoc. split; [done|].
    cbn [fmap list_fmap]. f_equal; [exact Hreq | exact Hreqs].
Qed.

Lemma worker_runs_front_task fuel (c : closure) (rest : list task_t) w :
  worker_thread_func (S fuel)
    {| m_queue := Task (Some c) :: rest; m_closed := false |} w =
  worker_thread_func fuel {| m_queue := rest; m_closed := false |}
    (call_closure c w).2.
Proof.
  cbn [worker_thread_func]. unfold pop. cbn [m_closed m_queue].
  unfold invoke. cbn [m_task].
  destruct (call_closure_appends c w) as (rsp & Hret & _).
  destruct (call_closure c w) as [r w']. simpl in Hret. by subst r.
Qed.

Lemma worker_drains_open_queue (cs : list closure) w :
  worker_thread_func (S (length cs))
    {| m_queue := tasks_of cs; m_closed := false |} w =
    (worker_parked, {| m_queue := []; m_closed := false |}, run_tasks cs w).
Proof.
  revert w. induction cs as [|c cs IH]; intros w; [done|].
  change (tasks_of (c :: cs)) with (Task (Some c) :: tasks_of cs).
  change (length (c :: cs)) with (S (length cs)).
  rewrite worker_runs_front_task. by rewrite IH.
Qed.

(** X5.  One worker on an open queue holding the tasks the router built
    for [cs] runs all of them in the order they were queued and then waits
    in [pop] on the empty queue; no exception leaves the loop, and the
    transport has received exactly one response per task, in the order of
    the tasks, each for the request of its task. *)
Theorem worker_answers_tasks_in_order (cs : list closure) (w : world) :
  ∃ w' rsps,
    worker_thread_func (S (length cs))
      {| m_queue := tasks_of cs; m_closed := false |} w =
      (worker_parked, {| m_queue := []; m_closed := false |}, w') ∧
    w' = run_tasks cs w ∧
    w_sent w' = w_sent w ++ rsps ∧
    rsp_request <$> rsps = request_of <$> cs.
Proof.
  destruct (run_tasks_responses cs w) as (rsps & Hsent & Hreqs).
  exists (run_tasks cs w), rsps.
  split; [apply worker_drains_open_queue|]. done.
Qed.

(** X6.  Tasks the router pushes after the queue was closed are dropped,
    and tasks still pending at the close are never run: a worker that
    finds the queue closed returns at once, whatever is pending; no
    response is sent for any of these requests. *)
Theorem closed_queue_tasks_get_no_response
    (cs : list closure) (queue : task_queue_t) (w : world) fuel :
  m_closed queue = true →
  foldl (λ q c, enqueue c q) queue cs = queue ∧
  worker_thread_func (S fuel) queue w = (worker_returned, queue, w).
Proof.
  intros Hclosed. split.
  - induction cs as [|c cs IH]; [done|]. simpl.
    unfold enqueue at 2, push. by rewrite Hclosed.
  - by apply worker_returns_on_closed_queue.
Qed.

(** X7.  [join] on a worker whose queue is still open never returns: the
    worker runs what is queued and then waits in [pop].  This is why
    [shutdown_then_join] signals the shutdown before it joins. *)
Theorem join_without_shutdown_never_returns
    (cs : list closure) (t : std_thread) (s : system) :
  sys_queue s = {| m_queue := tasks_of cs; m_closed := false |} →
  join_worker t s = None.
Proof.
  intros Hqueue. unfold join_worker. rewrite Hqueue. cbn [m_queue].
  unfold tasks_of at 1. rewrite length_fmap.
  by rewrite worker_drains_open_queue.
Qed.

(** X8.  When the system lets the process start [N] threads, the
    constructor starts [N] workers, all joinable and running, and returns
    the pool; it does not touch the queue and signals no shutdown. *)
Theorem pool_construction_succeeds (N : nat) (s : system) :
  (N ≤ sys_thread_budget s)%nat →
  my_thread_pool_ctor N s =
    Some (inr {| m_threads := started_threads (sys_started s) N |},
          after_starts N s) ∧
  sys_queue (after_starts N s) = sys_queue s ∧
  sys_world (after_starts N s) = sys_world s ∧
  (∀ id, (sys_started s ≤ id < sys_started s + N)%nat →
         id ∈ sys_running (after_starts N s)) ∧
  shutdown_signalled ∉ drop (length (sys_log s)) (sys_log (after_starts N s)).
Proof.
  intros HN. unfold my_thread_pool_ctor, thread_pool_ctor.
  rewrite emplace_threads_run.
  replace (Nat.min N (sys_thread_budget s)) with N by lia.
  rewrite decide_True by done. cbn [m_threads app].
  repeat split.
  - intros id Hid. simpl. apply elem_of_union_l, elem_of_list_to_set.
    apply elem_of_seq. lia.
  - simpl. rewrite drop_app_length.
    intros (id & Habs & _)%list_elem_of_fmap. done.
Qed.

(** X9.  [stop()] on a pool of [N >= 1] started workers closes the queue,
    joins every worker (none of them is left running) and empties
    [m_threads]; tasks still pending are not run.  A second [stop()] (or
    the destructor after a [stop()]) does nothing at all: the shutdowner
    is not invoked again. *)
Theorem stop_joins_all_and_is_idempotent (N first : nat) (s : system) :
  (1 ≤ N)%nat →
  let pool := {| m_threads := started_threads first N |} in
  let ids := seq first N in
  ∃ s',
    my_thread_pool_stop pool s = Some ({| m_threads := [] |}, s') ∧
    m_closed (sys_queue s') = true ∧
    m_queue (sys_queue s') = m_queue (sys_queue s) ∧
    sys_world s' = sys_world s ∧
    sys_running s' = sys_running s ∖ list_to_set ids ∧
    sys_log s' = sys_log s ++ shutdown_signalled :: (thread_joined <$> ids) ∧
    my_thread_pool_stop {| m_threads := [] |} s' =
      Some ({| m_threads := [] |}, s').
Proof.
  intros HN pool ids. subst pool ids.
  unfold my_thread_pool_stop, stop, shutdown_then_join, started_threads.
  cbn [m_threads].
  destruct N as [|n]; [lia|].
  set (ids := seq first (S n)).
  change ((λ id, StdThread id true) <$> ids) with
    (StdThread first true ::
       ((λ id, StdThread id true) <$> seq (S first) n)) at 1.
  cbv iota.
  rewrite join_each_after_close by apply shutdowner_closes_queue.
  eexists. split; [reflexivity|]. simpl.
  split; [apply close_sets_closed|].
  split; [apply close_keeps_items|].
  repeat split. by rewrite <- app_assoc.
Qed.

End WorkerFacts.

(** ** The storage gateway, operation by operation *)

Lemma max_rowid_least (tbl : gmap Z pet_data_t) bound :
  0 ≤ bound →
  (∀ id data, tbl !! id = Some data → id ≤ bound) →
  max_rowid tbl ≤ bound.
Proof.
  intros Hbound. unfold max_rowid.
  apply (map_fold_weak_ind
           (λ acc m, (∀ id data, m !! id = Some data → id ≤ bound) →
                     acc ≤ bound)); [done|].
  intros id data m acc Hfresh IH Hall.
  assert (id ≤ bound) by (eapply Hall; apply lookup_insert_eq).
  assert (acc ≤ bound); [|lia].
  apply IH. intros id' data' Hrow. eapply Hall.
  rewrite lookup_insert_ne; [done|]. by intros ->; rewrite Hfresh in Hrow.
Qed.

Lemma max_rowid_delete (tbl : gmap Z pet_data_t) id :
  max_rowid (delete id tbl) ≤ max_rowid tbl.
Proof.
  apply max_rowid_least; [apply max_rowid_nonneg|].
  intros id' data Hrow. apply lookup_delete_Some in Hrow as [_ Hrow].
  by eapply max_rowid_bound.
Qed.

Lemma max_rowid_overwrite (tbl : gmap Z pet_data_t) id data :
  is_Some (tbl !! id) →
  max_rowid (<[id := data]> tbl) ≤ max_rowid tbl.
Proof.
  intros [old Hold]. apply max_rowid_least; [apply max_rowid_nonneg|].
  intros id' data' Hrow.
  destruct (decide (id = id')) as [<-|Hne].
  - by eapply max_rowid_bound.
  - rewrite lookup_insert_ne in Hrow by done. by eapply max_rowid_bound.
Qed.

(** X10.  [update_pet] has three outcomes.  [updated]: the row existed and
    now carries the four fields of the payload, under the same identity;
    no other row and not the rowid sequence changed.  [not_found]: there
    was no such row and the content is unchanged.  An [SQLite::Exception]:
    the content is unchanged. *)
Theorem update_pet_outcomes (id : pet_id_t) (pet : pet_without_id_t)
    (db : db_layer_t) :
  match update_pet id pet db with
  | (inr update_result_t.updated, db') =>
      is_Some (tbl_pets db !! id) ∧
      tbl_pets db' = <[id := wo_data pet]> (tbl_pets db) ∧
      seq_pets db' = seq_pets db
  | (inr update_result_t.not_found, db') =>
      tbl_pets db !! id = None ∧ same_content db db'
  | (inl e, db') => is_sqlite_exception e ∧ same_content db db'
  end.
Proof.
  unfold update_pet, exec_update_pet_stmt, same_content. exn_unfold.
  destruct (engine_call_cases db) as [[fs ->]|(f & fs & ->)]; [|done].
  simpl. destruct (tbl_pets db !! id) eqn:Hrow; simpl; eauto.
Qed.

(** X11.  [delete_pet] has three outcomes.  [deleted]: the row existed and
    is gone, every other row is as before.  [not_found]: there was no such
    row and the content is unchanged.  An [SQLite::Exception]: the content
    is unchanged.  The rowid sequence is never touched. *)
Theorem delete_pet_outcomes (id : pet_id_t) (db : db_layer_t) :
  match delete_pet id db with
  | (inr delete_result_t.deleted, db') =>
      is_Some (tbl_pets db !! id) ∧
      tbl_pets db' = delete id (tbl_pets db) ∧
      seq_pets db' = seq_pets db
  | (inr delete_result_t.not_found, db') =>
      tbl_pets db !! id = None ∧ same_content db db'
  | (inl e, db') => is_sqlite_exception e ∧ same_content db db'
  end.
Proof.
  unfold delete_pet, exec_delete_pet_stmt, same_content. exn_unfold.
  destruct (engine_call_cases db) as [[fs ->]|(f & fs & ->)]; [|done].
  simpl. destruct (tbl_pets db !! id) eqn:Hrow; simpl; eauto.
Qed.

Lemma engine_call_fault_free_content n db :
  fault_free (S n) db = true →
  ∃ db', engine_call db = (inr tt, db') ∧
         tbl_pets db' = tbl_pets db ∧ seq_pets db' = seq_pets db ∧
         last_insert_rowid db' = last_insert_rowid db ∧
         fault_free n db' = true.
Proof.
  intros Hff. destruct (engine_call_fault_free _ _ Hff) as (fs & -> & Hff').
  by eexists.
Qed.

Lemma update_pet_fault_free n id pet db :
  fault_free (S n) db = true →
  ∃ db', update_pet id pet db =
           (inr (if tbl_pets db !! id is Some _ then update_result_t.updated
                 else update_result_t.not_found), db') ∧
         tbl_pets db' =
           (if tbl_pets db !! id is Some _ then <[id := wo_data pet]> (tbl_pets db)
            else tbl_pets db) ∧
         seq_pets db' = seq_pets db ∧
         fault_free n db' = true.
Proof.
  intros Hff. destruct (engine_call_fault_free _ _ Hff) as (fs & Hcall & Hff').
  unfold update_pet, exec_update_pet_stmt. exn_unfold. rewrite Hcall. simpl.
  destruct (tbl_pets db !! id); simpl; by eexists.
Qed.

Lemma delete_pet_fault_free n id db :
  fault_free (S n) db = true →
  ∃ db', delete_pet id db =
           (inr (if tbl_pets db !! id is Some _ then delete_result_t.deleted
                 else delete_result_t.not_found), db') ∧
         tbl_pets db' =
           (if tbl_pets db !! id is Some _ then delete id (tbl_pets db)
            else tbl_pets db) ∧
         seq_pets db' = seq_pets db ∧
         fault_free n db' = true.
Proof.
  intros Hff. destruct (engine_call_fault_free _ _ Hff) as (fs & Hcall & Hff').
  unfold delete_pet, exec_delete_pet_stmt. exn_unfold. rewrite Hcall. simpl.
  destruct (tbl_pets db !! id); simpl; by eexists.
Qed.

Lemma get_pet_fault_free n id db :
  fault_free (S n) db = true →
  ∃ db', get_pet id db =
           (inr (PetWithId (to_int32 id) <$> tbl_pets db !! id), db') ∧
         tbl_pets db' = tbl_pets db ∧ seq_pets db' = seq_pets db ∧
         fault_free n db' = true.
Proof.
  intros Hff. destruct (engine_call_fault_free _ _ Hff) as (fs & Hcall & Hff').
  unfold get_pet. exn_unfold. rewrite Hcall. simpl.
  destruct (tbl_pets db !! id); simpl; by eexists.
Qed.

(** X12.  Deleting the same identity twice (no storage fault) reports
    [deleted] and then [not_found], and [get_pet] of it afterwards finds
    nothing. *)
Theorem delete_twice (id : pet_id_t) (db : db_layer_t) :
  is_Some (tbl_pets db !! id) →
  fault_free 3 db = true →
  ∃ db1 db2 db3,
    delete_pet id db = (inr delete_result_t.deleted, db1) ∧
    delete_pet id db1 = (inr delete_result_t.not_found, db2) ∧
    get_pet id db2 = (inr None, db3).
Proof.
  intros [data Hrow] Hff.
  destruct (delete_pet_fault_free _ id _ Hff) as (db1 & Hdel1 & Htbl1 & _ & Hff1).
  rewrite Hrow in Hdel1, Htbl1.
  assert (tbl_pets db1 !! id = None) as Hgone
    by (rewrite Htbl1; apply lookup_delete_eq).
  destruct (delete_pet_fault_free _ id _ Hff1) as (db2 & Hdel2 & Htbl2 & _ & Hff2).
  rewrite Hgone in Hdel2, Htbl2.
  destruct (get_pet_fault_free _ id _ Hff2) as (db3 & Hget & _).
  rewrite Htbl2, Hgone in Hget.
  by exists db1, db2, db3.
Qed.

(** X13.  After a successful [update_pet] (no storage fault, an identity
    that exists), [get_pet] of the identity returns the record with the
    four fields of the update payload, and [get_pet] of any other identity
    returns what it returned before the update. *)
Theorem update_then_get (id other : pet_id_t) (pet : pet_without_id_t)
    (db : db_layer_t) :
  is_Some (tbl_pets db !! id) →
  in_int32 id →
  other ≠ id →
  fault_free 2 db = true →
  ∃ db1 db2 db3,
    update_pet id pet db = (inr update_result_t.updated, db1) ∧
    get_pet id db1 = (inr (Some (PetWithId id (wo_data pet))), db2) ∧
    get_pet other db1 =
      (inr (PetWithId (to_int32 other) <$> tbl_pets db !! other), db3).
Proof.
  intros [data Hrow] Hid Hother Hff.
  destruct (update_pet_fault_free _ id pet _ Hff)
    as (db1 & Hupd & Htbl1 & _ & Hff1).
  rewrite Hrow in Hupd, Htbl1.
  destruct (get_pet_fault_free _ id _ Hff1) as (db2 & Hget & _).
  destruct (get_pet_fault_free _ other _ Hff1) as (db3 & Hget' & _).
  rewrite Htbl1, lookup_insert_eq, to_int32_id in Hget by done.
  rewrite Htbl1, lookup_insert_ne in Hget' by done.
  by exists db1, db2, db3.
Qed.

(** *** Reading *)

Lemma engine_call_content db :
  same_content db (engine_call db).2.
Proof.
  destruct (engine_call_cases db) as [[fs ->]|(f & fs & ->)]; by split.
Qed.

Lemma get_all_loop_content rows result db :
  same_content db (get_all_loop rows result db).2.
Proof.
  revert result db. induction rows as [|[id data] rows IH]; intros result db;
    cbn [get_all_loop]; unfold mbind at 1, Exn_bind at 1;
    destruct (engine_call_cases db) as [[fs ->]|(f & fs & ->)];
    try (by split).
  destruct (IH (result ++ [PetWithId (to_int32 id) data]) (with_faults fs db))
    as [Htbl Hseq].
  by split.
Qed.

Lemma get_all_loop_fault_free rows result db n :
  fault_free (S (length rows) + n) db = true →
  ∃ db',
    get_all_loop rows result db =
      (inr (result ++ ((λ row, PetWithId (to_int32 row.1) row.2) <$> rows)),
       db') ∧
    fault_free n db' = true.
Proof.
  revert result db. induction rows as [|[id data] rows IH]; intros result db Hff;
    cbn [get_all_loop]; unfold mbind at 1, Exn_bind at 1;
    destruct (engine_call_fault_free _ _ Hff) as (fs & -> & Hff').
  - exists (with_faults fs db). by rewrite app_nil_r.
  - destruct (IH (result ++ [PetWithId (to_int32 id) data])
                (with_faults fs db) Hff') as (db' & -> & Hff'').
    exists db'. by rewrite <- app_assoc.
Qed.

Lemma get_pet_content id db : same_content db (get_pet id db).2.
Proof.
  destruct (get_pet_cases id db) as [[fs ->]|(e & fs & -> & _)]; by split.
Qed.

Lemma get_all_pets_content db : same_content db (DbLayer.get_all_pets db).2.
Proof.
  unfold DbLayer.get_all_pets. exn_unfold.
  pose proof (get_all_loop_content (scan_pets db) [] db) as Hloop.
  by destruct (get_all_loop (scan_pets db) [] db) as [[e|pets] db'].
Qed.

(** X14.  The two reading operations never change what the database
    holds, whether they return or throw: after [get_pet] and after
    [get_all_pets] the rows and the rowid sequence are what they were. *)
Theorem reads_leave_content_unchanged (id : pet_id_t) (db : db_layer_t) :
  same_content db (get_pet id db).2 ∧
  same_content db (DbLayer.get_all_pets db).2.
Proof. split; [apply get_pet_content | apply get_all_pets_content]. Qed.

(** X15.  Without a storage fault [get_all_pets] returns every record of
    the table and nothing else: as many records as there are rows, a
    record for each row (its identity the rowid converted to [pet_id_t],
    its fields those of the row), and each record returned comes from a
    row. *)
Theorem get_all_pets_is_complete (db : db_layer_t) :
  fault_free (S (size (tbl_pets db))) db = true →
  ∃ pets db',
    DbLayer.get_all_pets db = (inr (AllPets pets), db') ∧
    length pets = size (tbl_pets db) ∧
    (∀ id data, tbl_pets db !! id = Some data →
                PetWithId (to_int32 id) data ∈ pets) ∧
    (∀ pet, pet ∈ pets →
            ∃ id, tbl_pets db !! id = Some (m_data pet) ∧
                  m_id pet = to_int32 id).
Proof.
  intros Hff. unfold DbLayer.get_all_pets. exn_unfold.
  destruct (get_all_loop_fault_free (scan_pets db) [] db 0)
    as (db' & Hloop & _).
  { unfold scan_pets. rewrite length_map_to_list. by rewrite Nat.add_0_r. }
  rewrite Hloop. simpl. eexists _, db'. split; [reflexivity|].
  unfold scan_pets. split; [|split].
  - by rewrite length_fmap, length_map_to_list.
  - intros id data Hrow. apply list_elem_of_fmap.
    exists (id, data). split; [done|]. by apply elem_of_map_to_list.
  - intros pet [[id data] [-> Hrow%elem_of_map_to_list]]%list_elem_of_fmap.
    by exists id.
Qed.

(** *** Creating *)

Lemma create_new_pet_run pet db :
  let largest := largest_rowid db in
  let inserted db' :=
    tbl_pets db' = <[largest + 1 := wo_data pet]> (tbl_pets db) ∧
    seq_pets db' = largest + 1 in
  match DbLayer.create_new_pet pet db with
  | (inr id, db') => id = to_int32 (largest + 1) ∧ inserted db'
  | (inl e, db') =>
      is_sqlite_exception e ∧ (same_content db db' ∨ inserted db')
  end.
Proof.
  intros largest inserted. subst inserted. unfold DbLayer.create_new_pet.
  unfold mbind at 1, Exn_bind at 1.
  destruct (exec_create_new_stmt_cases (wo_data pet) db)
    as [(fs & Hlt & ->)|(e' & fs & -> & He)].
  2:{ split; [done|]. left. by split. }
  unfold mbind at 1, Exn_bind at 1.
  match goal with |- context [exec_last_insert_rowid_stmt ?d] =>
    destruct (exec_last_insert_rowid_stmt_cases d)
      as [(fs' & ->)|(e' & fs' & -> & He)]
  end.
  - exn_unfold. simpl. done.
  - split; [done|]. right. by split.
Qed.

(** X16.  [create_new_pet] that returns has stored exactly one new row:
    the payload's four fields under a rowid one beyond the largest the
    table ever held, a rowid no row had; every other row is as before; the
    identity returned is that rowid converted to [pet_id_t].  A
    [create_new_pet] that throws throws an [SQLite::Exception]. *)
Theorem create_new_pet_outcomes (pet : pet_without_id_t) (db : db_layer_t) :
  let fresh := largest_rowid db + 1 in
  match DbLayer.create_new_pet pet db with
  | (inr id, db') =>
      id = to_int32 fresh ∧
      tbl_pets db !! fresh = None ∧
      tbl_pets db' !! fresh = Some (wo_data pet) ∧
      (∀ other, other ≠ fresh → tbl_pets db' !! other = tbl_pets db !! other) ∧
      seq_pets db' = fresh
  | (inl e, db') => is_sqlite_exception e
  end.
Proof.
  intros fresh. pose proof (create_new_pet_run pet db) as Hrun.
  destruct (DbLayer.create_new_pet pet db) as [[e|id] db']; [apply Hrun|].
  destruct Hrun as (-> & Htbl & Hseq). fold fresh in Htbl, Hseq.
  split; [done|]. split.
  { apply above_max_rowid_fresh. unfold fresh, largest_rowid. lia. }
  rewrite Htbl. split; [apply lookup_insert_eq|]. split; [|done].
  intros other Hother. by apply lookup_insert_ne.
Qed.

(** X17.  [create_new_pet] is not all-or-nothing.  When the insert
    succeeds and the following [select last_insert_rowid()] fails, the
    exception of that failure is thrown, no identity is returned, and the
    new row is in the table all the same. *)
Theorem create_new_pet_may_store_and_throw
    (pet : pet_without_id_t) (db : db_layer_t) f rest :
  pending_faults db = None :: Some f :: rest →
  largest_rowid db < int64_max →
  ∃ db',
    DbLayer.create_new_pet pet db =
      (inl (SQLite_Exception (fault_code f) (fault_ext_code f) (fault_str f)),
       db') ∧
    tbl_pets db' !! (largest_rowid db + 1) = Some (wo_data pet) ∧
    tbl_pets db !! (largest_rowid db + 1) = None.
Proof.
  intros Hfaults Hroom.
  unfold DbLayer.create_new_pet, exec_create_new_stmt,
    exec_last_insert_rowid_stmt, engine_call.
  exn_unfold. rewrite Hfaults. simpl. fold (largest_rowid db).
  rewrite bool_decide_eq_false_2 by lia. simpl.
  eexists. split; [reflexivity|]. simpl. split; [apply lookup_insert_eq|].
  apply above_max_rowid_fresh. unfold largest_rowid. lia.
Qed.

(** *** The rowid sequence *)

Definition keeps_sequence (db db' : db_layer_t) : Prop :=
  sequence_covers_rows db →
  sequence_covers_rows db' ∧ seq_pets db ≤ seq_pets db'.

Lemma keeps_sequence_same_content db db' :
  same_content db db' → keeps_sequence db db'.
Proof.
  unfold keeps_sequence, sequence_covers_rows. intros [-> ->]. lia.
Qed.

Lemma keeps_sequence_trans db1 db2 db3 :
  keeps_sequence db1 db2 → keeps_sequence db2 db3 → keeps_sequence db1 db3.
Proof.
  unfold keeps_sequence. intros H12 H23 H1.
  destruct (H12 H1) as [H2 ?]. destruct (H23 H2) as [H3 ?]. split; [done|lia].
Qed.

Lemma keeps_sequence_insert db db' data :
  tbl_pets db' = <[largest_rowid db + 1 := data]> (tbl_pets db) →
  seq_pets db' = largest_rowid db + 1 →
  keeps_sequence db db'.
Proof.
  unfold keeps_sequence, sequence_covers_rows. intros Htbl Hseq Hcovers.
  rewrite Htbl, Hseq. rewrite max_rowid_insert_fresh.
  - unfold largest_rowid. lia.
  - apply above_max_rowid_fresh. unfold largest_rowid. lia.
Qed.

Lemma exec_create_new_stmt_keeps_sequence data db :
  keeps_sequence db (exec_create_new_stmt data db).2.
Proof.
  destruct (exec_create_new_stmt_cases data db)
    as [(fs & Hlt & ->)|(e' & fs & -> & He)].
  - by eapply keeps_sequence_insert.
  - by apply keeps_sequence_same_content.
Qed.

Lemma exec_last_insert_rowid_stmt_content db :
  same_content db (exec_last_insert_rowid_stmt db).2.
Proof.
  destruct (exec_last_insert_rowid_stmt_cases db)
    as [(fs & ->)|(e' & fs & -> & He)]; by split.
Qed.

Lemma create_bunch_loop_keeps_sequence pets result db :
  keeps_sequence db (create_bunch_loop pets result db).2.
Proof.
  revert result db. induction pets as [|p pets IH]; intros result db.
  - by apply keeps_sequence_same_content.
  - cbn [create_bunch_loop]. unfold mbind at 1, Exn_bind at 1.
    pose proof (exec_create_new_stmt_keeps_sequence (wo_data p) db) as Hins.
    destruct (exec_create_new_stmt (wo_data p) db) as [[e|[]] db1];
      [exact Hins|].
    unfold mbind at 1, Exn_bind at 1.
    pose proof (exec_last_insert_rowid_stmt_content db1) as Hsel.
    apply keeps_sequence_same_content in Hsel.
    destruct (exec_last_insert_rowid_stmt db1) as [[e|rowid] db2].
    + by eapply keeps_sequence_trans.
    + eapply keeps_sequence_trans; [exact Hins|].
      eapply keeps_sequence_trans; [exact Hsel|]. apply IH.
Qed.

Lemma update_pet_keeps_sequence id pet db :
  keeps_sequence db (update_pet id pet db).2.
Proof.
  unfold update_pet, exec_update_pet_stmt. exn_unfold.
  destruct (engine_call_cases db) as [[fs ->]|(f & fs & ->)];
    [|by apply keeps_sequence_same_content].
  simpl. destruct (tbl_pets db !! id) eqn:Hrow; simpl;
    [|by apply keeps_sequence_same_content].
  unfold keeps_sequence, sequence_covers_rows. simpl. intros Hcovers.
  assert (is_Some (tbl_pets db !! id)) as Hsome by (rewrite Hrow; eauto).
  pose proof (max_rowid_overwrite _ _ (wo_data pet) Hsome) as Hmax.
  split; [by etransitivity|reflexivity].
Qed.

Lemma delete_pet_keeps_sequence id db :
  keeps_sequence db (delete_pet id db).2.
Proof.
  unfold delete_pet, exec_delete_pet_stmt. exn_unfold.
  destruct (engine_call_cases db) as [[fs ->]|(f & fs & ->)];
    [|by apply keeps_sequence_same_content].
  simpl. destruct (tbl_pets db !! id) eqn:Hrow; simpl;
    [|by apply keeps_sequence_same_content].
  unfold keeps_sequence, sequence_covers_rows. simpl. intros Hcovers.
  pose proof (max_rowid_delete (tbl_pets db) id) as Hmax.
  split; [by etransitivity|reflexivity].
Qed.

Lemma after_call_keeps_sequence (c : gateway_call) db :
  keeps_sequence db (after_call c db).
Proof.
  destruct c as [pet|pets| |id|id pet|id]; simpl.
  - pose proof (create_new_pet_run pet db) as Hrun.
    destruct (DbLayer.create_new_pet pet db) as [[e|id] db']; simpl.
    + destruct Hrun as [_ [Hsame|[Htbl Hseq]]].
      * by apply keeps_sequence_same_content.
      * by eapply keeps_sequence_insert.
    + destruct Hrun as (_ & Htbl & Hseq). by eapply keeps_sequence_insert.
  - unfold create_bunch_of_pets. unfold mbind at 1, Exn_bind at 1.
    destruct (engine_call_cases db) as [[fs ->]|(f & fs & ->)];
      [|by apply keeps_sequence_same_content].
    unfold mbind at 1, Exn_bind at 1, get_state at 1, try_catch.
    unfold mbind at 1, Exn_bind at 1.
    pose proof (create_bunch_loop_keeps_sequence (m_pets pets) []
                  (with_faults fs db)) as Hloop.
    destruct (create_bunch_loop (m_pets pets) [] (with_faults fs db))
      as [[e|ids] db1].
    { exn_unfold. simpl. by apply keeps_sequence_same_content. }
    unfold mbind at 1, Exn_bind at 1.
    destruct (engine_call_cases db1) as [[fs1 ->]|(f & fs1 & ->)].
    + exn_unfold. simpl. exact Hloop.
    + exn_unfold. simpl. by apply keeps_sequence_same_content.
  - apply keeps_sequence_same_content, get_all_pets_content.
  - apply keeps_sequence_same_content, get_pet_content.
  - apply update_pet_keeps_sequence.
  - apply delete_pet_keeps_sequence.
Qed.

Lemma after_calls_keeps_sequence (cs : list gateway_call) db :
  keeps_sequence db (after_calls cs db).
Proof.
  revert db. induction cs as [|c cs IH]; intros db.
  - by apply keeps_sequence_same_content.
  - simpl. fold (after_calls cs (after_call c db)).
    eapply keeps_sequence_trans; [apply after_call_keeps_sequence|apply IH].
Qed.

Lemma after_calls_app (cs1 cs2 : list gateway_call) db :
  after_calls (cs1 ++ cs2) db = after_calls cs2 (after_calls cs1 db).
Proof. unfold after_calls. by rewrite foldl_app. Qed.

(** An identity a create returns is the conversion of a rowid beyond the
    largest the table ever held, and the row of that rowid is in the table
    when the call is over. *)
Lemma returned_identity_is_row (c : gateway_call) db id :
  identity_returned id c db →
  ∃ rowid, id = to_int32 rowid ∧ largest_rowid db < rowid ∧
           is_Some (tbl_pets (after_call c db) !! rowid).
Proof.
  destruct c as [pet|pets| | | |]; simpl; try done.
  - pose proof (create_new_pet_run pet db) as Hrun.
    destruct (DbLayer.create_new_pet pet db) as [[e|id'] db']; [done|].
    simpl. intros [= ->]. destruct Hrun as (-> & Htbl & _).
    exists (largest_rowid db + 1). split; [done|]. split; [lia|].
    rewrite Htbl, lookup_insert_eq. by eexists.
  - pose proof (create_bunch_of_pets_spec pets db) as Hrun.
    destruct (create_bunch_of_pets pets db) as [[e|result] db'];
      simpl; intros (ids & Hresult & Hin); [done|].
    injection Hresult as ->. destruct Hrun as (Hids & Hrows & _).
    simpl in Hids. rewrite Hids in Hin.
    apply list_elem_of_fmap in Hin as (rowid & -> & Hrowid).
    apply elem_of_seqZ in Hrowid.
    exists rowid. split; [done|]. split; [lia|].
    destruct (lookup_lt_is_Some_2 (m_pets pets)
                (Z.to_nat (rowid - (largest_rowid db + 1)))) as [p Hp];
      [lia|].
    destruct (Hrows _ _ Hp) as [_ Hrow].
    replace (largest_rowid db + 1 +
             Z.of_nat (Z.to_nat (rowid - (largest_rowid db + 1))))
      with rowid in Hrow by lia.
    by eexists.
Qed.

(** X18.  Identities are not reused while rowids fit [pet_id_t].  On a
    database written by this program only (no row beyond the recorded
    sequence), take any calls [earlier] and an identity [old] known after
    them: the rowid of a row the table holds then, or an identity the last
    of those calls returned.  After any further calls [later], failed ones
    and rolled back ones included, whether the row of [old] was deleted or
    not, an identity [new] returned by [create_new_pet] or by
    [create_bunch_of_pets] is larger than [old] and is the rowid of no row
    of the table, provided the largest rowid after the create still fits
    [std::int32_t].  (Beyond that range the returned identities wrap
    around and do repeat, see [wrapped_identity_repeats]; a rowid used
    inside a batch that is rolled back is assigned again, but the batch
    returned no identity, see [rolled_back_rowid_is_assigned_again].) *)
Theorem created_identity_is_new
    (earlier later : list gateway_call) (c : gateway_call)
    (db : db_layer_t) (old new : pet_id_t) :
  let now := after_calls (earlier ++ later) db in
  sequence_covers_rows db →
  identity_known old earlier db →
  identity_returned new c now →
  largest_rowid (after_call c now) ≤ int32_max →
  old < new ∧ tbl_pets now !! new = None.
Proof.
  intros now Hcovers Hknown Hreturned Hroom. subst now.
  rewrite after_calls_app in *.
  set (before := after_calls earlier db) in *.
  set (now := after_calls later before) in *.
  destruct (after_calls_keeps_sequence earlier db Hcovers)
    as [Hbefore _]. fold before in Hbefore.
  destruct (after_calls_keeps_sequence later before Hbefore)
    as [Hnow Hseq]. fold now in Hnow, Hseq.
  destruct (returned_identity_is_row _ _ _ Hreturned)
    as (rowid & -> & Hfresh & [data Hrow]).
  apply max_rowid_bound in Hrow.
  pose proof (largest_rowid_nonneg now) as Hnonneg.
  assert (rowid ≤ int32_max) as Hfits
    by (unfold largest_rowid in Hroom; lia).
  rewrite to_int32_id by (unfold in_int32, int32_min; lia).
  split.
  2:{ apply above_max_rowid_fresh. unfold largest_rowid in Hfresh. lia. }
  assert (∀ k, is_Some (tbl_pets before !! k) → k < rowid) as Hrows.
  { intros k [data' Hk%max_rowid_bound].
    unfold sequence_covers_rows, largest_rowid in *. lia. }
  destruct Hknown as [Hold|(cs' & c0 & -> & Hold)]; [by apply Hrows|].
  destruct (returned_identity_is_row _ _ _ Hold)
    as (rowid0 & -> & Hfresh0 & Hrow0).
  assert (before = after_call c0 (after_calls cs' db)) as Hlast
    by (subst before; by rewrite after_calls_app).
  rewrite <- Hlast in Hrow0. specialize (Hrows _ Hrow0).
  pose proof (largest_rowid_nonneg (after_calls cs' db)) as Hnonneg0.
  rewrite to_int32_id by (unfold in_int32, int32_min; lia). done.
Qed.

(** Where the limits of X18 lie.  An insert inside a batch whose commit
    fails is rolled back, and its rowid is assigned again by the next
    create: the batch threw, so no identity was returned for it. *)
Example rolled_back_rowid_is_assigned_again :
  let db := failing_after 3 io_error fresh_db in
  (create_bunch_of_pets (BunchOfPets [bunny]) db).1 =
    inl (SQLite_Exception 10 266 "disk I/O error") ∧
  (DbLayer.create_new_pet kitty (after_call
     (gw_create_bunch_of_pets (BunchOfPets [bunny])) db)).1 = inr 1.
Proof. split; reflexivity. Qed.

(** Once the rowids have left the range of [pet_id_t], the identity
    returned is the rowid's low 32 bits: here the identity of a row that is
    in the table. *)
Example wrapped_identity_repeats :
  sequence_covers_rows db_past_uint32 ∧
  tbl_pets db_past_uint32 !! 1 = Some (wo_data bunny) ∧
  (DbLayer.create_new_pet kitty db_past_uint32).1 = inr 1.
Proof.
  split; [|split; reflexivity].
  unfold sequence_covers_rows. vm_compute. discriminate.
Qed.

Lemma exec_create_new_stmt_fault_free n data db :
  fault_free (S n) db = true →
  largest_rowid db < int64_max →
  ∃ db',
    exec_create_new_stmt data db = (inr tt, db') ∧
    tbl_pets db' = <[largest_rowid db + 1 := data]> (tbl_pets db) ∧
    seq_pets db' = largest_rowid db + 1 ∧
    last_insert_rowid db' = largest_rowid db + 1 ∧
    largest_rowid db' = largest_rowid db + 1 ∧
    fault_free n db' = true.
Proof.
  intros Hff Hroom.
  destruct (engine_call_fault_free _ _ Hff) as (fs & Hcall & Hff').
  unfold exec_create_new_stmt. exn_unfold. rewrite Hcall. simpl.
  fold (largest_rowid db). rewrite bool_decide_eq_false_2 by lia.
  eexists. split; [reflexivity|]. simpl. repeat split; try done.
  apply largest_rowid_after_insert.
Qed.

Lemma exec_last_insert_rowid_stmt_fault_free n db :
  fault_free (S n) db = true →
  ∃ db',
    exec_last_insert_rowid_stmt db = (inr (last_insert_rowid db), db') ∧
    tbl_pets db' = tbl_pets db ∧ seq_pets db' = seq_pets db ∧
    fault_free n db' = true.
Proof.
  intros Hff.
  destruct (engine_call_fault_free _ _ Hff) as (fs & Hcall & Hff').
  unfold exec_last_insert_rowid_stmt. exn_unfold. rewrite Hcall. simpl.
  by eexists.
Qed.

Lemma create_new_pet_fault_free n pet db :
  fault_free (S (S n)) db = true →
  largest_rowid db < int64_max →
  ∃ db',
    DbLayer.create_new_pet pet db =
      (inr (to_int32 (largest_rowid db + 1)), db') ∧
    tbl_pets db' = <[largest_rowid db + 1 := wo_data pet]> (tbl_pets db) ∧
    seq_pets db' = largest_rowid db + 1 ∧
    fault_free n db' = true.
Proof.
  intros Hff Hroom.
  destruct (exec_create_new_stmt_fault_free _ (wo_data pet) _ Hff Hroom)
    as (db1 & Hins & Htbl & Hseq & Hlast & _ & Hff1).
  destruct (exec_last_insert_rowid_stmt_fault_free _ _ Hff1)
    as (db2 & Hsel & Htbl2 & Hseq2 & Hff2).
  unfold DbLayer.create_new_pet. exn_unfold. rewrite Hins, Hsel, Hlast.
  exists db2. by rewrite Htbl2, Hseq2.
Qed.

Lemma create_bunch_loop_fault_free n pets result db :
  fault_free (2 * length pets + n) db = true →
  largest_rowid db + Z.of_nat (length pets) ≤ int64_max →
  ∃ db',
    create_bunch_loop pets result db =
      (inr (result ++ (to_int32 <$> seqZ (largest_rowid db + 1)
                                        (Z.of_nat (length pets)))), db') ∧
    tbl_pets db' = insert_rows (largest_rowid db + 1) pets (tbl_pets db) ∧
    fault_free n db' = true.
Proof.
  revert result db. induction pets as [|p pets IH]; intros result db Hff Hroom.
  - exists db. simpl. by rewrite app_nil_r.
  - cbn [length] in *.
    replace (2 * S (length pets) + n)%nat
      with (S (S (2 * length pets + n))) in Hff by lia.
    destruct (exec_create_new_stmt_fault_free _ (wo_data p) _ Hff)
      as (db1 & Hins & Htbl & Hseq & Hlast & Hlargest & Hff1); [lia|].
    destruct (exec_last_insert_rowid_stmt_fault_free _ _ Hff1)
      as (db2 & Hsel & Htbl2 & Hseq2 & Hff2).
    assert (largest_rowid db2 = largest_rowid db + 1) as Hlargest2.
    { unfold largest_rowid in *. by rewrite Htbl2, Hseq2. }
    destruct (IH (result ++ [to_int32 (largest_rowid db + 1)]) db2 Hff2)
      as (db' & Hloop & Htbl' & Hff'); [lia|].
    exists db'. cbn [create_bunch_loop]. exn_unfold.
    rewrite Hins, Hsel, Hlast, Hloop, Hlargest2.
    split; [|split; [|done]].
    + rewrite <- app_assoc. do 2 f_equal.
      replace (Z.of_nat (S (length pets)))
        with (Z.succ (Z.of_nat (length pets))) by lia.
      rewrite (seqZ_cons (largest_rowid db + 1)) by lia.
      rewrite Z.pred_succ. simpl. do 3 f_equal.
    + rewrite Htbl', Hlargest2, Htbl2, Htbl. done.
Qed.

(** X19.  A batch stored by [create_bunch_of_pets] can be read back:
    without a storage fault and with rowids that fit [pet_id_t], the call
    returns one identity per payload, and [get_pet] of the [i]-th identity
    returns a record with that identity and the fields of the [i]-th
    payload. *)
Theorem batch_then_get (pets : bunch_of_pets_without_id_t) (db : db_layer_t)
    (i : nat) (p : pet_without_id_t) :
  let n := length (m_pets pets) in
  fault_free (2 * n + 3) db = true →
  largest_rowid db + Z.of_nat n ≤ int32_max →
  m_pets pets !! i = Some p →
  ∃ ids db1 db2,
    create_bunch_of_pets pets db = (inr (BunchOfPetIds ids), db1) ∧
    length ids = n ∧
    ids !! i = Some (largest_rowid db + 1 + Z.of_nat i) ∧
    get_pet (largest_rowid db + 1 + Z.of_nat i) db1 =
      (inr (Some (PetWithId (largest_rowid db + 1 + Z.of_nat i) (wo_data p))),
       db2).
Proof.
  intros n Hff Hfit Hi. subst n.
  pose proof (largest_rowid_nonneg db) as Hnonneg.
  pose proof (lookup_lt_Some _ _ _ Hi) as Hlt.
  replace (2 * length (m_pets pets) + 3)%nat
    with (S (2 * length (m_pets pets) + 2)) in Hff by lia.
  destruct (engine_call_fault_free _ _ Hff) as (fs & Hbegin & Hff0).
  destruct (create_bunch_loop_fault_free 2 (m_pets pets) []
              (with_faults fs db) Hff0) as (db1 & Hloop & Htbl & Hff1).
  { change (largest_rowid (with_faults fs db)) with (largest_rowid db).
    unfold int64_max, int32_max in *. lia. }
  change (largest_rowid (with_faults fs db)) with (largest_rowid db) in *.
  change (tbl_pets (with_faults fs db)) with (tbl_pets db) in *.
  destruct (engine_call_fault_free _ _ Hff1) as (fs1 & Hcommit & Hff2).
  destruct (get_pet_fault_free 0 (largest_rowid db + 1 + Z.of_nat i)
              (with_faults fs1 db1) Hff2) as (db2 & Hget & _).
  assert (to_int32 (largest_rowid db + 1 + Z.of_nat i) =
          largest_rowid db + 1 + Z.of_nat i) as Hid.
  { apply to_int32_id. unfold in_int32, int32_min, int32_max in *. lia. }
  eexists _, (with_faults fs1 db1), db2. split; [|split; [|split]].
  - unfold create_bunch_of_pets. exn_unfold.
    rewrite Hbegin, Hloop, Hcommit. simpl. reflexivity.
  - by rewrite length_fmap, length_seqZ, Nat2Z.id.
  - rewrite list_lookup_fmap, lookup_seqZ_lt by lia. simpl. by rewrite Hid.
  - rewrite Hget. cbn [tbl_pets with_faults]. rewrite Htbl.
    rewrite (insert_rows_lookup_new _ _ _ _ _ Hi). simpl. by rewrite Hid.
Qed.

(** ** The entry points, end to end *)

Section EntryPointFacts.
Context {libraries : Collaborators}.

Lemma rejected_step_keeps_world (c : closure) w :
  (∃ what, decoding_fault c what) ∨
  (∃ what, unclassified_fault c what) ∨
  (∃ r, c = do_create_new_pet r ∧ malformed_envelope r) →
  (business_step c w).2 = w.
Proof.
  intros [[what Hfault]|[[what Hfault]|(r & -> & Hmal)]].
  - destruct c as [r|r|r id|r id|r id]; simpl in *; try done.
    + destruct (detect_create_new_mode r) as [?|[|]]; [done| |].
      * unfold as_json, create_new_pet_action, decoded.
        rewrite Hfault. by exn_unfold.
      * unfold as_json, batch_create_new_pets_action, decoded,
          no_uploaded_file, uploaded_file in *.
        destruct (enumerate_parts_with_files r take_file_part "")
          as [result content].
        destruct Hfault as [-> Hdecode]. simpl in Hdecode.
        rewrite Hdecode. by exn_unfold.
    + unfold as_json, patch_specific_pet_action, decoded.
      rewrite Hfault. by exn_unfold.
  - destruct c as [r|r|r id|r id|r id]; simpl in *; try done.
    + destruct (detect_create_new_mode r) as [?|[|]]; [done| |].
      * unfold as_json, create_new_pet_action, decoded.
        rewrite Hfault. by exn_unfold.
      * unfold as_json, batch_create_new_pets_action, decoded,
          no_uploaded_file, uploaded_file in *.
        destruct (enumerate_parts_with_files r take_file_part "")
          as [result content].
        destruct Hfault as [-> Hdecode]. simpl in Hdecode.
        rewrite Hdecode. by exn_unfold.
    + unfold as_json, patch_specific_pet_action, decoded.
      rewrite Hfault. by exn_unfold.
  - unfold malformed_envelope in Hmal. simpl.
    destruct (detect_create_new_mode r) as [[status description]|[|]].
    + done.
    + by destruct Hmal as [[? ?]|[? _]].
    + destruct Hmal as [[? ?]|[_ Hno]]; [done|].
      unfold as_json, batch_create_new_pets_action, no_uploaded_file in *.
      destruct (enumerate_parts_with_files r take_file_part "")
        as [result content].
      rewrite Hno. by exn_unfold.
Qed.

(** X20.  A request that is rejected before the business logic gets to
    the gateway (its payload does not decode, the decoder fails in some
    other way, or the create envelope is malformed) leaves the storage
    gateway exactly as it was: no engine call is made, nothing is written;
    the only effect is the one response. *)
Theorem rejected_requests_do_not_reach_storage (c : closure) (w : world) :
  (∃ what, decoding_fault c what) ∨
  (∃ what, unclassified_fault c what) ∨
  (∃ r, c = do_create_new_pet r ∧ malformed_envelope r) →
  ∃ rsp, call_closure c w = (inr tt, deliver rsp w).
Proof.
  intros Hrejected. rewrite entry_point_runs_business_step.
  pose proof (rejected_step_keeps_world c w Hrejected) as Hworld.
  destruct (business_step c w) as [outcome w']. simpl in Hworld. subst w'.
  by eexists.
Qed.

(** X21.  Create, then fetch: a single create whose payload decodes, with
    no storage fault and a rowid that fits [pet_id_t], is answered 200 with
    the new identity, and a get of that identity is then answered 200 with
    the identity and the four fields of the payload. *)
Theorem created_pet_can_be_fetched (req get_req : request_t) (w : world)
    (P : pet_without_id_t) :
  detect_create_new_mode req = inr single →
  from_json_pet (body req) = inr P →
  fault_free 3 (w_db w) = true →
  largest_rowid (w_db w) + 1 ≤ int32_max →
  let id := largest_rowid (w_db w) + 1 in
  ∃ w1 w2,
    on_create_new_pet req w = (inr tt, w1) ∧
    on_get_specific_pet get_req id w1 = (inr tt, w2) ∧
    w_sent w2 = w_sent w ++
      [Response req status_ok "application/json" (JObj [("id", JInt id)]);
       Response get_req status_ok "application/json"
         (JObj [("id", JInt id);
                ("name", JStr (m_name (wo_data P)));
                ("type", JStr (m_type (wo_data P)));
                ("owner", JStr (m_owner (wo_data P)));
                ("picture", JStr (m_picture (wo_data P)))])].
Proof.
  intros Hmode Hdecode Hff Hfit id.
  pose proof (largest_rowid_nonneg (w_db w)) as Hnonneg.
  assert (to_int32 id = id) as Hid.
  { apply to_int32_id. unfold in_int32, int32_min, int32_max, id in *. lia. }
  destruct (create_new_pet_fault_free 1 P (w_db w) Hff)
    as (db1 & Hcreate & Htbl & Hseq & Hff1).
  { unfold int64_max, int32_max in *. lia. }
  fold id in Hcreate, Htbl. rewrite Hid in Hcreate.
  destruct (get_pet_fault_free 0 id db1 Hff1) as (db2 & Hget & _).
  rewrite Htbl, lookup_insert_eq, Hid in Hget. simpl in Hget.
  pose proof (entry_point_runs_business_step (do_create_new_pet req) w)
    as Hrun1.
  cbn [call_closure business_step request_of] in Hrun1.
  rewrite Hmode in Hrun1.
  unfold as_json, create_new_pet_action, decoded in Hrun1.
  rewrite Hdecode in Hrun1. exn_unfold. rewrite Hcreate in Hrun1.
  simpl in Hrun1.
  eexists _, _. split; [exact Hrun1|].
  pose proof (entry_point_runs_business_step
                (do_get_specific_pet get_req id)
                (deliver (Response req status_ok "application/json"
                            (to_json (PetIdentity id))) (set_db db1 w)))
    as Hrun2.
  cbn [call_closure business_step request_of] in Hrun2.
  unfold as_json, get_specific_pet_action in Hrun2. exn_unfold.
  simpl in Hrun2. rewrite Hget in Hrun2. simpl in Hrun2.
  split; [exact Hrun2|]. simpl. by rewrite <- app_assoc.
Qed.

(** X22.  A patch of an existing identity whose payload decodes (no
    storage fault) is answered 200 with that identity; afterwards the row
    carries the four fields of the payload and every other row is as
    before.  A patch never creates a row: for an unknown identity the
    table is unchanged. *)
Theorem patch_replaces_the_record (req : request_t) (id : pet_id_t)
    (w : world) (P : pet_without_id_t) :
  from_json_pet (body req) = inr P →
  fault_free 1 (w_db w) = true →
  ∃ w',
    on_patch_specific_pet req id w = (inr tt, w') ∧
    match tbl_pets (w_db w) !! id with
    | Some _ =>
        w_sent w' = w_sent w ++
          [Response req status_ok "application/json" (JObj [("id", JInt id)])] ∧
        tbl_pets (w_db w') = <[id := wo_data P]> (tbl_pets (w_db w))
    | None =>
        w_sent w' = w_sent w ++
          [failure_response req status_not_found 3
             ("pet with this ID not found, ID=" +:+ pretty id)] ∧
        tbl_pets (w_db w') = tbl_pets (w_db w)
    end.
Proof.
  intros Hdecode Hff.
  destruct (update_pet_fault_free 0 id P (w_db w) Hff)
    as (db1 & Hupdate & Htbl & _).
  pose proof (entry_point_runs_business_step (do_patch_specific_pet req id) w)
    as Hrun.
  cbn [call_closure business_step request_of] in Hrun.
  unfold as_json, patch_specific_pet_action, decoded, pet_not_found in Hrun.
  rewrite Hdecode in Hrun. exn_unfold. rewrite Hupdate in Hrun.
  destruct (tbl_pets (w_db w) !! id); simpl in Hrun;
    eexists; (split; [exact Hrun|]); simpl; by rewrite Htbl.
Qed.

(** X23.  Deleting the same identity through the entry point twice (no
    storage fault) is answered 200 with the identity the first time and
    404 with code 3 the second time. *)
Theorem delete_is_answered_once (req1 req2 : request_t) (id : pet_id_t)
    (w : world) :
  is_Some (tbl_pets (w_db w) !! id) →
  fault_free 2 (w_db w) = true →
  ∃ w1 w2,
    on_delete_specific_pet req1 id w = (inr tt, w1) ∧
    on_delete_specific_pet req2 id w1 = (inr tt, w2) ∧
    w_sent w2 = w_sent w ++
      [Response req1 status_ok "application/json" (JObj [("id", JInt id)]);
       failure_response req2 status_not_found 3
         ("pet with this ID not found, ID=" +:+ pretty id)] ∧
    tbl_pets (w_db w2) = delete id (tbl_pets (w_db w)).
Proof.
  intros [data Hrow] Hff.
  destruct (delete_pet_fault_free 1 id (w_db w) Hff)
    as (db1 & Hdel1 & Htbl1 & _ & Hff1).
  rewrite Hrow in Hdel1, Htbl1.
  destruct (delete_pet_fault_free 0 id db1 Hff1)
    as (db2 & Hdel2 & Htbl2 & _).
  assert (tbl_pets db1 !! id = None) as Hgone
    by (rewrite Htbl1; apply lookup_delete_eq).
  rewrite Hgone in Hdel2, Htbl2.
  pose proof (entry_point_runs_business_step
                (do_delete_specific_pet req1 id) w) as Hrun1.
  cbn [call_closure business_step request_of] in Hrun1.
  unfold as_json, delete_specific_pet_action, pet_not_found in Hrun1.
  exn_unfold. rewrite Hdel1 in Hrun1. simpl in Hrun1.
  eexists _, _. split; [exact Hrun1|].
  pose proof (entry_point_runs_business_step
                (do_delete_specific_pet req2 id)
                (deliver (Response req1 status_ok "application/json"
                            (to_json (PetIdentity id))) (set_db db1 w)))
    as Hrun2.
  cbn [call_closure business_step request_of] in Hrun2.
  unfold as_json, delete_specific_pet_action, pet_not_found in Hrun2.
  exn_unfold. simpl in Hrun2. rewrite Hdel2 in Hrun2. simpl in Hrun2.
  split; [exact Hrun2|]. simpl. rewrite <- app_assoc.
  by rewrite Htbl2, Htbl1.
Qed.

(** X24.  The two reading entry points never change what the database
    holds, whatever they answer (200, 404 or 500). *)
Theorem reading_entry_points_keep_content (req : request_t) (id : pet_id_t)
    (w : world) :
  same_content (w_db w) (w_db (on_get_all_pets req w).2) ∧
  same_content (w_db w) (w_db (on_get_specific_pet req id w).2).
Proof.
  split.
  - pose proof (entry_point_runs_business_step (do_get_all_pets req) w)
      as Hrun.
    cbn [call_closure business_step request_of] in Hrun. rewrite Hrun.
    unfold as_json, get_all_pets_action. exn_unfold.
    pose proof (get_all_pets_content (w_db w)) as Hcontent.
    by destruct (DbLayer.get_all_pets (w_db w)) as [[e|pets] db'].
  - pose proof (entry_point_runs_business_step (do_get_specific_pet req id) w)
      as Hrun.
    cbn [call_closure business_step request_of] in Hrun. rewrite Hrun.
    unfold as_json, get_specific_pet_action, pet_not_found. exn_unfold.
    pose proof (get_pet_content id (w_db w)) as Hcontent.
    by destruct (get_pet id (w_db w)) as [[e|[pet|]] db'].
Qed.

(** X25.  A get-all without storage fault is answered 200 with an object
    whose one member [pets] is an array with one element per row of the
    table; the table is unchanged. *)
Theorem get_all_lists_every_row (req : request_t) (w : world) :
  fault_free (S (size (tbl_pets (w_db w)))) (w_db w) = true →
  ∃ w' items,
    on_get_all_pets req w = (inr tt, w') ∧
    w_sent w' = w_sent w ++
      [Response req status_ok "application/json"
         (JObj [("pets", JArr items)])] ∧
    length items = size (tbl_pets (w_db w)) ∧
    (∀ id data, tbl_pets (w_db w) !! id = Some data →
                to_json (PetWithId (to_int32 id) data) ∈ items) ∧
    tbl_pets (w_db w') = tbl_pets (w_db w).
Proof.
  intros Hff.
  destruct (get_all_loop_fault_free (scan_pets (w_db w)) [] (w_db w) 0)
    as (db' & Hloop & _).
  { unfold scan_pets. rewrite length_map_to_list. by rewrite Nat.add_0_r. }
  pose proof (get_all_loop_content (scan_pets (w_db w)) [] (w_db w))
    as [Htbl _].
  rewrite Hloop in Htbl. simpl in Htbl.
  pose proof (entry_point_runs_business_step (do_get_all_pets req) w) as Hrun.
  cbn [call_closure business_step request_of] in Hrun.
  unfold as_json, get_all_pets_action, DbLayer.get_all_pets in Hrun.
  exn_unfold. rewrite Hloop in Hrun. simpl in Hrun.
  eexists _, _. split; [exact Hrun|]. simpl. split; [reflexivity|].
  unfold scan_pets. cbn [all_pets]. split; [|split; [|done]].
  - by rewrite !length_fmap, length_map_to_list.
  - intros id data Hrow. apply list_elem_of_fmap.
    exists (PetWithId (to_int32 id) data). split; [done|].
    apply list_elem_of_fmap. exists (id, data). split; [done|].
    by apply elem_of_map_to_list.
Qed.

(** X26.  [wrap_business_logic_action] lets neither a [json_dto::ex_t] nor
    an [SQLite::Exception] through, whatever the wrapped lambda does; it
    returns the lambda's value unchanged, rethrows unchanged what it does
    not catch, and never touches the state the lambda left. *)
Theorem business_wrapper_converts_faults {A} (functor : Exn world A)
    (w : world) :
  let wrapped := wrap_business_logic_action functor w in
  wrapped.2 = (functor w).2 ∧
  match wrapped.1 with
  | inl (json_dto_ex_t _) | inl (SQLite_Exception _ _ _) => False
  | _ => True
  end ∧
  match (functor w).1 with
  | inr a => wrapped.1 = inr a
  | inl (request_processing_failure_t status description) =>
      wrapped.1 = inl (request_processing_failure_t status description)
  | inl (std_exception what) => wrapped.1 = inl (std_exception what)
  | inl (json_dto_ex_t _) =>
      ∃ description,
        wrapped.1 = inl (request_processing_failure_t status_bad_request
                           description) ∧
        m_error_code description = 1
  | inl (SQLite_Exception _ _ _) =>
      ∃ description,
        wrapped.1 = inl (request_processing_failure_t
                           status_internal_server_error description) ∧
        m_error_code description = 2
  end.
Proof.
  unfold wrap_business_logic_action. exn_unfold.
  destruct (functor w) as [[[]|a] w']; simpl; eauto.
Qed.

End EntryPointFacts.

(** ** The further properties on concrete data *)

Lemma closed_queue_tasks_witness :
  m_closed closed_task_queue = true ∧
  foldl (λ q c, enqueue c q) closed_task_queue
        [do_get_specific_pet plain_get 1] = closed_task_queue ∧
  worker_thread_func (H := demo_collaborators) 5 closed_task_queue fresh_world
    = (worker_returned, closed_task_queue, fresh_world).
Proof.
  split; [reflexivity|].
  apply (closed_queue_tasks_get_no_response (libraries := demo_collaborators)
           [do_get_specific_pet plain_get 1] closed_task_queue fresh_world 4).
  reflexivity.
Defined.

Lemma join_without_shutdown_witness :
  sys_queue (idle_system 1) = {| m_queue := tasks_of []; m_closed := false |} ∧
  join_worker (H := demo_collaborators) (StdThread 0 true) (idle_system 1)
    = None.
Proof.
  split; [reflexivity|].
  apply (join_without_shutdown_never_returns (libraries := demo_collaborators)
           [] (StdThread 0 true) (idle_system 1)).
  reflexivity.
Defined.

Lemma pool_construction_witness :
  (3 ≤ sys_thread_budget (idle_system 3))%nat ∧
  my_thread_pool_ctor (H := demo_collaborators) 3 (idle_system 3) =
    Some (inr {| m_threads := started_threads 0 3 |},
          after_starts 3 (idle_system 3)).
Proof.
  split; [simpl; lia|].
  apply (pool_construction_succeeds (libraries := demo_collaborators)
           3 (idle_system 3)).
  simpl. lia.
Defined.

Lemma stop_joins_all_witness :
  (1 ≤ 2)%nat ∧
  ∃ s',
    my_thread_pool_stop (H := demo_collaborators)
      {| m_threads := started_threads 0 2 |} (after_starts 2 (idle_system 2))
      = Some ({| m_threads := [] |}, s') ∧
    m_closed (sys_queue s') = true ∧
    my_thread_pool_stop (H := demo_collaborators) {| m_threads := [] |} s'
      = Some ({| m_threads := [] |}, s').
Proof.
  split; [lia|].
  destruct (stop_joins_all_and_is_idempotent (libraries := demo_collaborators)
              2 0 (after_starts 2 (idle_system 2)))
    as (s' & Hstop & Hclosed & _ & _ & _ & _ & Hagain); [lia|].
  exists s'. split; [exact Hstop|]. split; [exact Hclosed | exact Hagain].
Defined.

Lemma delete_twice_witness :
  is_Some (tbl_pets two_pets_db !! 1) ∧
  fault_free 3 two_pets_db = true ∧
  ∃ db1 db2 db3,
    delete_pet 1 two_pets_db = (inr delete_result_t.deleted, db1) ∧
    delete_pet 1 db1 = (inr delete_result_t.not_found, db2) ∧
    get_pet 1 db2 = (inr None, db3).
Proof.
  assert (is_Some (tbl_pets two_pets_db !! 1)) as Hrow
    by (exists (wo_data bunny); reflexivity).
  split; [exact Hrow|]. split; [reflexivity|].
  exact (delete_twice 1 two_pets_db Hrow eq_refl).
Defined.

Lemma update_then_get_witness :
  is_Some (tbl_pets two_pets_db !! 1) ∧
  in_int32 1 ∧ 2 ≠ 1 ∧ fault_free 2 two_pets_db = true ∧
  ∃ db1 db2 db3,
    update_pet 1 rex two_pets_db = (inr update_result_t.updated, db1) ∧
    get_pet 1 db1 = (inr (Some (PetWithId 1 (wo_data rex))), db2) ∧
    get_pet 2 db1 =
      (inr (PetWithId (to_int32 2) <$> tbl_pets two_pets_db !! 2), db3).
Proof.
  assert (is_Some (tbl_pets two_pets_db !! 1)) as Hrow
    by (exists (wo_data bunny); reflexivity).
  assert (in_int32 1) as Hid by (unfold in_int32, int32_min, int32_max; lia).
  assert (2 ≠ 1) as Hne by lia.
  split; [exact Hrow|]. split; [exact Hid|]. split; [exact Hne|].
  split; [reflexivity|].
  exact (update_then_get 1 2 rex two_pets_db Hrow Hid Hne eq_refl).
Defined.

Lemma get_all_pets_is_complete_witness :
  fault_free (S (size (tbl_pets two_pets_db))) two_pets_db = true ∧
  ∃ pets db',
    DbLayer.get_all_pets two_pets_db = (inr (AllPets pets), db') ∧
    length pets = 2%nat ∧
    PetWithId (to_int32 2) (wo_data kitty) ∈ pets.
Proof.
  split; [reflexivity|].
  destruct (get_all_pets_is_complete two_pets_db eq_refl)
    as (pets & db' & Hrun & Hlen & Hall & _).
  exists pets, db'. split; [exact Hrun|]. split; [exact Hlen|].
  apply Hall. reflexivity.
Defined.

Lemma create_new_pet_may_store_and_throw_witness :
  pending_faults (failing_after 1 io_error fresh_db)
    = None :: Some io_error :: [] ∧
  largest_rowid (failing_after 1 io_error fresh_db) < int64_max ∧
  ∃ db',
    DbLayer.create_new_pet bunny (failing_after 1 io_error fresh_db) =
      (inl (SQLite_Exception 10 266 "disk I/O error"), db') ∧
    tbl_pets db' !! 1 = Some (wo_data bunny).
Proof.
  split; [reflexivity|]. split; [reflexivity|].
  destruct (create_new_pet_may_store_and_throw bunny
              (failing_after 1 io_error fresh_db) io_error [] eq_refl eq_refl)
    as (db' & Hrun & Hrow & _).
  exists db'. split; [exact Hrun | exact Hrow].
Defined.

Lemma created_identity_is_new_witness :
  sequence_covers_rows fresh_db ∧
  identity_known 1 [gw_create_new_pet bunny] fresh_db ∧
  identity_returned 2 (gw_create_new_pet kitty)
    (after_calls ([gw_create_new_pet bunny] ++ [gw_delete_pet 1]) fresh_db) ∧
  largest_rowid
    (after_call (gw_create_new_pet kitty)
       (after_calls ([gw_create_new_pet bunny] ++ [gw_delete_pet 1])
          fresh_db)) ≤ int32_max ∧
  tbl_pets
    (after_calls ([gw_create_new_pet bunny] ++ [gw_delete_pet 1]) fresh_db)
    !! 1 = None ∧
  1 < 2 ∧
  tbl_pets
    (after_calls ([gw_create_new_pet bunny] ++ [gw_delete_pet 1]) fresh_db)
    !! 2 = None.
Proof.
  assert (sequence_covers_rows fresh_db) as Hcovers
    by (vm_compute; discriminate).
  assert (identity_known 1 [gw_create_new_pet bunny] fresh_db) as Hknown
    by (right; exists [], (gw_create_new_pet bunny); split; reflexivity).
  assert (largest_rowid
            (after_call (gw_create_new_pet kitty)
               (after_calls ([gw_create_new_pet bunny] ++ [gw_delete_pet 1])
                  fresh_db)) ≤ int32_max) as Hroom
    by (vm_compute; discriminate).
  split; [exact Hcovers|]. split; [exact Hknown|].
  split; [reflexivity|]. split; [exact Hroom|]. split; [reflexivity|].
  exact (created_identity_is_new
           [gw_create_new_pet bunny] [gw_delete_pet 1]
           (gw_create_new_pet kitty) fresh_db 1 2
           Hcovers Hknown eq_refl Hroom).
Defined.

Lemma batch_then_get_witness :
  fault_free (2 * 2 + 3) fresh_db = true ∧
  largest_rowid fresh_db + Z.of_nat 2 ≤ int32_max ∧
  ∃ ids db1 db2,
    create_bunch_of_pets (BunchOfPets [bunny; kitty]) fresh_db
      = (inr (BunchOfPetIds ids), db1) ∧
    ids !! 1%nat = Some 2 ∧
    get_pet 2 db1 = (inr (Some (PetWithId 2 (wo_data kitty))), db2).
Proof.
  assert (largest_rowid fresh_db + Z.of_nat 2 ≤ int32_max) as Hfit
    by (vm_compute; discriminate).
  split; [reflexivity|]. split; [exact Hfit|].
  destruct (batch_then_get (BunchOfPets [bunny; kitty]) fresh_db 1 kitty
              eq_refl Hfit eq_refl)
    as (ids & db1 & db2 & Hrun & _ & Hid & Hget).
  exists ids, db1, db2. split; [exact Hrun|]. split; [exact Hid | exact Hget].
Defined.

Lemma rejected_requests_witness :
  malformed_envelope (H := demo_collaborators) post_as_text ∧
  ∃ rsp,
    call_closure (H := demo_collaborators) (do_create_new_pet post_as_text)
      two_pets_world = (inr tt, deliver rsp two_pets_world).
Proof.
  assert (malformed_envelope (H := demo_collaborators) post_as_text)
    as Hmalformed by (left; eexists; reflexivity).
  split; [exact Hmalformed|].
  apply (rejected_requests_do_not_reach_storage
           (libraries := demo_collaborators)).
  right. right. exists post_as_text. split; [reflexivity | exact Hmalformed].
Defined.

Lemma created_pet_can_be_fetched_witness :
  detect_create_new_mode (H := demo_collaborators) post_bunny = inr single ∧
  from_json_pet (Collaborators := demo_collaborators) (body post_bunny)
    = inr bunny ∧
  fault_free 3 (w_db fresh_world) = true ∧
  largest_rowid (w_db fresh_world) + 1 ≤ int32_max ∧
  ∃ w1 w2,
    on_create_new_pet (H := demo_collaborators) post_bunny fresh_world
      = (inr tt, w1) ∧
    on_get_specific_pet plain_get 1 w1
      = (inr tt, w2) ∧
    length (w_sent w2) = 2%nat.
Proof.
  assert (largest_rowid (w_db fresh_world) + 1 ≤ int32_max) as Hfit
    by (vm_compute; discriminate).
  split; [reflexivity|]. split; [reflexivity|]. split; [reflexivity|].
  split; [exact Hfit|].
  destruct (created_pet_can_be_fetched (libraries := demo_collaborators)
              post_bunny plain_get fresh_world bunny
              eq_refl eq_refl eq_refl Hfit)
    as (w1 & w2 & Hcreate & Hget & Hsent).
  exists w1, w2. split; [exact Hcreate|]. split; [exact Hget|].
  by rewrite Hsent.
Defined.

Lemma patch_replaces_the_record_witness :
  from_json_pet (Collaborators := demo_collaborators) (body patch_rex)
    = inr rex ∧
  fault_free 1 (w_db two_pets_world) = true ∧
  ∃ w',
    on_patch_specific_pet (H := demo_collaborators) patch_rex 1 two_pets_world
      = (inr tt, w') ∧
    tbl_pets (w_db w') !! 1 = Some (wo_data rex).
Proof.
  split; [reflexivity|]. split; [reflexivity|].
  destruct (patch_replaces_the_record (libraries := demo_collaborators)
              patch_rex 1 two_pets_world rex eq_refl eq_refl)
    as (w' & Hrun & Hrow).
  exists w'. split; [exact Hrun|].
  change (tbl_pets (w_db two_pets_world) !! 1) with (Some (wo_data bunny))
    in Hrow.
  destruct Hrow as [_ ->]. apply lookup_insert_eq.
Defined.

Lemma delete_is_answered_once_witness :
  is_Some (tbl_pets (w_db two_pets_world) !! 1) ∧
  fault_free 2 (w_db two_pets_world) = true ∧
  ∃ w1 w2,
    on_delete_specific_pet plain_get 1
      two_pets_world = (inr tt, w1) ∧
    on_delete_specific_pet plain_get 1 w1
      = (inr tt, w2) ∧
    (λ rsp, status_code (rsp_status rsp)) <$> w_sent w2 = [200; 404].
Proof.
  assert (is_Some (tbl_pets (w_db two_pets_world) !! 1)) as Hrow
    by (exists (wo_data bunny); reflexivity).
  split; [exact Hrow|]. split; [reflexivity|].
  destruct (delete_is_answered_once (libraries := demo_collaborators)
              plain_get plain_get 1 two_pets_world Hrow eq_refl)
    as (w1 & w2 & Hfirst & Hsecond & Hsent & _).
  exists w1, w2. split; [exact Hfirst|]. split; [exact Hsecond|].
  by rewrite Hsent.
Defined.

Lemma get_all_lists_every_row_witness :
  fault_free (S (size (tbl_pets (w_db two_pets_world))))
    (w_db two_pets_world) = true ∧
  ∃ w' items,
    on_get_all_pets plain_get two_pets_world
      = (inr tt, w') ∧
    length items = 2%nat ∧
    w_sent w' =
      [Response plain_get status_ok "application/json"
         (JObj [("pets", JArr items)])].
Proof.
  split; [reflexivity|].
  destruct (get_all_lists_every_row (libraries := demo_collaborators)
              plain_get two_pets_world eq_refl)
    as (w' & items & Hrun & Hsent & Hlen & _).
  exists w', items. split; [exact Hrun|]. split; [exact Hlen | exact Hsent].
Defined.
